(** * OpenMDAO default vector and transfer: a shallow embedding

    Source: [openmdao/vectors/default_vector.py] (classes [DefaultTransfer]
    and [DefaultVector]).

    NumPy arrays are mutable and may alias each other (a slice is a view of
    its base array), so array storage is modelled explicitly: a [memory] maps
    cell addresses to numbers and an [ndarray] is a window of consecutive
    cells.  Float64 elements are idealised as real numbers; integer indices
    and sizes are unbounded integers.  Python exceptions are the left summand
    of [result].  Where rounding decides a property, the module [Float64]
    gives the computation again in binary64 arithmetic. *)

From Stdlib Require Import PrimFloat.
From Stdlib Require Import String.
From Stdlib Require Import List ZArith Bool Arith Lia.
From Stdlib Require Import Reals Lra Permutation.
Import ListNotations.

Set Warnings "-register-all".

(** ** Exceptions *)

Inductive exn : Type :=
| IndexError
| KeyError
| ValueError.

Definition result (A : Type) : Type := (exn + A)%type.

Definition ret {A : Type} (a : A) : result A := inr a.

Definition raise {A : Type} (e : exn) : result A := inl e.

Definition bind {A B : Type} (r : result A) (k : A -> result B) : result B :=
  match r with
  | inl e => inl e
  | inr a => k a
  end.

Notation "x <- c ;; k" := (bind c (fun x => k))
  (at level 100, c at next level, right associativity).

Fixpoint mapM {A B : Type} (f : A -> result B) (l : list A) : result (list B) :=
  match l with
  | [] => ret []
  | x :: xs => y <- f x ;; ys <- mapM f xs ;; ret (y :: ys)
  end.

(** A [for] loop whose body may raise: the state is threaded through the
    items in order and the first exception ends the loop. *)
Fixpoint for_each {A S : Type} (body : S -> A -> result S) (items : list A)
    (s : S) : result S :=
  match items with
  | [] => ret s
  | x :: xs => s' <- body s x ;; for_each body xs s'
  end.

(** ** Python sequences and dictionaries *)

(** [seq[i]] for a sequence of length [n]: a negative index counts from the
    end, anything outside [-n .. n-1] raises [IndexError]. *)
Definition py_index (n : nat) (i : Z) : result nat :=
  if ((0 <=? i) && (i <? Z.of_nat n))%Z then ret (Z.to_nat i)
  else if ((- Z.of_nat n <=? i) && (i <? 0))%Z then ret (Z.to_nat (i + Z.of_nat n))
  else raise IndexError.

Definition list_getitem {A : Type} (l : list A) (i : Z) : result A :=
  j <- py_index (length l) i ;;
  match nth_error l j with
  | Some x => ret x
  | None => raise IndexError
  end.

(** In-place [l[j] = x] for an index already known to be a position. *)
Fixpoint list_setitem {A : Type} (l : list A) (j : nat) (x : A) : list A :=
  match l, j with
  | [], _ => []
  | _ :: t, O => x :: t
  | y :: t, S j' => y :: list_setitem t j' x
  end.

(** One bound of a slice [seq[i1:i2]], clamped as Python does. *)
Definition slice_bound (n : nat) (i : Z) : nat :=
  if (i <? 0)%Z then Z.to_nat (Z.max (i + Z.of_nat n) 0)
  else Z.to_nat (Z.min i (Z.of_nat n)).

(** A dictionary in insertion order; its keys are pairwise different. *)
Definition dict (K V : Type) : Type := list (K * V).

Definition keys {K V : Type} (d : dict K V) : list K := map fst d.

Definition key_eqb (a b : Z * Z) : bool :=
  ((fst a =? fst b) && (snd a =? snd b))%Z.

Fixpoint dict_getitem {V : Type} (d : dict (Z * Z) V) (k : Z * Z) : result V :=
  match d with
  | [] => raise KeyError
  | (k', v) :: rest => if key_eqb k' k then ret v else dict_getitem rest k
  end.

(** ** Array storage *)

Definition memory : Type := nat -> R.

Definition store (m : memory) (c : nat) (x : R) : memory :=
  fun c' => if Nat.eqb c' c then x else m c'.

(** A one-dimensional array: [len] consecutive cells starting at [ptr].  Two
    arrays alias exactly when their cell ranges meet. *)
Record ndarray : Type := { ptr : nat; len : nat }.

Definition cell (a : ndarray) (j : nat) : nat := ptr a + j.

Definition in_array (a : ndarray) (c : nat) : Prop :=
  ptr a <= c < ptr a + len a.

(** The current contents of an array. *)
Definition read (m : memory) (a : ndarray) : list R :=
  map (fun j => m (cell a j)) (seq 0 (len a)).

(** Basic slice [a[i1:i2]]: a view of the same cells, never a copy. *)
Definition slice (a : ndarray) (i1 i2 : Z) : ndarray :=
  let lo := slice_bound (len a) i1 in
  let hi := slice_bound (len a) i2 in
  {| ptr := ptr a + lo; len := hi - lo |}.

(** Broadcasting a one-dimensional operand to [n] elements: equal length, or
    a single element repeated; anything else raises [ValueError]. *)
Definition broadcast_to (n : nat) (vals : list R) : result (list R) :=
  if Nat.eqb (length vals) n then ret vals
  else match vals with
       | [x] => ret (repeat x n)
       | _ => raise ValueError
       end.

(** [a[inds]] with an integer index array: a fresh copy of the addressed
    elements. *)
Definition take (m : memory) (a : ndarray) (inds : list Z) : result (list R) :=
  js <- mapM (py_index (len a)) inds ;;
  ret (map (fun j => m (cell a j)) js).

Definition assign_all (m : memory) (writes : list (nat * R)) : memory :=
  fold_left (fun m' w => store m' (fst w) (snd w)) writes m.

Definition add_all (m : memory) (adds : list (nat * R)) : memory :=
  fold_left (fun m' w => store m' (fst w) (m' (fst w) + snd w)%R) adds m.

(** [a[inds] = vals]: element by element in index order, so a repeated index
    keeps the value written last. *)
Definition put (m : memory) (a : ndarray) (inds : list Z) (vals : list R)
    : result memory :=
  js <- mapM (py_index (len a)) inds ;;
  vs <- broadcast_to (length inds) vals ;;
  ret (assign_all m (combine (map (cell a) js) vs)).

(** [numpy.add.at(a, inds, vals)]: unbuffered in-place addition, so a
    repeated index receives every one of its operands. *)
Definition add_at (m : memory) (a : ndarray) (inds : list Z) (vals : list R)
    : result memory :=
  js <- mapM (py_index (len a)) inds ;;
  vs <- broadcast_to (length inds) vals ;;
  ret (add_all m (combine (map (cell a) js) vs)).

(** Allocation.  [brk] is the first cell never handed out: a new array
    takes the cells from [brk] on, so it shares no cell with an array
    allocated before it. *)
Record heap : Type := { mem : memory; brk : nat }.

Definition allocated (h : heap) (a : ndarray) : Prop :=
  ptr a + len a <= brk h.

Definition fresh_cell (h : heap) (k : nat) (c : nat) : bool :=
  (brk h <=? c) && (c <? brk h + k).

(** [numpy.zeros(n)]. *)
Definition zeros (h : heap) (n : Z) : result (heap * ndarray) :=
  if (n <? 0)%Z then raise ValueError
  else
    let k := Z.to_nat n in
    ret ({| mem := fun c => if fresh_cell h k c then 0%R else mem h c;
            brk := brk h + k |},
         {| ptr := brk h; len := k |}).

(** [numpy.array(a)]: a new array holding a copy of the contents of [a]. *)
Definition array (h : heap) (a : ndarray) : heap * ndarray :=
  ({| mem := fun c => if fresh_cell h (len a) c
                      then mem h (cell a (c - brk h)) else mem h c;
      brk := brk h + len a |},
   {| ptr := brk h; len := len a |}).

(** An elementwise in-place update of [a]: element [j] becomes [f j] of its
    old value. *)
Definition update_array (m : memory) (a : ndarray) (f : nat -> R -> R) : memory :=
  assign_all m (map (fun j => (cell a j, f j (m (cell a j)))) (seq 0 (len a))).

(** [numpy.sum] of a one-dimensional array, and of an integer array. *)
Definition np_sum (l : list R) : R := fold_left Rplus l 0%R.

Definition np_sumZ (l : list Z) : Z := fold_left Z.add l 0%Z.

(** [seq[i1:i2]] on a sequence: the items of the clamped range. *)
Definition py_slice {A : Type} (l : list A) (i1 i2 : Z) : list A :=
  let lo := slice_bound (length l) i1 in
  let hi := slice_bound (length l) i2 in
  firstn (hi - lo) (skipn lo l).

(** ** Vectors *)

(** The fields of a vector that the two classes use.  The per-type
    dictionaries of the assembler and of the system ([..[self._typ]]) are
    given already selected.  [_global_vector = None] stands for a root
    vector, whose global vector is itself. *)
Record Assembler : Type := {
  _variable_sizes : list (list (list Z));
  _variable_set_indices : list (Z * Z)
}.

Record System : Type := {
  _variable_allprocs_range : Z * Z
}.

Inductive Vector : Type := Build_Vector {
  _assembler : Assembler;
  _system : System;
  _iproc : Z;
  _data : list ndarray;
  _views : list (string * ndarray);
  _global_vector : option Vector
}.

Definition global_vector (v : Vector) : Vector :=
  match _global_vector v with
  | Some g => g
  | None => v
  end.

(** [self._data = d]. *)
Definition set_data (v : Vector) (d : list ndarray) : Vector :=
  Build_Vector (_assembler v) (_system v) (_iproc v) d (_views v)
    (_global_vector v).

(** The fields of the system that [_initialize_views] reads, already
    selected by type like those of [System]: the names of the variables of
    this process, their positions in [variable_set_indices], and their
    metadata.  A metadata dictionary holds the keys ['shape'] and ['value'];
    [None] stands for an absent key.  Of a value only what [isinstance]
    tells apart is kept. *)
Inductive py_value : Type :=
| RealValue
| ArrayValue
| OtherValue.

Record Metadata : Type := {
  meta_shape : option (list Z);
  meta_value : option py_value
}.

Record SystemVariables : Type := {
  _variable_myproc_names : list string;
  _variable_myproc_indices : list Z;
  _variable_myproc_metadata : list Metadata
}.

(** An entry of [_idxs]: the index [0] or the slice [slice(None)]. *)
Inductive idx : Type :=
| Idx0
| SliceNone.

(** A view: a window of cells with the shape it was given. *)
Record view : Type := { view_array : ndarray; view_shape : list nat }.

(** A dictionary with string keys: [d[k]] and [d[k] = v].  Assigning to a
    key that is present replaces its value where it stands. *)
Fixpoint sdict_getitem {V : Type} (d : dict string V) (k : string) : result V :=
  match d with
  | [] => raise KeyError
  | (k', v) :: rest => if String.eqb k' k then ret v else sdict_getitem rest k
  end.

Fixpoint sdict_setitem {V : Type} (d : dict string V) (k : string) (v : V)
    : dict string V :=
  match d with
  | [] => [(k, v)]
  | (k', v') :: rest =>
      if String.eqb k' k then (k', v) :: rest
      else (k', v') :: sdict_setitem rest k v
  end.

(** [a.shape = s].  A negative entry of [s] stands for the one dimension
    NumPy works out from the size; the product of the dimensions must be
    the size of the array, otherwise [ValueError]. *)
Definition known_size (s : list Z) : Z :=
  fold_left Z.mul (filter (fun d => (0 <=? d)%Z) s) 1%Z.

Definition set_shape (a : ndarray) (s : list Z) : result (list nat) :=
  match length (filter (fun d => (d <? 0)%Z) s) with
  | 0 =>
      if (known_size s =? Z.of_nat (len a))%Z then ret (map Z.to_nat s)
      else raise ValueError
  | 1 =>
      if ((known_size s =? 0) || negb (Z.of_nat (len a) mod known_size s =? 0))%Z
      then raise ValueError
      else ret (map (fun d => if (d <? 0)%Z
                              then Z.to_nat (Z.of_nat (len a) / known_size s)
                              else Z.to_nat d) s)
  | _ => raise ValueError
  end.

(** ** DefaultTransfer *)

Module DefaultTransfer.

Record t : Type := {
  _ip_inds : dict (Z * Z) (list Z);
  _op_inds : dict (Z * Z) (list Z)
}.

(** Body of the loop of the ['fwd'] branch. *)
Definition fwd_body (self : t) (ip_vec op_vec : Vector) (m : memory)
    (key : Z * Z) : result memory :=
  let '(ip_iset, op_iset) := key in
  probe <- dict_getitem (_ip_inds self) key ;;
  if (0 <? length probe)%nat then
    ip_inds <- dict_getitem (_ip_inds self) key ;;
    op_inds <- dict_getitem (_op_inds self) key ;;
    op_arr <- list_getitem (_data (global_vector op_vec)) op_iset ;;
    tmp <- take m op_arr op_inds ;;
    ip_arr <- list_getitem (_data (global_vector ip_vec)) ip_iset ;;
    put m ip_arr ip_inds tmp
  else ret m.

(** Body of the loop of the ['rev'] branch. *)
Definition rev_body (self : t) (ip_vec op_vec : Vector) (m : memory)
    (key : Z * Z) : result memory :=
  let '(ip_iset, op_iset) := key in
  probe <- dict_getitem (_ip_inds self) key ;;
  if (0 <? length probe)%nat then
    ip_inds <- dict_getitem (_ip_inds self) key ;;
    op_inds <- dict_getitem (_op_inds self) key ;;
    ip_arr <- list_getitem (_data (global_vector ip_vec)) ip_iset ;;
    tmp <- take m ip_arr ip_inds ;;
    op_arr <- list_getitem (_data (global_vector op_vec)) op_iset ;;
    add_at m op_arr op_inds tmp
  else ret m.

Definition __call__ (self : t) (ip_vec op_vec : Vector) (mode : string)
    (m : memory) : result memory :=
  if String.eqb mode "fwd" then
    for_each (fwd_body self ip_vec op_vec) (keys (_ip_inds self)) m
  else if String.eqb mode "rev" then
    for_each (rev_body self ip_vec op_vec) (keys (_ip_inds self)) m
  else ret m.

End DefaultTransfer.

(** ** DefaultVector *)

Module DefaultVector.

(** One item of the list comprehension of [_create_data]. *)
Definition create_item (self : Vector) (acc : heap * list ndarray)
    (sizes : list (list Z)) : result (heap * list ndarray) :=
  let '(h, data) := acc in
  r <- list_getitem sizes (_iproc self) ;;
  hz <- zeros h (np_sumZ r) ;;
  ret (fst hz, data ++ [snd hz]).

Definition _create_data (self : Vector) (h : heap)
    : result (heap * list ndarray) :=
  for_each (create_item self) (_variable_sizes (_assembler self)) (h, []).

(** [sub_variable_set_indices[bool_vector, 1]] for
    [bool_vector = sub_variable_set_indices[:, 0] == iset]. *)
Definition select_data_inds (sub : list (Z * Z)) (iset : nat) : list Z :=
  map snd (filter (fun r => (fst r =? Z.of_nat iset)%Z) sub).

(** Body of the loop of [_extract_data]. *)
Definition extract_body (self : Vector) (variable_sizes : list (list (list Z)))
    (sub_variable_set_indices : list (Z * Z)) (acc : heap * list ndarray)
    (iset : nat) : result (heap * list ndarray) :=
  let '(h, data) := acc in
  let data_inds := select_data_inds sub_variable_set_indices iset in
  if (0 <? length data_inds)%nat then
    sizes_array <- list_getitem variable_sizes (Z.of_nat iset) ;;
    first <- list_getitem data_inds 0 ;;
    r1 <- list_getitem sizes_array (_iproc self) ;;
    let ind1 := np_sumZ (py_slice r1 0 first) in
    final <- list_getitem data_inds (-1) ;;
    r2 <- list_getitem sizes_array (_iproc self) ;;
    let ind2 := np_sumZ (py_slice r2 0 (final + 1)) in
    g <- list_getitem (_data (global_vector self)) (Z.of_nat iset) ;;
    ret (h, data ++ [slice g ind1 ind2])
  else
    hz <- zeros h 0 ;;
    ret (fst hz, data ++ [snd hz]).

Definition _extract_data (self : Vector) (h : heap)
    : result (heap * list ndarray) :=
  let variable_sizes := _variable_sizes (_assembler self) in
  let variable_set_indices := _variable_set_indices (_assembler self) in
  let '(ind1, ind2) := _variable_allprocs_range (_system self) in
  let sub_variable_set_indices := py_slice variable_set_indices ind1 ind2 in
  for_each (extract_body self variable_sizes sub_variable_set_indices)
    (seq 0 (length variable_sizes)) (h, []).

(** Body of the loop of [_clone_data]. *)
Definition clone_body (acc : heap * list ndarray) (iset : nat)
    : result (heap * list ndarray) :=
  let '(h, self_data) := acc in
  data <- list_getitem self_data (Z.of_nat iset) ;;
  let '(h', copy) := array h data in
  ret (h', list_setitem self_data iset copy).

Definition _clone_data (self : Vector) (h : heap) : result (heap * Vector) :=
  hd <- for_each clone_body (seq 0 (length (_data self))) (h, _data self) ;;
  ret (fst hd, set_data self (snd hd)).

(** [data *= operand] on one array. *)
Definition imul_array (m : memory) (a : ndarray) (operand : list R)
    : result memory :=
  vs <- broadcast_to (len a) operand ;;
  ret (update_array m a (fun j x => x * nth j vs 0)%R).

Definition __imul__ (self : Vector) (val : R) (m : memory) : memory :=
  fold_left (fun m' data => update_array m' data (fun _ x => x * val)%R)
    (_data self) m.

(** Body of the loop of [add_scal_vec]: the right-hand side
    [val * vec._data[iset]] is a temporary, computed before the in-place
    product. *)
Definition add_scal_vec_body (self : Vector) (val : R) (vec : Vector)
    (m : memory) (iset : nat) : result memory :=
  target <- list_getitem (_data self) (Z.of_nat iset) ;;
  other <- list_getitem (_data vec) (Z.of_nat iset) ;;
  let tmp := map (fun x => val * x)%R (read m other) in
  imul_array m target tmp.

Definition add_scal_vec (self : Vector) (val : R) (vec : Vector) (m : memory)
    : result memory :=
  for_each (add_scal_vec_body self val vec) (seq 0 (length (_data self))) m.

Definition set_const (self : Vector) (val : R) (m : memory) : memory :=
  fold_left (fun m' data => update_array m' data (fun _ _ => val))
    (_data self) m.

(** [global_sum ** 0.5] is the square root. *)
Definition get_norm (self : Vector) (m : memory) : R :=
  let global_sum :=
    fold_left (fun s data => (s + np_sum (map (fun x => x ^ 2) (read m data)))%R)
      (_data self) 0%R in
  sqrt global_sum.

(** [_initialize_data(global_vector)]. *)
Definition _initialize_data (self : Vector) (global_vector : option Vector)
    (h : heap) : result (heap * Vector) :=
  match global_vector with
  | None => hd <- _create_data self h ;; ret (fst hd, set_data self (snd hd))
  | Some _ => hd <- _extract_data self h ;; ret (fst hd, set_data self (snd hd))
  end.

(** Body of the loop of [_initialize_views], for the item [(ind, name)] of
    [enumerate(variable_myproc_names)].  The value is the pair
    [(views, idxs)] that the method stores in [_views] and [_idxs] when the
    loop is over. *)
Definition views_body (self : Vector) (sv : SystemVariables)
    (acc : dict string view * dict string idx) (item : nat * string)
    : result (dict string view * dict string idx) :=
  let '(views, idxs) := acc in
  let '(ind, name) := item in
  let variable_sizes := _variable_sizes (_assembler self) in
  let variable_set_indices := _variable_set_indices (_assembler self) in
  ivar_all <- list_getitem (_variable_myproc_indices sv) (Z.of_nat ind) ;;
  placement <- list_getitem variable_set_indices ivar_all ;;
  let '(iset, ivar) := placement in
  sizes1 <- list_getitem variable_sizes iset ;;
  r1 <- list_getitem sizes1 (_iproc self) ;;
  let ind1 := np_sumZ (py_slice r1 0 ivar) in
  sizes2 <- list_getitem variable_sizes iset ;;
  r2 <- list_getitem sizes2 (_iproc self) ;;
  let ind2 := np_sumZ (py_slice r2 0 (ivar + 1)) in
  g <- list_getitem (_data (global_vector self)) iset ;;
  let window := slice g ind1 ind2 in
  md <- list_getitem (_variable_myproc_metadata sv) (Z.of_nat ind) ;;
  shape <- match meta_shape md with Some s => ret s | None => raise KeyError end ;;
  shp <- set_shape window shape ;;
  let views' := sdict_setitem views name
                  {| view_array := window; view_shape := shp |} in
  val <- match meta_value md with Some v => ret v | None => raise KeyError end ;;
  match val with
  | RealValue => ret (views', sdict_setitem idxs name Idx0)
  | ArrayValue => ret (views', sdict_setitem idxs name SliceNone)
  | OtherValue => ret (views', idxs)
  end.

Definition _initialize_views (self : Vector) (sv : SystemVariables)
    : result (dict string view * dict string idx) :=
  let names := _variable_myproc_names sv in
  for_each (views_body self sv) (combine (seq 0 (length names)) names) ([], []).

(** [data += operand], [data -= operand] and [data[:] = operand] on one
    array. *)
Definition iadd_array (m : memory) (a : ndarray) (operand : list R)
    : result memory :=
  vs <- broadcast_to (len a) operand ;;
  ret (update_array m a (fun j x => x + nth j vs 0)%R).

Definition isub_array (m : memory) (a : ndarray) (operand : list R)
    : result memory :=
  vs <- broadcast_to (len a) operand ;;
  ret (update_array m a (fun j x => x - nth j vs 0)%R).

Definition setslice_array (m : memory) (a : ndarray) (operand : list R)
    : result memory :=
  vs <- broadcast_to (len a) operand ;;
  ret (update_array m a (fun j _ => nth j vs 0%R)).

(** Body of the loop of [__iadd__]. *)
Definition iadd_body (self vec : Vector) (m : memory) (iset : nat)
    : result memory :=
  target <- list_getitem (_data self) (Z.of_nat iset) ;;
  other <- list_getitem (_data vec) (Z.of_nat iset) ;;
  iadd_array m target (read m other).

Definition __iadd__ (self vec : Vector) (m : memory) : result memory :=
  for_each (iadd_body self vec) (seq 0 (length (_data self))) m.

(** Body of the loop of [__isub__]. *)
Definition isub_body (self vec : Vector) (m : memory) (iset : nat)
    : result memory :=
  target <- list_getitem (_data self) (Z.of_nat iset) ;;
  other <- list_getitem (_data vec) (Z.of_nat iset) ;;
  isub_array m target (read m other).

Definition __isub__ (self vec : Vector) (m : memory) : result memory :=
  for_each (isub_body self vec) (seq 0 (length (_data self))) m.

(** Body of the loop of [set_vec]: the right-hand side is evaluated before
    the target. *)
Definition set_vec_body (self vec : Vector) (m : memory) (iset : nat)
    : result memory :=
  other <- list_getitem (_data vec) (Z.of_nat iset) ;;
  target <- list_getitem (_data self) (Z.of_nat iset) ;;
  setslice_array m target (read m other).

Definition set_vec (self vec : Vector) (m : memory) : result memory :=
  for_each (set_vec_body self vec) (seq 0 (length (_data self))) m.

End DefaultVector.

(** ** Specification vocabulary *)

(** *** Aliasing *)

(** Two arrays share no cell. *)
Definition disjoint (a b : ndarray) : Prop :=
  forall c, in_array a c -> in_array b c -> False.

Definition disjointb (a b : ndarray) : bool :=
  (len a =? 0) || (len b =? 0) || (ptr a + len a <=? ptr b)
  || (ptr b + len b <=? ptr a).

(** The buffers of two stores share no cell. *)
Definition stores_apart (ipd opd : list ndarray) : Prop :=
  forall a b, In a ipd -> In b opd -> disjoint a b.

Definition stores_apartb (ipd opd : list ndarray) : bool :=
  forallb (fun a => forallb (disjointb a) opd) ipd.

(** The buffers of one store share no cell with each other. *)
Definition buffers_apart (d : list ndarray) : Prop :=
  forall i j a b, nth_error d i = Some a -> nth_error d j = Some b ->
                  i <> j -> disjoint a b.

Fixpoint buffers_apartb (d : list ndarray) : bool :=
  match d with
  | [] => true
  | a :: rest => forallb (disjointb a) rest && buffers_apartb rest
  end.

(** No buffer of [d1] shares a cell with the buffer of another set of
    [d2]. *)
Definition cross_apart (d1 d2 : list ndarray) : Prop :=
  forall i j a b, nth_error d1 i = Some a -> nth_error d2 j = Some b ->
                  i <> j -> disjoint a b.

(** The same set structure and equal lengths: the contract of the
    operations between two stores. *)
Definition same_layout (d1 d2 : list ndarray) : Prop :=
  forall iset a, nth_error d1 iset = Some a ->
                 exists b, nth_error d2 iset = Some b /\ len b = len a.

(** Every element of every buffer, set after set. *)
Definition all_elements (v : Vector) (m : memory) : list R :=
  concat (map (read m) (_data v)).

Definition sum_list (l : list R) : R := fold_right Rplus 0%R l.

(** *** The correspondence of a transfer *)

(** The correspondence a transfer denotes for one key, as pairs of cells
    (cell of the input store, cell of the output store): entry [k] of the
    key's two index arrays relates element [ip_inds[k]] of the input buffer
    to element [op_inds[k]] of the output buffer.  A key with an empty index
    array relates nothing. *)
Definition pair_cells (self : DefaultTransfer.t) (ipd opd : list ndarray)
    (key : Z * Z) : result (list (nat * nat)) :=
  ip_inds <- dict_getitem (DefaultTransfer._ip_inds self) key ;;
  if (0 <? length ip_inds)%nat then
    op_inds <- dict_getitem (DefaultTransfer._op_inds self) key ;;
    ip_arr <- list_getitem ipd (fst key) ;;
    op_arr <- list_getitem opd (snd key) ;;
    ips <- mapM (py_index (len ip_arr)) ip_inds ;;
    ops <- mapM (py_index (len op_arr)) op_inds ;;
    if (length ips =? length ops)%nat
    then ret (combine (map (cell ip_arr) ips) (map (cell op_arr) ops))
    else raise ValueError
  else ret [].

Definition cells_of (self : DefaultTransfer.t) (ipd opd : list ndarray)
    (ks : list (Z * Z)) : result (list (nat * nat)) :=
  css <- mapM (pair_cells self ipd opd) ks ;; ret (concat css).

Definition correspondences (self : DefaultTransfer.t) (ip_vec op_vec : Vector)
    : result (list (nat * nat)) :=
  cells_of self (_data (global_vector ip_vec)) (_data (global_vector op_vec))
    (keys (DefaultTransfer._ip_inds self)).

(** An index a sequence of length [n] accepts. *)
Definition in_range (n : nat) (i : Z) : Prop :=
  (- Z.of_nat n <= i < Z.of_nat n)%Z.

(** The contract on one key of a transfer: unless its index array is empty,
    the key has an entry in both dictionaries, its two sets exist in the two
    stores, and its index arrays have equal lengths and address existing
    elements. *)
Definition key_well_formed (self : DefaultTransfer.t) (ipd opd : list ndarray)
    (key : Z * Z) : Prop :=
  exists ip_inds,
    dict_getitem (DefaultTransfer._ip_inds self) key = inr ip_inds /\
    (ip_inds = [] \/
     exists op_inds ip_arr op_arr,
       dict_getitem (DefaultTransfer._op_inds self) key = inr op_inds /\
       list_getitem ipd (fst key) = inr ip_arr /\
       list_getitem opd (snd key) = inr op_arr /\
       length ip_inds = length op_inds /\
       Forall (in_range (len ip_arr)) ip_inds /\
       Forall (in_range (len op_arr)) op_inds).

(** No cell is both read and written by the transfer. *)
Definition apart (ms : list (nat * nat)) : Prop :=
  forall i o, In i (map fst ms) -> In o (map snd ms) -> i <> o.

Definition apartb (ms : list (nat * nat)) : bool :=
  forallb (fun i => negb (existsb (Nat.eqb i) (map snd ms))) (map fst ms).

(** The sum of the input-store values that the correspondence sends to the
    output cell [c]. *)
Definition contributions (ms : list (nat * nat)) (m : memory) (c : nat) : R :=
  sum_list (map (fun io => m (fst io)) (filter (fun io => snd io =? c) ms)).

(** The assignments a correspondence stands for in forward mode, and the
    in-place additions it stands for in reverse mode, with the values read
    from [m]. *)
Definition fwd_writes (m : memory) (cs : list (nat * nat)) : list (nat * R) :=
  map (fun io => (fst io, m (snd io))) cs.

Definition rev_adds (m : memory) (cs : list (nat * nat)) : list (nat * R) :=
  map (fun io => (snd io, m (fst io))) cs.

(** Set position [j] of the input (resp. output) store is named by a key
    whose index array is not empty. *)
Definition named_ip (self : DefaultTransfer.t) (ipd : list ndarray) (j : nat)
    : Prop :=
  exists key inds,
    In key (keys (DefaultTransfer._ip_inds self)) /\
    dict_getitem (DefaultTransfer._ip_inds self) key = inr inds /\
    inds <> [] /\ py_index (length ipd) (fst key) = inr j.

Definition named_op (self : DefaultTransfer.t) (opd : list ndarray) (j : nat)
    : Prop :=
  exists key inds,
    In key (keys (DefaultTransfer._ip_inds self)) /\
    dict_getitem (DefaultTransfer._ip_inds self) key = inr inds /\
    inds <> [] /\ py_index (length opd) (snd key) = inr j.

(** *** Extraction from a global vector *)

(** The rows of [variable_set_indices] that belong to the system of the
    vector ([sub_variable_set_indices]). *)
Definition system_variables (self : Vector) : list (Z * Z) :=
  py_slice (_variable_set_indices (_assembler self))
    (fst (_variable_allprocs_range (_system self)))
    (snd (_variable_allprocs_range (_system self))).

(** What the loop of [_extract_data] looks up for a set in which the system
    has variables: the row of this process in the set's sizing array, and
    the set's buffer in the global vector. *)
Definition locatable (self : Vector) (iset : nat) : Prop :=
  DefaultVector.select_data_inds (system_variables self) iset = [] \/
  exists sizes_array row g,
    nth_error (_variable_sizes (_assembler self)) iset = Some sizes_array /\
    list_getitem sizes_array (_iproc self) = inr row /\
    nth_error (_data (global_vector self)) iset = Some g.

(** This process owns no variable of set [iset]: from the first to the last
    variable the system has in the set, every size on this process is 0.
    (Nothing is asked when the system has no variable in the set.) *)
Definition owns_none (self : Vector) (iset : nat) : Prop :=
  forall sizes_array row first final,
    nth_error (_variable_sizes (_assembler self)) iset = Some sizes_array ->
    list_getitem sizes_array (_iproc self) = inr row ->
    list_getitem (DefaultVector.select_data_inds (system_variables self) iset) 0
    = inr first ->
    list_getitem (DefaultVector.select_data_inds (system_variables self) iset) (-1)
    = inr final ->
    (0 <= first <= final)%Z /\
    forall j, (first <= j <= final)%Z -> nth (Z.to_nat j) row 0%Z = 0%Z.

(** ** Example scenarios *)

(** A root vector with the given buffers. *)
Definition root_vector (d : list ndarray) : Vector :=
  Build_Vector {| _variable_sizes := []; _variable_set_indices := [] |}
    {| _variable_allprocs_range := (0, 0)%Z |} 0%Z d [] None.

(** The memory [m] with the numbers [l] in the cells from [base] on. *)
Definition load (l : list R) (base : nat) (m : memory) : memory :=
  fun c => if (base <=? c) && (c <? base + length l)
           then nth (c - base) l 0%R else m c.

(** *** Transfers between two stores of three elements *)

(** Two stores of one set with three elements each: the input buffer in
    cells 0..2, the output buffer in cells 3..5. *)
Definition ex_ip : Vector := root_vector [{| ptr := 0; len := 3 |}].

Definition ex_op : Vector := root_vector [{| ptr := 3; len := 3 |}].

(** The input buffer [10, 20, 30] over an all-zero memory. *)
Definition ex_memory : memory := load [10; 20; 30]%R 0 (fun _ => 0%R).

(** The index map of the fan-out scenario: entry [k] reads input element
    [[0,0,1][k]] and addresses output element [[1,2,0][k]]. *)
Definition fan_out : DefaultTransfer.t :=
  {| DefaultTransfer._ip_inds := [((0, 0)%Z, [0; 0; 1]%Z)];
     DefaultTransfer._op_inds := [((0, 0)%Z, [1; 2; 0]%Z)] |}.

(** The same with colliding output indices [[1,1,0]]. *)
Definition collide : DefaultTransfer.t :=
  {| DefaultTransfer._ip_inds := [((0, 0)%Z, [0; 0; 1]%Z)];
     DefaultTransfer._op_inds := [((0, 0)%Z, [1; 1; 0]%Z)] |}.

(** The colliding scenario with the two index arrays in the other roles:
    [[1,1,0]] indexes the input buffer and [[0,0,1]] the output buffer. *)
Definition collide_swapped : DefaultTransfer.t :=
  {| DefaultTransfer._ip_inds := [((0, 0)%Z, [1; 1; 0]%Z)];
     DefaultTransfer._op_inds := [((0, 0)%Z, [0; 0; 1]%Z)] |}.

(** A one-to-one map: input element [k] corresponds to output element
    [[1,2,0][k]]. *)
Definition rotate : DefaultTransfer.t :=
  {| DefaultTransfer._ip_inds := [((0, 0)%Z, [0; 1; 2]%Z)];
     DefaultTransfer._op_inds := [((0, 0)%Z, [1; 2; 0]%Z)] |}.

(** The cell pairs these index maps denote on [ex_ip] and [ex_op]. *)
Definition fan_out_cells : list (nat * nat) := [(0, 4); (0, 5); (1, 3)].

Definition collide_cells : list (nat * nat) := [(0, 4); (0, 4); (1, 3)].

Definition collide_swapped_cells : list (nat * nat) := [(1, 3); (1, 3); (0, 4)].

Definition rotate_cells : list (nat * nat) := [(0, 4); (1, 5); (2, 3)].

(** Two stores of two sets each; only set 0 is named by the maps above. *)
Definition two_ip : Vector :=
  root_vector [{| ptr := 0; len := 3 |}; {| ptr := 6; len := 2 |}].

Definition two_op : Vector :=
  root_vector [{| ptr := 3; len := 3 |}; {| ptr := 8; len := 1 |}].

(** *** A one-to-one transfer between two stores of one element *)

Definition one_to_one : DefaultTransfer.t :=
  {| DefaultTransfer._ip_inds := [((0, 0)%Z, [0]%Z)];
     DefaultTransfer._op_inds := [((0, 0)%Z, [0]%Z)] |}.

Definition one_ip : Vector := root_vector [{| ptr := 0; len := 1 |}].

Definition one_op : Vector := root_vector [{| ptr := 1; len := 1 |}].

(** Input element 5 in cell 0, output element 1 in cell 1. *)
Definition one_memory : memory := load [5; 1]%R 0 (fun _ => 0%R).

(** *** Two stores with the same set structure *)

(** A memory in which the first store holds [2, 7 | 1] and the second
    [3, 1 | 4]. *)
Definition pair_self : Vector :=
  root_vector [{| ptr := 0; len := 2 |}; {| ptr := 2; len := 1 |}].

Definition pair_other : Vector :=
  root_vector [{| ptr := 3; len := 2 |}; {| ptr := 5; len := 1 |}].

Definition pair_memory : memory := load [2; 7; 1; 3; 1; 4]%R 0 (fun _ => 0%R).

(** *** A parent store and a store extracted from it *)

(** A parent store owning cells 0..2 with the views [x] and [y], and a
    child store whose only buffer aliases the parent's. *)
Definition parent_store : Vector :=
  Build_Vector {| _variable_sizes := []; _variable_set_indices := [] |}
    {| _variable_allprocs_range := (0, 0)%Z |} 0%Z
    [{| ptr := 0; len := 3 |}]
    [("x"%string, {| ptr := 0; len := 2 |}); ("y"%string, {| ptr := 2; len := 1 |})]
    None.

Definition child_store : Vector :=
  Build_Vector {| _variable_sizes := []; _variable_set_indices := [] |}
    {| _variable_allprocs_range := (0, 0)%Z |} 0%Z
    [{| ptr := 0; len := 3 |}] [] (Some parent_store).

Definition parent_heap : heap := {| mem := ex_memory; brk := 3 |}.

(** *** Two sets on two processes *)

(** Set 0 holds the variables 0 and 1, of sizes 2 and 1 on process 0 and of
    size 0 on process 1; set 1 holds one variable, outside the range [0:2]
    of the system. *)
Definition split_assembler : Assembler :=
  {| _variable_sizes := [[[2; 1]; [0; 0]]; [[1]; [0]]]%Z;
     _variable_set_indices := [(0, 0); (0, 1); (1, 0)]%Z |}.

Definition split_system : System := {| _variable_allprocs_range := (0, 2)%Z |}.

Definition split_global : Vector :=
  Build_Vector split_assembler split_system 1%Z
    [{| ptr := 0; len := 0 |}; {| ptr := 0; len := 0 |}] [] None.

(** The vector of process 1 before its data is initialised. *)
Definition split_local : Vector :=
  Build_Vector split_assembler split_system 1%Z [] [] (Some split_global).

Definition empty_heap : heap := {| mem := fun _ => 0%R; brk := 0 |}.

(** ** Vocabulary for the remaining operations *)

Definition inside (a : ndarray) (c : nat) : bool :=
  (ptr a <=? c) && (c <? ptr a + len a).

(** The lengths NumPy accepts in an operation between the buffers of two
    stores: in every set the other buffer is as long as the target, or has
    one element (which is then used for every element of the target). *)
Definition broadcast_layout (d1 d2 : list ndarray) : Prop :=
  forall iset a, nth_error d1 iset = Some a ->
                 exists b, nth_error d2 iset = Some b /\
                           (len b = len a \/ len b = 1).

(** The element of [b] that meets element [j] of [a]. *)
Definition partner (a b : ndarray) (j : nat) : nat :=
  if len b =? len a then j else 0.

(** *** Examples *)

(** A store whose buffers have one element each, in the cells 3 and 5 of
    [pair_memory] (the numbers 3 and 4). *)
Definition single_other : Vector :=
  root_vector [{| ptr := 3; len := 1 |}; {| ptr := 5; len := 1 |}].

(** A store with one set fewer than [pair_self]. *)
Definition short_other : Vector := root_vector [{| ptr := 3; len := 2 |}].

(** What [_create_data] needs of a sizing array: a row for this process
    whose sizes add up to a length. *)
Definition sized_for (self : Vector) (sizes : list (list Z)) : Prop :=
  exists row, list_getitem sizes (_iproc self) = inr row /\ (0 <= np_sumZ row)%Z.

(** Two heaps with the same cells and the same allocation pointer. *)
Definition same_heap (h1 h2 : heap) : Prop :=
  brk h1 = brk h2 /\ forall c, mem h1 c = mem h2 c.

(** The vector of process 0 of the two-process example before its data is
    initialised: a root vector. *)
Definition split_root : Vector :=
  Build_Vector split_assembler split_system 0%Z [] [] None.

(** An assembler whose second sizing array has a single row. *)
Definition ragged_assembler : Assembler :=
  {| _variable_sizes := [[[2; 1]; [0; 0]]; [[1]]]%Z;
     _variable_set_indices := [(0, 0); (0, 1); (1, 0)]%Z |}.

Definition ragged_root : Vector :=
  Build_Vector ragged_assembler split_system 1%Z [] [] None.

(** The placement of the system's variables of set [iset] on this process
    is regular: the system has variables [first .. final] in the set, the
    sizes of this process (the row [row]) are not negative, and the global
    buffer [g] of the set holds at least the variables up to [final]. *)
Definition regular_set (self : Vector) (iset : nat) (first final : Z)
    (row : list Z) (g : ndarray) : Prop :=
  exists rest sizes_array,
    DefaultVector.select_data_inds (system_variables self) iset = first :: rest /\
    list_getitem (first :: rest) (-1) = inr final /\
    nth_error (_variable_sizes (_assembler self)) iset = Some sizes_array /\
    list_getitem sizes_array (_iproc self) = inr row /\
    nth_error (_data (global_vector self)) iset = Some g /\
    (0 <= first <= final)%Z /\
    Forall (fun s => 0 <= s)%Z row /\
    (np_sumZ (firstn (Z.to_nat (final + 1)) row) <= Z.of_nat (len g))%Z.

(** Process 0 of the two-process example with a global vector that holds
    the buffers [cells 0..2] and [cell 3]; the system covers the variable 1
    of set 0 and the variable of set 1. *)
Definition tail_system : System := {| _variable_allprocs_range := (1, 3)%Z |}.

Definition tail_global : Vector :=
  Build_Vector split_assembler tail_system 0%Z
    [{| ptr := 0; len := 3 |}; {| ptr := 3; len := 1 |}] [] None.

Definition tail_local : Vector :=
  Build_Vector split_assembler tail_system 0%Z [] [] (Some tail_global).

(** A store whose two buffers overlap in cell 1, all in allocated cells. *)
Definition overlapping_store : Vector :=
  root_vector [{| ptr := 0; len := 2 |}; {| ptr := 1; len := 2 |}].

(** A transfer whose only key has index arrays but no entry in
    [_op_inds]. *)
Definition no_op_entry : DefaultTransfer.t :=
  {| DefaultTransfer._ip_inds := [((0, 0)%Z, [0; 1]%Z)];
     DefaultTransfer._op_inds := [] |}.

(** A transfer whose keys all have empty index arrays; the key [(7, 9)]
    names sets that no store of the examples has. *)
Definition all_empty : DefaultTransfer.t :=
  {| DefaultTransfer._ip_inds := [((0, 0)%Z, []); ((7, 9)%Z, [])];
     DefaultTransfer._op_inds := [] |}.

(** A transfer with the input index 3, which a buffer of three elements
    does not have. *)
Definition beyond : DefaultTransfer.t :=
  {| DefaultTransfer._ip_inds := [((0, 0)%Z, [0; 3]%Z)];
     DefaultTransfer._op_inds := [((0, 0)%Z, [1; 2]%Z)] |}.

(** The entries of [fan_out] in another order. *)
Definition fan_out_reordered : DefaultTransfer.t :=
  {| DefaultTransfer._ip_inds := [((0, 0)%Z, [1; 0; 0]%Z)];
     DefaultTransfer._op_inds := [((0, 0)%Z, [0; 2; 1]%Z)] |}.

Definition fan_out_reordered_cells : list (nat * nat) := [(1, 3); (0, 5); (0, 4)].

(** A transfer whose key and index arrays use negative indices. *)
Definition wrap_around : DefaultTransfer.t :=
  {| DefaultTransfer._ip_inds := [((0, -1)%Z, [-1; 0]%Z)];
     DefaultTransfer._op_inds := [((0, -1)%Z, [0; -3]%Z)] |}.

(** *** Views *)

(** The number of elements of an array of the given shape. *)
Definition size_of_shape (shp : list nat) : nat := fold_right Nat.mul 1 shp.

(** What [_initialize_views] looks up for the variable at position [ind] of
    the names of this process: its placement [(iset, ivar)], the sizes [row]
    of this process in the set, the global buffer [g] of the set, and its
    declared shape and value. *)
Definition variable_at (self : Vector) (sv : SystemVariables) (ind : nat)
    (iset ivar : Z) (row : list Z) (g : ndarray) (shape : list Z)
    (val : py_value) : Prop :=
  exists ivar_all sizes md,
    list_getitem (_variable_myproc_indices sv) (Z.of_nat ind) = inr ivar_all /\
    list_getitem (_variable_set_indices (_assembler self)) ivar_all
    = inr (iset, ivar) /\
    list_getitem (_variable_sizes (_assembler self)) iset = inr sizes /\
    list_getitem sizes (_iproc self) = inr row /\
    list_getitem (_data (global_vector self)) iset = inr g /\
    list_getitem (_variable_myproc_metadata sv) (Z.of_nat ind) = inr md /\
    meta_shape md = Some shape /\ meta_value md = Some val.

(** The window of the variable [ivar] in the buffer [g] of its set. *)
Definition window_of (row : list Z) (g : ndarray) (ivar : Z) : ndarray :=
  slice g (np_sumZ (py_slice row 0 ivar)) (np_sumZ (py_slice row 0 (ivar + 1))).

(** The sizes of a set fit its buffer: none is negative and together they
    are the length of the buffer. *)
Definition sizes_fit (row : list Z) (g : ndarray) : Prop :=
  Forall (fun s => 0 <= s)%Z row /\ np_sumZ row = Z.of_nat (len g).

(** The variables of process 0 of the two-process example: [x] and [y] in
    set 0, of sizes 2 and 1, and [z] in set 1, of size 1.  [x] is an array
    of shape [(2,)] given as [(-1,)], [y] a number, [z] something else. *)
Definition split_variables : SystemVariables :=
  {| _variable_myproc_names := ["x"; "y"; "z"]%string;
     _variable_myproc_indices := [0; 1; 2]%Z;
     _variable_myproc_metadata :=
       [{| meta_shape := Some [-1]%Z; meta_value := Some ArrayValue |};
        {| meta_shape := Some [1]%Z; meta_value := Some RealValue |};
        {| meta_shape := Some [1; 1]%Z; meta_value := Some OtherValue |}] |}.

Definition split_global0 : Vector :=
  Build_Vector split_assembler split_system 0%Z
    [{| ptr := 0; len := 3 |}; {| ptr := 3; len := 1 |}] [] None.


(** The same variables with no ['value'] in the metadata of [y]. *)
Definition valueless_variables : SystemVariables :=
  {| _variable_myproc_names := ["x"; "y"; "z"]%string;
     _variable_myproc_indices := [0; 1; 2]%Z;
     _variable_myproc_metadata :=
       [{| meta_shape := Some [2]%Z; meta_value := Some ArrayValue |};
        {| meta_shape := Some [1]%Z; meta_value := None |};
        {| meta_shape := Some [1; 1]%Z; meta_value := Some OtherValue |}] |}.

(** ** get_norm in float64 arithmetic

    The cells of [memory] hold real numbers, which are added and multiplied
    without rounding.  [get_norm] adds up many squares, so float64 rounding
    and overflow reach its result; here it is again over binary64 numbers
    (the kernel's [float]: IEEE 754, round to nearest, ties to even),
    applied to the values held by the buffers of [self._data]. *)
Module Float64.

(** [numpy.sum] of a float64 array of fewer than eight elements: NumPy adds
    them from left to right, starting from 0.  (Longer arrays are added in
    blocks of eight partial sums, an order this definition does not
    follow.) *)
Definition np_sum (l : list float) : float := fold_left PrimFloat.add l 0%float.

(** Lines 164-167.  [data**2] multiplies each element by itself.  The power
    [global_sum ** 0.5] is taken as the correctly rounded square root; a
    power function of the C library returns the same float64 wherever the
    root is a float64 or lies within a small fraction of the spacing of
    one, as it does in the examples below. *)
Definition get_norm (_data : list (list float)) : float :=
  let global_sum :=
    fold_left (fun s data => (s + np_sum (map (fun x => x * x) data))%float)
      _data 0%float in
  PrimFloat.sqrt global_sum.






End Float64.

(** ** Further vocabulary *)

(** The input buffer [10, 20, 30] and the output buffer [1, 2, 3] of [ex_ip]
    and [ex_op]. *)
Definition round_trip_memory : memory :=
  load [10; 20; 30; 1; 2; 3]%R 0 (fun _ => 0%R).

(** The sizes of this process in a sizing array add up within the int64
    range, so that [numpy.sum], which wraps around beyond it, gives their
    sum. *)
Definition sum_fits (self : Vector) (sizes : list (list Z)) : Prop :=
  forall row, list_getitem sizes (_iproc self) = inr row ->
              (- 2 ^ 63 <= np_sumZ row < 2 ^ 63)%Z.

(** What makes [_create_data] fail on a sizing array: no row for this
    process, or a row whose sizes add up to a negative number (one that
    int64 holds, so that the sum is the one NumPy computes). *)
Definition unallocatable (self : Vector) (sizes : list (list Z)) : Prop :=
  (exists e, list_getitem sizes (_iproc self) = inl e) \/
  (exists row, list_getitem sizes (_iproc self) = inr row /\
               (- 2 ^ 63 <= np_sumZ row < 0)%Z).

(** An assembler whose only sizing array adds up to -1 for process 0. *)
Definition negative_assembler : Assembler :=
  {| _variable_sizes := [[[2; -3]]]%Z;
     _variable_set_indices := [(0, 0); (0, 1)]%Z |}.

Definition negative_root : Vector :=
  Build_Vector negative_assembler split_system 0%Z [] [] None.

(** * Proofs *)

(** ** The error monad and Python sequences *)

Lemma bind_inr {A B : Type} (r : result A) (k : A -> result B) (b : B) :
  bind r k = inr b -> exists a, r = inr a /\ k a = inr b.
Proof.
  destruct r as [e | a]; simpl; intros H; [discriminate | eauto].
Qed.

Ltac inv_bind H :=
  let x := fresh "x" in
  let E := fresh "E" in
  apply bind_inr in H; destruct H as (x & E & H).

Lemma mapM_length {A B : Type} (f : A -> result B) (l : list A) (l' : list B) :
  mapM f l = inr l' -> length l' = length l.
Proof.
  revert l'; induction l as [| x xs IH]; simpl; intros l' H.
  - inversion H; reflexivity.
  - inv_bind H. inv_bind H. inversion H; subst; simpl.
    f_equal; eauto.
Qed.

Lemma mapM_In {A B : Type} (f : A -> result B) (l : list A) (l' : list B) (y : B) :
  mapM f l = inr l' -> In y l' -> exists x, In x l /\ f x = inr y.
Proof.
  revert l'; induction l as [| x xs IH]; simpl; intros l' H Hy.
  - inversion H; subst; contradiction.
  - inv_bind H. inv_bind H. inversion H; subst.
    destruct Hy as [-> | Hy]; [eauto |].
    destruct (IH _ E0 Hy) as (x' & ? & ?); eauto.
Qed.

Lemma py_index_lt (n : nat) (i : Z) (j : nat) :
  py_index n i = inr j -> j < n.
Proof.
  unfold py_index.
  destruct ((0 <=? i)%Z && (i <? Z.of_nat n)%Z) eqn:E1.
  - intros H; inversion H; subst. apply andb_true_iff in E1. lia.
  - destruct ((- Z.of_nat n <=? i)%Z && (i <? 0)%Z) eqn:E2; [| discriminate].
    intros H; inversion H; subst. apply andb_true_iff in E2. lia.
Qed.

Lemma py_index_nonneg (n : nat) (j : nat) :
  j < n -> py_index n (Z.of_nat j) = inr j.
Proof.
  intros H; unfold py_index.
  replace ((0 <=? Z.of_nat j)%Z && (Z.of_nat j <? Z.of_nat n)%Z) with true.
  - unfold ret; f_equal; lia.
  - symmetry; apply andb_true_iff; lia.
Qed.

Lemma list_getitem_nth {A : Type} (l : list A) (i : Z) (x : A) :
  list_getitem l i = inr x ->
  exists j, py_index (length l) i = inr j /\ nth_error l j = Some x.
Proof.
  unfold list_getitem; intros H. inv_bind H.
  destruct (nth_error l x0) eqn:E'; [| discriminate].
  inversion H; subst; eauto.
Qed.

Lemma list_getitem_In {A : Type} (l : list A) (i : Z) (x : A) :
  list_getitem l i = inr x -> In x l.
Proof.
  intros H; apply list_getitem_nth in H; destruct H as (j & _ & H).
  eapply nth_error_In; eauto.
Qed.

Lemma list_getitem_pos {A : Type} (l : list A) (j : nat) (x : A) :
  nth_error l j = Some x -> list_getitem l (Z.of_nat j) = inr x.
Proof.
  intros H; unfold list_getitem.
  rewrite py_index_nonneg by (apply nth_error_Some; congruence).
  simpl; rewrite H; reflexivity.
Qed.

(** ** Cells *)

Lemma store_eq (m : memory) (c : nat) (x : R) : store m c x c = x.
Proof. unfold store; rewrite Nat.eqb_refl; reflexivity. Qed.

Lemma store_neq (m : memory) (c c' : nat) (x : R) :
  c' <> c -> store m c x c' = m c'.
Proof.
  intros H; unfold store.
  destruct (Nat.eqb_spec c' c); [contradiction | reflexivity].
Qed.

Lemma cell_in_array (a : ndarray) (j : nat) : j < len a -> in_array a (cell a j).
Proof. unfold in_array, cell; lia. Qed.

Lemma disjointb_sound (a b : ndarray) : disjointb a b = true -> disjoint a b.
Proof.
  unfold disjointb, disjoint, in_array; intros H c Ha Hb.
  repeat rewrite orb_true_iff in H.
  rewrite !Nat.eqb_eq, !Nat.leb_le in H. lia.
Qed.

Lemma stores_apartb_sound (ipd opd : list ndarray) :
  stores_apartb ipd opd = true -> stores_apart ipd opd.
Proof.
  unfold stores_apartb, stores_apart; intros H a b Ha Hb.
  rewrite forallb_forall in H. specialize (H a Ha).
  rewrite forallb_forall in H. apply disjointb_sound; auto.
Qed.

Lemma disjoint_sym (a b : ndarray) : disjoint a b -> disjoint b a.
Proof. unfold disjoint; eauto. Qed.

Lemma buffers_apartb_sound (d : list ndarray) :
  buffers_apartb d = true -> buffers_apart d.
Proof.
  unfold buffers_apart; induction d as [| x rest IH]; simpl; intros H i j a b Hi Hj Hne.
  - destruct i; discriminate.
  - apply andb_true_iff in H; destruct H as [H1 H2].
    rewrite forallb_forall in H1.
    destruct i as [| i], j as [| j]; simpl in *.
    + contradiction.
    + inversion Hi; subst. apply disjointb_sound, H1.
      eapply nth_error_In; eauto.
    + inversion Hj; subst. apply disjoint_sym, disjointb_sound, H1.
      eapply nth_error_In; eauto.
    + eapply IH; eauto.
Qed.

Lemma apartb_sound (ms : list (nat * nat)) : apartb ms = true -> apart ms.
Proof.
  unfold apartb, apart; intros H i o Hi Ho ->.
  rewrite forallb_forall in H. specialize (H o Hi).
  apply negb_true_iff in H.
  assert (existsb (Nat.eqb o) (map snd ms) = true); [| congruence].
  apply existsb_exists; exists o; split; [assumption | apply Nat.eqb_refl].
Qed.

(** The value of a cell after a run of assignments: that of the last
    assignment to it, or its old value. *)
Lemma assign_all_other (ws : list (nat * R)) (m : memory) (c : nat) :
  ~ In c (map fst ws) -> assign_all m ws c = m c.
Proof.
  unfold assign_all; revert m; induction ws as [| [a x] ws IH]; simpl; intros m H.
  - reflexivity.
  - rewrite IH by tauto. apply store_neq; intros ->; tauto.
Qed.

Lemma assign_all_last (pre post : list (nat * R)) (m : memory) (c : nat) (x : R) :
  ~ In c (map fst post) -> assign_all m (pre ++ (c, x) :: post) c = x.
Proof.
  intros H; unfold assign_all.
  rewrite fold_left_app; simpl.
  fold (assign_all (store (fold_left (fun m' w => store m' (fst w) (snd w)) pre m) c x) post).
  rewrite assign_all_other by assumption. apply store_eq.
Qed.

(** The value of a cell after a run of in-place additions: its old value
    plus every operand addressed to it. *)
Lemma add_all_cell (adds : list (nat * R)) (m : memory) (c : nat) :
  add_all m adds c =
  (m c + sum_list (map snd (filter (fun w => fst w =? c) adds)))%R.
Proof.
  unfold add_all; revert m; induction adds as [| [a x] adds IH]; simpl; intros m.
  - lra.
  - rewrite IH. destruct (Nat.eqb_spec a c) as [-> | Hne]; simpl.
    + rewrite store_eq; lra.
    + rewrite store_neq by congruence; reflexivity.
Qed.

(** ** One key of a transfer *)

Lemma combine_map_r {A B C : Type} (g : B -> C) (l1 : list A) (l2 : list B) :
  combine l1 (map g l2) = map (fun p => (fst p, g (snd p))) (combine l1 l2).
Proof.
  revert l2; induction l1 as [| a l1 IH]; intros [| b l2]; simpl; try reflexivity.
  f_equal; apply IH.
Qed.

Lemma combine_map_swap {A B C : Type} (g : A -> C) (l1 : list A) (l2 : list B) :
  length l1 = length l2 ->
  combine l2 (map g l1) = map (fun p => (snd p, g (fst p))) (combine l1 l2).
Proof.
  revert l2; induction l1 as [| a l1 IH]; intros [| b l2]; simpl; intros H;
    try reflexivity; try discriminate.
  f_equal; apply IH; lia.
Qed.

Lemma broadcast_to_same (n : nat) (vals : list R) :
  length vals = n -> broadcast_to n vals = inr vals.
Proof. intros H; unfold broadcast_to; rewrite H, Nat.eqb_refl; reflexivity. Qed.

Section OneKey.

Variable self : DefaultTransfer.t.
Variables ip_vec op_vec : Vector.

Let ipd := _data (global_vector ip_vec).
Let opd := _data (global_vector op_vec).

Lemma fwd_body_cells (m : memory) (key : Z * Z) (cs : list (nat * nat)) :
  pair_cells self ipd opd key = inr cs ->
  DefaultTransfer.fwd_body self ip_vec op_vec m key = inr (assign_all m (fwd_writes m cs)).
Proof.
  unfold pair_cells, DefaultTransfer.fwd_body; destruct key as [ip_iset op_iset].
  intros H. inv_bind H. rewrite E; simpl.
  destruct (0 <? length x) eqn:Hlen.
  - inv_bind H. inv_bind H. inv_bind H. inv_bind H. inv_bind H.
    destruct (length x3 =? length x4) eqn:Hl; [| discriminate].
    apply Nat.eqb_eq in Hl. inversion H; subst; clear H.
    simpl in E1, E2. fold opd ipd. rewrite E0; simpl. rewrite E2; simpl.
    unfold take. rewrite E4; simpl. rewrite E1; simpl.
    unfold put. rewrite E3; simpl.
    rewrite broadcast_to_same.
    + simpl; unfold ret, fwd_writes; do 2 f_equal.
      rewrite <- (map_map (cell x2) m), combine_map_r; reflexivity.
    + rewrite length_map. apply mapM_length in E3. lia.
  - inversion H; subst; reflexivity.
Qed.

Lemma rev_body_cells (m : memory) (key : Z * Z) (cs : list (nat * nat)) :
  pair_cells self ipd opd key = inr cs ->
  DefaultTransfer.rev_body self ip_vec op_vec m key = inr (add_all m (rev_adds m cs)).
Proof.
  unfold pair_cells, DefaultTransfer.rev_body; destruct key as [ip_iset op_iset].
  intros H. inv_bind H. rewrite E; simpl.
  destruct (0 <? length x) eqn:Hlen.
  - inv_bind H. inv_bind H. inv_bind H. inv_bind H. inv_bind H.
    destruct (length x3 =? length x4) eqn:Hl; [| discriminate].
    apply Nat.eqb_eq in Hl. inversion H; subst; clear H.
    simpl in E1, E2. fold opd ipd. rewrite E0; simpl. rewrite E1; simpl.
    unfold take. rewrite E3; simpl. rewrite E2; simpl.
    unfold add_at. rewrite E4; simpl.
    rewrite broadcast_to_same.
    + simpl; unfold ret, rev_adds; do 2 f_equal.
      rewrite <- (map_map (cell x1) m), combine_map_swap
        by (rewrite !length_map; assumption).
      reflexivity.
    + rewrite length_map. apply mapM_length in E4. lia.
  - inversion H; subst; reflexivity.
Qed.

End OneKey.

(** ** The loops of a transfer *)

Lemma cells_of_cons (self : DefaultTransfer.t) (ipd opd : list ndarray)
    (k : Z * Z) (ks : list (Z * Z)) (ms : list (nat * nat)) :
  cells_of self ipd opd (k :: ks) = inr ms ->
  exists cs ms', pair_cells self ipd opd k = inr cs /\
                 cells_of self ipd opd ks = inr ms' /\ ms = cs ++ ms'.
Proof.
  unfold cells_of; simpl; intros H.
  inv_bind H. inv_bind E. inv_bind E. inversion E; subst; clear E.
  inversion H; subst; clear H.
  exists x0, (concat x1); rewrite E1; simpl; auto.
Qed.

Lemma apart_app_l (cs ms : list (nat * nat)) : apart (cs ++ ms) -> apart cs.
Proof.
  unfold apart; intros H i o Hi Ho; apply H; rewrite map_app, in_app_iff; auto.
Qed.

Lemma apart_app_r (cs ms : list (nat * nat)) : apart (cs ++ ms) -> apart ms.
Proof.
  unfold apart; intros H i o Hi Ho; apply H; rewrite map_app, in_app_iff; auto.
Qed.

Lemma sum_list_app (l1 l2 : list R) :
  sum_list (l1 ++ l2) = (sum_list l1 + sum_list l2)%R.
Proof. induction l1 as [| x l1 IH]; simpl; [lra | rewrite IH; lra]. Qed.

Lemma contributions_app (cs ms : list (nat * nat)) (m : memory) (c : nat) :
  contributions (cs ++ ms) m c = (contributions cs m c + contributions ms m c)%R.
Proof.
  unfold contributions; rewrite filter_app, map_app; apply sum_list_app.
Qed.

Lemma contributions_ext (ms : list (nat * nat)) (m1 m2 : memory) (c : nat) :
  (forall i, In i (map fst ms) -> m1 i = m2 i) ->
  contributions ms m1 c = contributions ms m2 c.
Proof.
  intros H; unfold contributions; f_equal.
  apply map_ext_in; intros [i o] Hin. apply filter_In in Hin.
  apply H, in_map_iff; exists (i, o); tauto.
Qed.

Lemma rev_adds_sum (cs : list (nat * nat)) (m : memory) (c : nat) :
  sum_list (map snd (filter (fun w => fst w =? c) (rev_adds m cs))) =
  contributions cs m c.
Proof.
  unfold contributions, rev_adds.
  induction cs as [| [i o] cs IH]; simpl; [reflexivity |].
  destruct (o =? c); simpl; rewrite IH; reflexivity.
Qed.

Lemma fwd_writes_ext (ms : list (nat * nat)) (m1 m2 : memory) :
  (forall o, In o (map snd ms) -> m1 o = m2 o) ->
  fwd_writes m1 ms = fwd_writes m2 ms.
Proof.
  intros H; unfold fwd_writes; apply map_ext_in; intros [i o] Hin.
  simpl; f_equal. apply H, in_map_iff; exists (i, o); auto.
Qed.

Lemma fwd_writes_app (m : memory) (cs ms : list (nat * nat)) :
  fwd_writes m (cs ++ ms) = fwd_writes m cs ++ fwd_writes m ms.
Proof. unfold fwd_writes; apply map_app. Qed.

Lemma assign_all_app (m : memory) (ws1 ws2 : list (nat * R)) :
  assign_all m (ws1 ++ ws2) = assign_all (assign_all m ws1) ws2.
Proof. unfold assign_all; apply fold_left_app. Qed.

Lemma fwd_writes_targets (m : memory) (ms : list (nat * nat)) :
  map fst (fwd_writes m ms) = map fst ms.
Proof. unfold fwd_writes; rewrite map_map; reflexivity. Qed.

Lemma rev_adds_targets (m : memory) (ms : list (nat * nat)) :
  map fst (rev_adds m ms) = map snd ms.
Proof. unfold rev_adds; rewrite map_map; reflexivity. Qed.

Lemma add_all_other (adds : list (nat * R)) (m : memory) (c : nat) :
  ~ In c (map fst adds) -> add_all m adds c = m c.
Proof.
  unfold add_all; revert m; induction adds as [| [a x] adds IH]; simpl; intros m H.
  - reflexivity.
  - rewrite IH by tauto. apply store_neq; intros ->; tauto.
Qed.

Section Loops.

Variable self : DefaultTransfer.t.
Variables ip_vec op_vec : Vector.

Let ipd := _data (global_vector ip_vec).
Let opd := _data (global_vector op_vec).

(** Forward mode is the run of assignments of the whole correspondence, each
    value being the one the output store held before the call. *)
Lemma fwd_loop (ks : list (Z * Z)) (m : memory) (ms : list (nat * nat)) :
  cells_of self ipd opd ks = inr ms -> apart ms ->
  exists m', for_each (DefaultTransfer.fwd_body self ip_vec op_vec) ks m = inr m' /\
             forall c, m' c = assign_all m (fwd_writes m ms) c.
Proof.
  revert m ms; induction ks as [| k ks IH]; intros m ms Hc Hap.
  - unfold cells_of in Hc; simpl in Hc; inversion Hc; subst.
    exists m; split; reflexivity.
  - apply cells_of_cons in Hc; destruct Hc as (cs & ms' & Hk & Hks & ->).
    simpl. rewrite (fwd_body_cells self ip_vec op_vec m k cs Hk); simpl.
    destruct (IH (assign_all m (fwd_writes m cs)) ms' Hks (apart_app_r cs ms' Hap))
      as (m' & Hrun & Hm').
    exists m'; split; [exact Hrun |].
    intros c; rewrite Hm'.
    rewrite (fwd_writes_ext ms' (assign_all m (fwd_writes m cs)) m).
    + rewrite fwd_writes_app, assign_all_app; reflexivity.
    + intros o Ho. apply assign_all_other. rewrite fwd_writes_targets.
      intros Hi. apply (Hap o o); [| | reflexivity];
        rewrite map_app, in_app_iff; auto.
Qed.

(** Reverse mode adds to every cell the values the correspondence sends to
    it, each being the one the input store held before the call. *)
Lemma rev_loop (ks : list (Z * Z)) (m : memory) (ms : list (nat * nat)) :
  cells_of self ipd opd ks = inr ms -> apart ms ->
  exists m', for_each (DefaultTransfer.rev_body self ip_vec op_vec) ks m = inr m' /\
             forall c, m' c = (m c + contributions ms m c)%R.
Proof.
  revert m ms; induction ks as [| k ks IH]; intros m ms Hc Hap.
  - unfold cells_of in Hc; simpl in Hc; inversion Hc; subst.
    exists m; split; [reflexivity |].
    intros c; unfold contributions; simpl; lra.
  - apply cells_of_cons in Hc; destruct Hc as (cs & ms' & Hk & Hks & ->).
    simpl. rewrite (rev_body_cells self ip_vec op_vec m k cs Hk); simpl.
    destruct (IH (add_all m (rev_adds m cs)) ms' Hks (apart_app_r cs ms' Hap))
      as (m' & Hrun & Hm').
    exists m'; split; [exact Hrun |].
    intros c; rewrite Hm', contributions_app.
    rewrite (contributions_ext ms' (add_all m (rev_adds m cs)) m).
    + rewrite add_all_cell, rev_adds_sum; lra.
    + intros i Hi. apply add_all_other. rewrite rev_adds_targets.
      intros Ho. apply (Hap i i); [| | reflexivity];
        rewrite map_app, in_app_iff; auto.
Qed.

End Loops.

(** ** Reading a correspondence *)

Lemma mapM_inr_In {A B : Type} (f : A -> result B) (l : list A) (l' : list B) (x : A) :
  mapM f l = inr l' -> In x l -> exists y, f x = inr y /\ In y l'.
Proof.
  revert l'; induction l as [| a l IH]; simpl; intros l' H Hx; [contradiction |].
  inv_bind H. inv_bind H. inversion H; subst; clear H.
  destruct Hx as [-> | Hx].
  - exists x0; simpl; auto.
  - destruct (IH _ E0 Hx) as (y & ? & ?); exists y; simpl; auto.
Qed.

Lemma cells_of_incl (self : DefaultTransfer.t) (ipd opd : list ndarray)
    (ks : list (Z * Z)) (ms : list (nat * nat)) (key : Z * Z) :
  cells_of self ipd opd ks = inr ms -> In key ks ->
  exists cs, pair_cells self ipd opd key = inr cs /\ incl cs ms.
Proof.
  unfold cells_of; intros H Hk. inv_bind H. inversion H; subst; clear H.
  destruct (mapM_inr_In _ _ _ key E Hk) as (cs & Hcs & Hin).
  exists cs; split; [assumption |].
  intros p Hp. apply in_concat; eauto.
Qed.

Lemma cells_of_origin (self : DefaultTransfer.t) (ipd opd : list ndarray)
    (ks : list (Z * Z)) (ms : list (nat * nat)) (p : nat * nat) :
  cells_of self ipd opd ks = inr ms -> In p ms ->
  exists key cs, In key ks /\ pair_cells self ipd opd key = inr cs /\ In p cs.
Proof.
  unfold cells_of; intros H Hp. inv_bind H. inversion H; subst; clear H.
  apply in_concat in Hp; destruct Hp as (cs & Hcs & Hp).
  destruct (mapM_In _ _ _ _ E Hcs) as (key & ? & ?); eauto.
Qed.

(** The cells of a key with a non-empty index array, spelled out. *)
Lemma pair_cells_spelled (self : DefaultTransfer.t) (ipd opd : list ndarray)
    (key : Z * Z) (cs : list (nat * nat)) (ip_inds : list Z) :
  pair_cells self ipd opd key = inr cs ->
  dict_getitem (DefaultTransfer._ip_inds self) key = inr ip_inds ->
  ip_inds <> [] ->
  exists op_inds ip_arr op_arr ips ops,
    dict_getitem (DefaultTransfer._op_inds self) key = inr op_inds /\
    list_getitem ipd (fst key) = inr ip_arr /\
    list_getitem opd (snd key) = inr op_arr /\
    mapM (py_index (len ip_arr)) ip_inds = inr ips /\
    mapM (py_index (len op_arr)) op_inds = inr ops /\
    length ips = length ops /\
    cs = combine (map (cell ip_arr) ips) (map (cell op_arr) ops).
Proof.
  unfold pair_cells; intros H Hip Hne. rewrite Hip in H; simpl in H.
  destruct ip_inds as [| i0 rest]; [contradiction |]. simpl in H.
  inv_bind H. inv_bind H. inv_bind H. inv_bind H. inv_bind H.
  destruct (length x2 =? length x3) eqn:Hl; [| discriminate].
  apply Nat.eqb_eq in Hl. inversion H; subst; clear H.
  exists x, x0, x1, x2, x3; auto 10.
Qed.

(** A key with an empty index array relates nothing. *)
Lemma pair_cells_empty (self : DefaultTransfer.t) (ipd opd : list ndarray)
    (key : Z * Z) (cs : list (nat * nat)) :
  pair_cells self ipd opd key = inr cs ->
  dict_getitem (DefaultTransfer._ip_inds self) key = inr [] -> cs = [].
Proof.
  unfold pair_cells; intros H Hip. rewrite Hip in H; simpl in H.
  inversion H; reflexivity.
Qed.

Lemma map_eq_on_combine {A : Type} (f g : A -> R) (l1 l2 : list A) :
  length l1 = length l2 ->
  (forall x y, In (x, y) (combine l1 l2) -> f x = g y) ->
  map f l1 = map g l2.
Proof.
  revert l2; induction l1 as [| a l1 IH]; intros [| b l2] Hlen H; simpl in *;
    try reflexivity; try discriminate.
  f_equal; [apply H; auto | apply IH; [lia | intros; apply H; auto]].
Qed.

Lemma contributions_none (ms : list (nat * nat)) (m : memory) (c : nat) :
  ~ In c (map snd ms) -> contributions ms m c = 0%R.
Proof.
  unfold contributions; induction ms as [| [i o] ms IH]; simpl; intros H;
    [reflexivity |].
  destruct (Nat.eqb_spec o c) as [-> | Hne]; [tauto |]. apply IH; tauto.
Qed.

Lemma contributions_cons (i o : nat) (ms : list (nat * nat)) (m : memory) (c : nat) :
  contributions ((i, o) :: ms) m c =
  ((if o =? c then m i else 0) + contributions ms m c)%R.
Proof.
  unfold contributions; simpl. destruct (o =? c); simpl; lra.
Qed.

Lemma contributions_single (ms : list (nat * nat)) (m : memory) (i o : nat) :
  NoDup (map snd ms) -> In (i, o) ms -> contributions ms m o = m i.
Proof.
  induction ms as [| [i' o'] ms IH]; simpl; intros Hnd Hin; [contradiction |].
  inversion Hnd as [| ? ? Hnotin Hnd']; subst.
  rewrite contributions_cons. destruct Hin as [Heq | Hin].
  - inversion Heq; subst. rewrite Nat.eqb_refl, contributions_none by assumption. lra.
  - destruct (Nat.eqb_spec o' o) as [-> | Hne].
    + exfalso; apply Hnotin, in_map_iff; exists (i, o); auto.
    + rewrite IH by assumption. lra.
Qed.

Lemma assign_all_fwd_last (m : memory) (pre post : list (nat * nat)) (i o : nat) :
  ~ In i (map fst post) ->
  assign_all m (fwd_writes m (pre ++ (i, o) :: post)) i = m o.
Proof.
  intros H. rewrite fwd_writes_app; simpl.
  apply (assign_all_last (fwd_writes m pre) (fwd_writes m post) m i (m o)).
  rewrite fwd_writes_targets; assumption.
Qed.

Lemma assign_all_fwd_nodup (m : memory) (ms : list (nat * nat)) (i o : nat) :
  NoDup (map fst ms) -> In (i, o) ms ->
  assign_all m (fwd_writes m ms) i = m o.
Proof.
  intros Hnd Hin. apply in_split in Hin; destruct Hin as (pre & post & ->).
  apply assign_all_fwd_last.
  rewrite map_app in Hnd; simpl in Hnd. apply NoDup_remove_2 in Hnd.
  rewrite in_app_iff in Hnd; tauto.
Qed.

Lemma call_fwd (self : DefaultTransfer.t) (ip_vec op_vec : Vector) (m : memory) :
  DefaultTransfer.__call__ self ip_vec op_vec "fwd" m =
  for_each (DefaultTransfer.fwd_body self ip_vec op_vec)
    (keys (DefaultTransfer._ip_inds self)) m.
Proof. reflexivity. Qed.

Lemma call_rev (self : DefaultTransfer.t) (ip_vec op_vec : Vector) (m : memory) :
  DefaultTransfer.__call__ self ip_vec op_vec "rev" m =
  for_each (DefaultTransfer.rev_body self ip_vec op_vec)
    (keys (DefaultTransfer._ip_inds self)) m.
Proof. reflexivity. Qed.

(** A transfer that meets its contract resolves to a correspondence. *)
Lemma py_index_in_range (n : nat) (i : Z) :
  in_range n i -> exists j, py_index n i = inr j.
Proof.
  unfold in_range, py_index; intros H.
  destruct ((0 <=? i)%Z && (i <? Z.of_nat n)%Z) eqn:E1; [eauto |].
  destruct ((- Z.of_nat n <=? i)%Z && (i <? 0)%Z) eqn:E2; [eauto |].
  apply andb_false_iff in E1, E2. exfalso.
  rewrite Z.leb_gt, Z.ltb_ge in E1, E2. lia.
Qed.

Lemma mapM_total {A B : Type} (f : A -> result B) (l : list A) :
  Forall (fun x => exists y, f x = inr y) l -> exists l', mapM f l = inr l'.
Proof.
  induction 1 as [| x l (y & Hy) _ (l' & Hl')]; simpl.
  - eexists; reflexivity.
  - rewrite Hy, Hl'; simpl. eexists; reflexivity.
Qed.

Lemma correspondences_resolve (self : DefaultTransfer.t) (ip_vec op_vec : Vector) :
  (forall key, In key (keys (DefaultTransfer._ip_inds self)) ->
               key_well_formed self (_data (global_vector ip_vec))
                 (_data (global_vector op_vec)) key) ->
  exists ms, correspondences self ip_vec op_vec = inr ms.
Proof.
  intros Hwf. unfold correspondences, cells_of.
  destruct (mapM_total
              (pair_cells self (_data (global_vector ip_vec))
                 (_data (global_vector op_vec)))
              (keys (DefaultTransfer._ip_inds self))) as (css & Hcss).
  - apply Forall_forall; intros key Hkey.
    destruct (Hwf key Hkey) as (ip_inds & Hip & Hcase).
    unfold pair_cells. rewrite Hip; simpl.
    destruct Hcase as [-> | (op_inds & ip_arr & op_arr & Hop & Hia & Hoa & Hlen & Hri & Hro)];
      [eexists; reflexivity |].
    destruct ip_inds as [| i0 rest]; [eexists; reflexivity |].
    change (0 <? length (i0 :: rest)) with true; cbv iota.
    rewrite Hop, Hia, Hoa; cbn [bind].
    destruct (mapM_total (py_index (len ip_arr)) (i0 :: rest)) as (ips & Hips).
    { eapply Forall_impl; [| exact Hri]. intros i; apply py_index_in_range. }
    destruct (mapM_total (py_index (len op_arr)) op_inds) as (ops & Hops).
    { eapply Forall_impl; [| exact Hro]. intros i; apply py_index_in_range. }
    rewrite Hips, Hops; cbn [bind].
    apply mapM_length in Hips, Hops.
    replace (length ips =? length ops) with true
      by (symmetry; apply Nat.eqb_eq; congruence).
    eexists; reflexivity.
  - rewrite Hcss; simpl. eexists; reflexivity.
Qed.

(** ** Claims on the transfer *)

(** C1.  Reverse mode, for a transfer whose index arrays resolve to the
    correspondence [ms] between cells of two stores that share none: the call
    returns, and every cell ends as its old value plus the sum of the
    input-store values of all entries that address it.  In particular an
    output cell addressed by two entries receives both values, not only the
    one written last. *)
Theorem rev_transfer_accumulates (self : DefaultTransfer.t)
    (ip_vec op_vec : Vector) (m : memory) (ms : list (nat * nat)) :
  correspondences self ip_vec op_vec = inr ms ->
  apart ms ->
  exists m',
    DefaultTransfer.__call__ self ip_vec op_vec "rev" m = inr m' /\
    (forall c, m' c = (m c + contributions ms m c)%R) /\
    (forall c l1 i1 l2 i2 l3,
        ms = l1 ++ (i1, c) :: l2 ++ (i2, c) :: l3 ->
        ~ In c (map snd (l1 ++ l2 ++ l3)) ->
        m' c = (m c + (m i1 + m i2))%R).
Proof.
  intros Hms Hap. rewrite call_rev.
  destruct (rev_loop self ip_vec op_vec _ m ms Hms Hap) as (m' & Hrun & Hm').
  exists m'; split; [exact Hrun |]. split; [exact Hm' |].
  intros c l1 i1 l2 i2 l3 -> Hno. rewrite Hm'. f_equal.
  rewrite !map_app, !in_app_iff in Hno.
  rewrite contributions_app, contributions_cons, contributions_app,
    contributions_cons, Nat.eqb_refl.
  rewrite !contributions_none by tauto. lra.
Qed.

(** The theorem at the colliding map, where output cell 4 is addressed
    twice. *)
Lemma rev_transfer_accumulates_witness :
  exists m',
    DefaultTransfer.__call__ collide ex_ip ex_op "rev"
      ex_memory = inr m' /\
    (forall c, m' c = (ex_memory c
                       + contributions collide_cells ex_memory c)%R) /\
    (forall c l1 i1 l2 i2 l3,
        collide_cells = l1 ++ (i1, c) :: l2 ++ (i2, c) :: l3 ->
        ~ In c (map snd (l1 ++ l2 ++ l3)) ->
        m' c = (ex_memory c
                + (ex_memory i1
                   + ex_memory i2))%R).
Proof.
  apply (rev_transfer_accumulates collide ex_ip ex_op
           ex_memory collide_cells).
  - reflexivity.
  - apply apartb_sound; reflexivity.
Defined.

(** C2.  Forward mode, under the same conditions: the call returns, and an
    input cell holds the old value of the output cell of the last entry that
    addresses it.  When no input cell is addressed twice, for every key with
    a non-empty index array the input buffer read at its [ip_inds] equals
    the output buffer's old contents at its [op_inds]. *)
Theorem fwd_transfer_overwrites (self : DefaultTransfer.t)
    (ip_vec op_vec : Vector) (m : memory) (ms : list (nat * nat)) :
  correspondences self ip_vec op_vec = inr ms ->
  apart ms ->
  exists m',
    DefaultTransfer.__call__ self ip_vec op_vec "fwd" m = inr m' /\
    (forall pre i o post,
        ms = pre ++ (i, o) :: post -> ~ In i (map fst post) -> m' i = m o) /\
    (NoDup (map fst ms) ->
     forall key ip_inds op_inds ip_arr op_arr,
       In key (keys (DefaultTransfer._ip_inds self)) ->
       dict_getitem (DefaultTransfer._ip_inds self) key = inr ip_inds ->
       ip_inds <> [] ->
       dict_getitem (DefaultTransfer._op_inds self) key = inr op_inds ->
       list_getitem (_data (global_vector ip_vec)) (fst key) = inr ip_arr ->
       list_getitem (_data (global_vector op_vec)) (snd key) = inr op_arr ->
       exists vals,
         take m op_arr op_inds = inr vals /\ take m' ip_arr ip_inds = inr vals).
Proof.
  intros Hms Hap. rewrite call_fwd.
  destruct (fwd_loop self ip_vec op_vec _ m ms Hms Hap) as (m' & Hrun & Hm').
  exists m'; split; [exact Hrun |]. split.
  - intros pre i o post -> Hlast. rewrite Hm'. apply assign_all_fwd_last; assumption.
  - intros Hnd key ip_inds op_inds ip_arr op_arr Hkey Hip Hne Hop Hia Hoa.
    destruct (cells_of_incl _ _ _ _ _ key Hms Hkey) as (cs & Hcs & Hincl).
    destruct (pair_cells_spelled _ _ _ _ _ _ Hcs Hip Hne)
      as (op_inds' & ip_arr' & op_arr' & ips & ops & Hop' & Hia' & Hoa' & Hips & Hops & Hlen & ->).
    assert (op_inds' = op_inds) by congruence.
    assert (ip_arr' = ip_arr) by congruence.
    assert (op_arr' = op_arr) by congruence. subst.
    exists (map (fun j => m (cell op_arr j)) ops). unfold take.
    rewrite Hips, Hops; simpl. split; [reflexivity |]. unfold ret; f_equal.
    rewrite <- (map_map (cell ip_arr) m'), <- (map_map (cell op_arr) m).
    apply map_eq_on_combine; [rewrite !length_map; assumption |].
    intros i o Hio. rewrite Hm'. apply assign_all_fwd_nodup; auto.
Qed.

(** The theorem at the one-to-one map [rotate]. *)
Lemma fwd_transfer_overwrites_witness :
  exists m',
    DefaultTransfer.__call__ rotate ex_ip ex_op "fwd" ex_memory = inr m' /\
    (forall pre i o post,
        rotate_cells = pre ++ (i, o) :: post -> ~ In i (map fst post) ->
        m' i = ex_memory o) /\
    (NoDup (map fst rotate_cells) ->
     forall key ip_inds op_inds ip_arr op_arr,
       In key (keys (DefaultTransfer._ip_inds rotate)) ->
       dict_getitem (DefaultTransfer._ip_inds rotate) key = inr ip_inds ->
       ip_inds <> [] ->
       dict_getitem (DefaultTransfer._op_inds rotate) key = inr op_inds ->
       list_getitem (_data (global_vector ex_ip)) (fst key) = inr ip_arr ->
       list_getitem (_data (global_vector ex_op)) (snd key) = inr op_arr ->
       exists vals,
         take ex_memory op_arr op_inds = inr vals /\ take m' ip_arr ip_inds = inr vals).
Proof.
  apply (fwd_transfer_overwrites rotate ex_ip ex_op ex_memory rotate_cells).
  - reflexivity.
  - apply apartb_sound; reflexivity.
Defined.

(** ** The example scenarios of the specification *)

(** C7 (as amended).  Reverse mode on the input buffer [10, 20, 30]: with
    read indices [0,0,1] and output indices [1,2,0] the output buffer gets
    [out[1] += 10], [out[2] += 10], [out[0] += 20]; with the colliding output
    indices [1,1,0] it gets [out[1] += 10 + 10] (both entries read input
    element 0) and [out[0] += 20], and [out[2]] keeps its value. *)
Theorem rev_example_increments (m0 : memory) :
  (exists m',
      DefaultTransfer.__call__ fan_out ex_ip ex_op "rev"
        (load [10; 20; 30]%R 0 m0) = inr m' /\
      m' 4 = (m0 4%nat + 10)%R /\ m' 5 = (m0 5%nat + 10)%R /\ m' 3 = (m0 3%nat + 20)%R) /\
  (exists m',
      DefaultTransfer.__call__ collide ex_ip ex_op "rev"
        (load [10; 20; 30]%R 0 m0) = inr m' /\
      m' 4 = (m0 4%nat + (10 + 10))%R /\ m' 3 = (m0 3%nat + 20)%R /\ m' 5 = m0 5).
Proof.
  split.
  - destruct (rev_loop fan_out ex_ip ex_op [(0, 0)%Z] (load [10; 20; 30]%R 0 m0)
                fan_out_cells eq_refl) as (m' & Hrun & Hm').
    + apply apartb_sound; reflexivity.
    + exists m'; split; [exact Hrun |].
      rewrite !Hm'. unfold contributions, load; simpl. repeat split; lra.
  - destruct (rev_loop collide ex_ip ex_op [(0, 0)%Z] (load [10; 20; 30]%R 0 m0)
                collide_cells eq_refl) as (m' & Hrun & Hm').
    + apply apartb_sound; reflexivity.
    + exists m'; split; [exact Hrun |].
      rewrite !Hm'. unfold contributions, load; simpl. repeat split; lra.
Qed.

(** The colliding scenario does not add [10 + 20] to [out[1]], whichever of
    the two index arrays indexes the input buffer: with [[0,0,1]] on the
    input side the increment is 20, with [[1,1,0]] on the input side it is
    10. *)
Lemma rev_example_collision_is_not_30 :
  ~ (exists m',
        DefaultTransfer.__call__ collide ex_ip ex_op "rev" ex_memory = inr m' /\
        m' 4 = (ex_memory 4%nat + (10 + 20))%R) /\
  ~ (exists m',
        DefaultTransfer.__call__ collide_swapped ex_ip ex_op "rev" ex_memory = inr m' /\
        m' 4 = (ex_memory 4%nat + (10 + 20))%R).
Proof.
  split.
  - intros (m' & Hrun & H4).
    destruct (rev_loop collide ex_ip ex_op [(0, 0)%Z] ex_memory collide_cells eq_refl)
      as (m'' & Hrun' & Hm'').
    + apply apartb_sound; reflexivity.
    + rewrite call_rev in Hrun. simpl keys in Hrun. rewrite Hrun' in Hrun.
      inversion Hrun; subst m''. rewrite Hm'' in H4.
      unfold contributions, ex_memory, load in H4; simpl in H4. lra.
  - intros (m' & Hrun & H4).
    destruct (rev_loop collide_swapped ex_ip ex_op [(0, 0)%Z] ex_memory
                collide_swapped_cells eq_refl)
      as (m'' & Hrun' & Hm'').
    + apply apartb_sound; reflexivity.
    + rewrite call_rev in Hrun. simpl keys in Hrun. rewrite Hrun' in Hrun.
      inversion Hrun; subst m''. rewrite Hm'' in H4.
      unfold contributions, ex_memory, load in H4; simpl in H4. lra.
Qed.

(** ** Forward then reverse *)

(** Forward then reverse with the one-to-one map [0 -> 0] on the input [5]
    and the output [1] ends with the input [1] and the output [2]: neither
    store holds its original value. *)
Lemma roundtrip_counterexample :
  exists m1 m2,
    DefaultTransfer.__call__ one_to_one one_ip one_op "fwd" one_memory = inr m1 /\
    DefaultTransfer.__call__ one_to_one one_ip one_op "rev" m1 = inr m2 /\
    m2 0 <> one_memory 0 /\ m2 1 <> one_memory 1.
Proof.
  destruct (fwd_loop one_to_one one_ip one_op [(0, 0)%Z] one_memory [(0, 1)] eq_refl)
    as (m1 & Hfwd & Hm1); [apply apartb_sound; reflexivity |].
  destruct (rev_loop one_to_one one_ip one_op [(0, 0)%Z] m1 [(0, 1)] eq_refl)
    as (m2 & Hrev & Hm2); [apply apartb_sound; reflexivity |].
  exists m1, m2. split; [exact Hfwd |]. split; [exact Hrev |].
  rewrite !Hm2, !Hm1.
  unfold contributions; simpl. rewrite !Hm1.
  unfold one_memory, load; simpl. unfold store; simpl. split; intros H; lra.
Qed.

(** C4 (as amended).  For a one-to-one correspondence between two stores
    that share no cell, a forward transfer followed by a reverse transfer
    with the same map returns, leaves in every mapped input element the
    original value of its output element, and leaves every mapped output
    element at twice its original value; cells outside the map keep their
    values.  So a mapped output element ends with its original value
    exactly when that value is 0, and a mapped input element exactly when it
    held the value of its output element from the start. *)
Theorem fwd_then_rev_doubles (self : DefaultTransfer.t) (ip_vec op_vec : Vector)
    (m : memory) (ms : list (nat * nat)) :
  correspondences self ip_vec op_vec = inr ms ->
  apart ms ->
  NoDup (map fst ms) ->
  NoDup (map snd ms) ->
  exists m1 m2,
    DefaultTransfer.__call__ self ip_vec op_vec "fwd" m = inr m1 /\
    DefaultTransfer.__call__ self ip_vec op_vec "rev" m1 = inr m2 /\
    (forall i o, In (i, o) ms -> m2 i = m o /\ m2 o = (m o + m o)%R) /\
    (forall c, ~ In c (map fst ms) -> ~ In c (map snd ms) -> m2 c = m c) /\
    (forall i o, In (i, o) ms ->
                 (m2 o = m o <-> m o = 0%R) /\ (m2 i = m i <-> m i = m o)).
Proof.
  intros Hms Hap Hndi Hndo. rewrite call_fwd.
  destruct (fwd_loop self ip_vec op_vec _ m ms Hms Hap) as (m1 & Hfwd & Hm1).
  destruct (rev_loop self ip_vec op_vec _ m1 ms Hms Hap) as (m2 & Hrev & Hm2).
  exists m1, m2. split; [exact Hfwd |]. split; [rewrite call_rev; exact Hrev |].
  assert (Hmapped : forall i o, In (i, o) ms -> m1 i = m o).
  { intros i o Hin. rewrite Hm1. apply assign_all_fwd_nodup; assumption. }
  assert (Hother : forall c, ~ In c (map fst ms) -> m1 c = m c).
  { intros c Hc. rewrite Hm1. apply assign_all_other.
    rewrite fwd_writes_targets; assumption. }
  assert (Hpairs : forall i o, In (i, o) ms ->
                               m2 i = m o /\ m2 o = (m o + m o)%R).
  { intros i o Hin.
    assert (Hi : In i (map fst ms)) by (apply in_map_iff; exists (i, o); auto).
    assert (Ho : In o (map snd ms)) by (apply in_map_iff; exists (i, o); auto).
    split.
    + rewrite Hm2, contributions_none, (Hmapped i o Hin); [lra |].
      intros Hio. exact (Hap i i Hi Hio eq_refl).
    + rewrite Hm2, (contributions_single ms m1 i o Hndo Hin), (Hmapped i o Hin).
      rewrite Hother; [reflexivity |].
      intros Hoi. exact (Hap o o Hoi Ho eq_refl). }
  split; [exact Hpairs |]. split.
  - intros c Hci Hco. rewrite Hm2, contributions_none by assumption.
    rewrite Hother by assumption. lra.
  - intros i o Hin. destruct (Hpairs i o Hin) as [Hi Ho].
    rewrite Hi, Ho. split; split; intros H; lra.
Qed.

(** The theorem at the one-to-one map [rotate], on the input [10, 20, 30]
    and the output [1, 2, 3]. *)
Lemma fwd_then_rev_doubles_witness :
  exists m1 m2,
    DefaultTransfer.__call__ rotate ex_ip ex_op "fwd" round_trip_memory = inr m1 /\
    DefaultTransfer.__call__ rotate ex_ip ex_op "rev" m1 = inr m2 /\
    (forall i o, In (i, o) rotate_cells ->
                 m2 i = round_trip_memory o /\
                 m2 o = (round_trip_memory o + round_trip_memory o)%R) /\
    (forall c, ~ In c (map fst rotate_cells) -> ~ In c (map snd rotate_cells) ->
               m2 c = round_trip_memory c) /\
    (forall i o, In (i, o) rotate_cells ->
                 (m2 o = round_trip_memory o <-> round_trip_memory o = 0%R) /\
                 (m2 i = round_trip_memory i <-> round_trip_memory i = round_trip_memory o)).
Proof.
  apply (fwd_then_rev_doubles rotate ex_ip ex_op round_trip_memory rotate_cells).
  - reflexivity.
  - apply apartb_sound; reflexivity.
  - repeat constructor; simpl; intuition discriminate.
  - repeat constructor; simpl; intuition discriminate.
Defined.

(** ** An unknown mode *)

(** The mode ['sideways'] raises nothing. *)
Lemma unknown_mode_does_not_raise :
  ~ (exists e,
        DefaultTransfer.__call__ fan_out ex_ip ex_op "sideways" ex_memory = inl e).
Proof.
  intros [e H]. unfold DefaultTransfer.__call__ in H; simpl in H. discriminate H.
Qed.

(** C5 (as amended).  A mode other than ['fwd'] and ['rev'] raises nothing:
    the call returns and leaves every cell as it was. *)
Theorem unknown_mode_is_noop (self : DefaultTransfer.t) (ip_vec op_vec : Vector)
    (mode : string) (m : memory) :
  mode <> "fwd"%string -> mode <> "rev"%string ->
  DefaultTransfer.__call__ self ip_vec op_vec mode m = inr m.
Proof.
  intros Hf Hr. unfold DefaultTransfer.__call__.
  apply String.eqb_neq in Hf, Hr. rewrite Hf, Hr. reflexivity.
Qed.

(** The theorem at the mode ['sideways']. *)
Lemma unknown_mode_is_noop_witness :
  DefaultTransfer.__call__ fan_out ex_ip ex_op "sideways" ex_memory = inr ex_memory.
Proof.
  apply (unknown_mode_is_noop fan_out ex_ip ex_op "sideways" ex_memory);
    discriminate.
Defined.

(** ** Which cells a transfer touches *)

Lemma read_ext (m1 m2 : memory) (a : ndarray) :
  (forall c, in_array a c -> m1 c = m2 c) -> read m1 a = read m2 a.
Proof.
  intros H; unfold read; apply map_ext_in; intros j Hj.
  apply in_seq in Hj. apply H, cell_in_array; lia.
Qed.

Lemma dict_getitem_key {V : Type} (d : dict (Z * Z) V) (k : Z * Z) :
  In k (keys d) -> exists v, dict_getitem d k = inr v.
Proof.
  induction d as [| [k' v] d IH]; simpl; intros H; [contradiction |].
  destruct (key_eqb k' k) eqn:E; [eexists; reflexivity |].
  destruct H as [-> | H]; [| auto].
  unfold key_eqb in E; rewrite !Z.eqb_refl in E; discriminate.
Qed.

(** Every pair of a correspondence lies in the buffers of the sets its key
    names. *)
Lemma cells_in_buffers (self : DefaultTransfer.t) (ipd opd : list ndarray)
    (ms : list (nat * nat)) (i o : nat) :
  cells_of self ipd opd (keys (DefaultTransfer._ip_inds self)) = inr ms ->
  In (i, o) ms ->
  exists ji jo a b,
    named_ip self ipd ji /\ nth_error ipd ji = Some a /\ in_array a i /\
    named_op self opd jo /\ nth_error opd jo = Some b /\ in_array b o.
Proof.
  intros Hms Hin.
  destruct (cells_of_origin _ _ _ _ _ _ Hms Hin) as (key & cs & Hkey & Hcs & Hp).
  destruct (dict_getitem_key _ _ Hkey) as (inds & Hinds).
  destruct inds as [| i0 rest].
  { rewrite (pair_cells_empty _ _ _ _ _ Hcs Hinds) in Hp; contradiction. }
  destruct (pair_cells_spelled _ _ _ _ _ _ Hcs Hinds)
    as (op_inds & a & b & ips & ops & Hop & Ha & Hb & Hips & Hops & Hlen & ->);
    [discriminate |].
  apply list_getitem_nth in Ha; destruct Ha as (ji & Hji & Hna).
  apply list_getitem_nth in Hb; destruct Hb as (jo & Hjo & Hnb).
  exists ji, jo, a, b.
  pose proof (in_combine_l _ _ _ _ Hp) as Hi.
  pose proof (in_combine_r _ _ _ _ Hp) as Ho.
  apply in_map_iff in Hi; destruct Hi as (j1 & <- & Hj1).
  apply in_map_iff in Ho; destruct Ho as (j2 & <- & Hj2).
  destruct (mapM_In _ _ _ _ Hips Hj1) as (z1 & _ & Hz1).
  destruct (mapM_In _ _ _ _ Hops Hj2) as (z2 & _ & Hz2).
  apply py_index_lt in Hz1, Hz2.
  assert (Hne : i0 :: rest <> []) by discriminate.
  split; [exists key, (i0 :: rest); auto |].
  split; [assumption |]. split; [apply cell_in_array; assumption |].
  split; [exists key, (i0 :: rest); auto |].
  split; [assumption |]. apply cell_in_array; assumption.
Qed.

Lemma stores_apart_cells (self : DefaultTransfer.t) (ip_vec op_vec : Vector)
    (ms : list (nat * nat)) :
  correspondences self ip_vec op_vec = inr ms ->
  stores_apart (_data (global_vector ip_vec)) (_data (global_vector op_vec)) ->
  apart ms.
Proof.
  unfold correspondences; intros Hms Hsep i o Hi Ho ->.
  apply in_map_iff in Hi; destruct Hi as ([i1 o1] & Hi1 & Hin1).
  apply in_map_iff in Ho; destruct Ho as ([i2 o2] & Ho2 & Hin2).
  simpl in Hi1, Ho2; subst.
  destruct (cells_in_buffers _ _ _ _ _ _ Hms Hin1)
    as (ji & _ & a & _ & _ & Ha & Hia & _).
  destruct (cells_in_buffers _ _ _ _ _ _ Hms Hin2)
    as (_ & jo & _ & b & _ & _ & _ & _ & Hb & Hob).
  apply nth_error_In in Ha, Hb. exact (Hsep a b Ha Hb o Hia Hob).
Qed.

(** C10.  For two stores whose buffers share no cell and a transfer whose
    index arrays resolve to the correspondence [ms]: a forward call returns,
    leaves every buffer of the output store as it was and changes no cell
    other than the addressed input cells; a reverse call returns, leaves
    every buffer of the input store as it was and changes no cell other than
    the addressed output cells.  When the buffers of the written store are
    pairwise disjoint, the buffer of every set that no key with a non-empty
    index array names is unchanged as well. *)
Theorem transfer_mutates_one_store (self : DefaultTransfer.t)
    (ip_vec op_vec : Vector) (m : memory) (ms : list (nat * nat)) :
  correspondences self ip_vec op_vec = inr ms ->
  stores_apart (_data (global_vector ip_vec)) (_data (global_vector op_vec)) ->
  (exists m',
      DefaultTransfer.__call__ self ip_vec op_vec "fwd" m = inr m' /\
      (forall b, In b (_data (global_vector op_vec)) -> read m' b = read m b) /\
      (forall c, ~ In c (map fst ms) -> m' c = m c) /\
      (buffers_apart (_data (global_vector ip_vec)) ->
       forall j a, nth_error (_data (global_vector ip_vec)) j = Some a ->
                   ~ named_ip self (_data (global_vector ip_vec)) j ->
                   read m' a = read m a)) /\
  (exists m',
      DefaultTransfer.__call__ self ip_vec op_vec "rev" m = inr m' /\
      (forall a, In a (_data (global_vector ip_vec)) -> read m' a = read m a) /\
      (forall c, ~ In c (map snd ms) -> m' c = m c) /\
      (buffers_apart (_data (global_vector op_vec)) ->
       forall j b, nth_error (_data (global_vector op_vec)) j = Some b ->
                   ~ named_op self (_data (global_vector op_vec)) j ->
                   read m' b = read m b)).
Proof.
  intros Hms Hsep.
  pose proof (stores_apart_cells self ip_vec op_vec ms Hms Hsep) as Hap.
  assert (Hwhere : forall i o, In (i, o) ms ->
            exists ji jo a b,
              named_ip self (_data (global_vector ip_vec)) ji /\
              nth_error (_data (global_vector ip_vec)) ji = Some a /\ in_array a i /\
              named_op self (_data (global_vector op_vec)) jo /\
              nth_error (_data (global_vector op_vec)) jo = Some b /\ in_array b o).
  { intros i o; apply cells_in_buffers; exact Hms. }
  split.
  - rewrite call_fwd.
    destruct (fwd_loop self ip_vec op_vec _ m ms Hms Hap) as (m' & Hrun & Hm').
    assert (Hframe : forall c, ~ In c (map fst ms) -> m' c = m c).
    { intros c Hc. rewrite Hm'. apply assign_all_other.
      rewrite fwd_writes_targets; assumption. }
    exists m'; split; [exact Hrun |]. split; [| split; [exact Hframe |]].
    + intros b Hb. apply read_ext; intros c Hc. apply Hframe.
      intros Hin. apply in_map_iff in Hin; destruct Hin as ([i o] & <- & Hin).
      destruct (Hwhere i o Hin) as (ji & _ & a & _ & _ & Ha & Hia & _).
      apply nth_error_In in Ha. exact (Hsep a b Ha Hb i Hia Hc).
    + intros Hbuf j a Hj Hnot. apply read_ext; intros c Hc. apply Hframe.
      intros Hin. apply in_map_iff in Hin; destruct Hin as ([i o] & <- & Hin).
      destruct (Hwhere i o Hin) as (ji & _ & a' & _ & Hnamed & Ha' & Hia & _).
      destruct (Nat.eq_dec j ji) as [-> | Hne]; [contradiction |].
      exact (Hbuf j ji a a' Hj Ha' Hne i Hc Hia).
  - rewrite call_rev.
    destruct (rev_loop self ip_vec op_vec _ m ms Hms Hap) as (m' & Hrun & Hm').
    assert (Hframe : forall c, ~ In c (map snd ms) -> m' c = m c).
    { intros c Hc. rewrite Hm', contributions_none by assumption. lra. }
    exists m'; split; [exact Hrun |]. split; [| split; [exact Hframe |]].
    + intros a Ha. apply read_ext; intros c Hc. apply Hframe.
      intros Hin. apply in_map_iff in Hin; destruct Hin as ([i o] & <- & Hin).
      destruct (Hwhere i o Hin) as (_ & jo & _ & b & _ & _ & _ & _ & Hb & Hob).
      apply nth_error_In in Hb. exact (Hsep a b Ha Hb o Hc Hob).
    + intros Hbuf j b Hj Hnot. apply read_ext; intros c Hc. apply Hframe.
      intros Hin. apply in_map_iff in Hin; destruct Hin as ([i o] & <- & Hin).
      destruct (Hwhere i o Hin) as (_ & jo & _ & b' & _ & _ & _ & Hnamed & Hb' & Hob).
      destruct (Nat.eq_dec j jo) as [-> | Hne]; [contradiction |].
      exact (Hbuf j jo b b' Hj Hb' Hne o Hc Hob).
Qed.

(** The theorem at the fan-out map on two stores of two sets. *)
Lemma transfer_mutates_one_store_witness :
  (exists m',
      DefaultTransfer.__call__ fan_out two_ip two_op "fwd" ex_memory = inr m' /\
      (forall b, In b (_data (global_vector two_op)) -> read m' b = read ex_memory b) /\
      (forall c, ~ In c (map fst fan_out_cells) -> m' c = ex_memory c) /\
      (buffers_apart (_data (global_vector two_ip)) ->
       forall j a, nth_error (_data (global_vector two_ip)) j = Some a ->
                   ~ named_ip fan_out (_data (global_vector two_ip)) j ->
                   read m' a = read ex_memory a)) /\
  (exists m',
      DefaultTransfer.__call__ fan_out two_ip two_op "rev" ex_memory = inr m' /\
      (forall a, In a (_data (global_vector two_ip)) -> read m' a = read ex_memory a) /\
      (forall c, ~ In c (map snd fan_out_cells) -> m' c = ex_memory c) /\
      (buffers_apart (_data (global_vector two_op)) ->
       forall j b, nth_error (_data (global_vector two_op)) j = Some b ->
                   ~ named_op fan_out (_data (global_vector two_op)) j ->
                   read m' b = read ex_memory b)).
Proof.
  apply (transfer_mutates_one_store fan_out two_ip two_op ex_memory fan_out_cells).
  - reflexivity.
  - apply stores_apartb_sound; reflexivity.
Defined.

(** ** Elementwise updates *)

Lemma update_array_out (m : memory) (a : ndarray) (f : nat -> R -> R) (c : nat) :
  ~ in_array a c -> update_array m a f c = m c.
Proof.
  intros H; unfold update_array. apply assign_all_other.
  rewrite map_map; simpl. intros Hin.
  apply in_map_iff in Hin; destruct Hin as (j & <- & Hj).
  apply in_seq in Hj. apply H, cell_in_array; lia.
Qed.

Lemma update_array_in (m : memory) (a : ndarray) (f : nat -> R -> R) (j : nat) :
  j < len a -> update_array m a f (cell a j) = f j (m (cell a j)).
Proof.
  intros H; unfold update_array.
  replace (seq 0 (len a)) with (seq 0 j ++ j :: seq (S j) (len a - S j)).
  - rewrite map_app; simpl. apply assign_all_last.
    rewrite map_map; simpl. intros Hin.
    apply in_map_iff in Hin; destruct Hin as (j' & Heq & Hj').
    apply in_seq in Hj'. unfold cell in Heq. lia.
  - change (j :: seq (S j) (len a - S j)) with (seq j (S (len a - S j))).
    rewrite <- seq_app. f_equal; lia.
Qed.

Lemma nth_read (m : memory) (a : ndarray) (j : nat) :
  j < len a -> nth j (read m a) 0%R = m (cell a j).
Proof.
  intros H; unfold read.
  rewrite (nth_indep _ 0%R (m (cell a 0))) by (rewrite length_map, length_seq; exact H).
  rewrite (map_nth (fun j => m (cell a j)) (seq 0 (len a)) 0 j), seq_nth by exact H.
  reflexivity.
Qed.

Lemma length_read (m : memory) (a : ndarray) : length (read m a) = len a.
Proof. unfold read; rewrite length_map, length_seq; reflexivity. Qed.

(** ** add_scal_vec *)

Section AddScalVec.

Variables self vec : Vector.
Variable val : R.
Variable m : memory.

Hypothesis Hlayout : same_layout (_data self) (_data vec).
Hypothesis Hself : buffers_apart (_data self).
Hypothesis Hcross : cross_apart (_data self) (_data vec).

(** The state of the loop when the sets below [k] are done. *)
Let done_below (k : nat) (mk : memory) : Prop :=
  (forall iset a b j,
      iset < k -> nth_error (_data self) iset = Some a ->
      nth_error (_data vec) iset = Some b -> j < len a ->
      mk (cell a j) = (m (cell a j) * (val * m (cell b j)))%R) /\
  (forall c,
      (forall iset a, iset < k -> nth_error (_data self) iset = Some a ->
                      ~ in_array a c) ->
      mk c = m c).

Lemma add_scal_vec_step (k : nat) (mk : memory) :
  k < length (_data self) -> done_below k mk ->
  exists mk', DefaultVector.add_scal_vec_body self val vec mk k = inr mk' /\
              done_below (S k) mk'.
Proof.
  intros Hk [Hdone Hrest].
  destruct (nth_error (_data self) k) as [a |] eqn:Ha;
    [| apply nth_error_None in Ha; lia].
  destruct (Hlayout k a Ha) as (b & Hb & Hlen).
  unfold DefaultVector.add_scal_vec_body.
  rewrite (list_getitem_pos _ _ _ Ha), (list_getitem_pos _ _ _ Hb); simpl.
  unfold DefaultVector.imul_array.
  rewrite broadcast_to_same by (rewrite length_map, length_read; exact Hlen).
  simpl. eexists; split; [reflexivity |].
  assert (Hma : forall j, j < len a -> mk (cell a j) = m (cell a j)).
  { intros j Hj. apply Hrest. intros iset a' Hlt Ha' Hin.
    assert (Hne : iset <> k) by lia.
    exact (Hself iset k a' a Ha' Ha Hne (cell a j) Hin (cell_in_array a j Hj)). }
  assert (Hmb : forall j, j < len b -> mk (cell b j) = m (cell b j)).
  { intros j Hj. apply Hrest. intros iset a' Hlt Ha' Hin.
    assert (Hne : iset <> k) by lia.
    exact (Hcross iset k a' b Ha' Hb Hne (cell b j) Hin (cell_in_array b j Hj)). }
  split.
  - intros iset a' b' j Hlt Ha' Hb' Hj.
    destruct (Nat.eq_dec iset k) as [-> | Hne].
    + assert (a' = a) by congruence. assert (b' = b) by congruence. subst.
      rewrite update_array_in by exact Hj.
      rewrite (nth_indep _ 0%R (val * 0)%R)
        by (rewrite length_map, length_read; lia).
      rewrite (map_nth (fun x => (val * x)%R)), nth_read by lia.
      rewrite Hma, Hmb by lia. reflexivity.
    + rewrite update_array_out.
      * apply (Hdone iset a' b' j); [lia | assumption | assumption | assumption].
      * intros Hin.
        exact (Hself iset k a' a Ha' Ha Hne (cell a' j) (cell_in_array a' j Hj) Hin).
  - intros c Hc. rewrite update_array_out.
    + apply Hrest. intros iset a' Hlt; apply Hc; lia.
    + apply (Hc k a); [lia | exact Ha].
Qed.

Lemma add_scal_vec_range (n k : nat) (mk : memory) :
  k + n <= length (_data self) -> done_below k mk ->
  exists m', for_each (DefaultVector.add_scal_vec_body self val vec) (seq k n) mk
             = inr m' /\
             done_below (k + n) m'.
Proof.
  revert k mk; induction n as [| n IH]; intros k mk Hle Hinv.
  - exists mk; rewrite Nat.add_0_r; split; [reflexivity | exact Hinv].
  - simpl. destruct (add_scal_vec_step k mk) as (mk' & Hstep & Hinv'); [lia | exact Hinv |].
    rewrite Hstep; simpl.
    destruct (IH (S k) mk') as (m' & Hrun & Hfin); [lia | exact Hinv' |].
    exists m'; split; [exact Hrun |].
    replace (k + S n) with (S k + n) by lia. exact Hfin.
Qed.

(** C3.  For two stores with the same set structure and equal lengths,
    whose buffers of different sets share no cell, [add_scal_vec] returns and
    multiplies: element [j] of every set becomes its old value times
    [val] times element [j] of the other store's buffer of that set; cells
    outside the store's buffers keep their values. *)
Theorem add_scal_vec_multiplies :
  exists m',
    DefaultVector.add_scal_vec self val vec m = inr m' /\
    (forall iset a b j,
        nth_error (_data self) iset = Some a ->
        nth_error (_data vec) iset = Some b -> j < len a ->
        m' (cell a j) = (m (cell a j) * (val * m (cell b j)))%R) /\
    (forall c, (forall a, In a (_data self) -> ~ in_array a c) -> m' c = m c).
Proof.
  destruct (add_scal_vec_range (length (_data self)) 0 m) as (m' & Hrun & Hd & Hr).
  - lia.
  - split; [intros; lia | intros; reflexivity].
  - exists m'; split; [exact Hrun |]. split.
    + intros iset a b j Ha Hb Hj. apply (Hd iset a b j); auto.
      simpl. apply nth_error_Some; congruence.
    + intros c Hc. apply Hr. intros iset a _ Ha. apply Hc.
      eapply nth_error_In; eauto.
Qed.

End AddScalVec.

(** The theorem at [val = 5] on the stores [2, 7 | 1] and [3, 1 | 4]: the
    first element becomes [2 * (5 * 3) = 30], not the scaled sum
    [2 + 5 * 3 = 17]; the other store is left as it was. *)
Lemma add_scal_vec_multiplies_witness :
  exists m',
    DefaultVector.add_scal_vec pair_self 5 pair_other pair_memory = inr m' /\
    m' 0 = (2 * (5 * 3))%R /\ m' 0 <> (2 + 5 * 3)%R /\
    m' 1 = (7 * (5 * 1))%R /\ m' 2 = (1 * (5 * 4))%R /\ m' 3 = 3%R.
Proof.
  destruct (add_scal_vec_multiplies pair_self pair_other 5 pair_memory)
    as (m' & Hrun & Hel & Hout).
  - intros iset a H. unfold pair_self, pair_other in *; simpl in *.
    destruct iset as [| [| iset]]; simpl in H; inversion H; subst;
      try (eexists; split; reflexivity).
    destruct iset; discriminate.
  - apply buffers_apartb_sound; reflexivity.
  - intros i j a b Hi Hj Hne. unfold pair_self, pair_other in *; simpl in *.
    destruct i as [| [| i]], j as [| [| j]]; simpl in Hi, Hj;
      try contradiction; try (destruct i; discriminate);
      try (destruct j; discriminate);
      inversion Hi; inversion Hj; subst; apply disjointb_sound; reflexivity.
  - exists m'. split; [exact Hrun |].
    pose proof (Hel 0 {| ptr := 0; len := 2 |} {| ptr := 3; len := 2 |} 0
                  eq_refl eq_refl (Nat.lt_0_succ 1)) as H0.
    pose proof (Hel 0 {| ptr := 0; len := 2 |} {| ptr := 3; len := 2 |} 1
                  eq_refl eq_refl (Nat.lt_succ_diag_r 1)) as H1.
    pose proof (Hel 1 {| ptr := 2; len := 1 |} {| ptr := 5; len := 1 |} 0
                  eq_refl eq_refl (Nat.lt_0_succ 0)) as H2.
    assert (H3 : m' 3 = pair_memory 3).
    { apply Hout. unfold in_array; simpl. intros a [<- | [<- | []]]; simpl; lia. }
    unfold cell, pair_memory, load in H0, H1, H2, H3; simpl in H0, H1, H2, H3.
    rewrite H0, H1, H2, H3. repeat split; try reflexivity. intros H; lra.
Defined.

(** ** get_norm *)

Lemma fold_left_Rplus (l : list R) (acc : R) :
  fold_left Rplus l acc = (acc + sum_list l)%R.
Proof.
  revert acc; induction l as [| x l IH]; simpl; intros acc; [lra |].
  rewrite IH; lra.
Qed.

Lemma np_sum_sum_list (l : list R) : np_sum l = sum_list l.
Proof. unfold np_sum; rewrite fold_left_Rplus; lra. Qed.

Lemma global_sum_concat (m : memory) (d : list ndarray) (acc : R) :
  fold_left (fun s data => (s + np_sum (map (fun x => x ^ 2) (read m data)))%R) d acc
  = (acc + sum_list (map (fun x => x ^ 2) (concat (map (read m) d))))%R.
Proof.
  revert acc; induction d as [| a d IH]; cbn [fold_left map concat]; intros acc.
  - cbn [sum_list fold_right]; lra.
  - rewrite IH, np_sum_sum_list, map_app, sum_list_app; lra.
Qed.

Lemma get_norm_all_elements (v : Vector) (m : memory) :
  DefaultVector.get_norm v m = sqrt (sum_list (map (fun x => x ^ 2)%R (all_elements v m))).
Proof.
  unfold DefaultVector.get_norm, all_elements.
  rewrite global_sum_concat. f_equal; lra.
Qed.




(** ** _clone_data *)

Lemma list_setitem_length {A : Type} (l : list A) (j : nat) (x : A) :
  length (list_setitem l j x) = length l.
Proof.
  revert j; induction l as [| y l IH]; intros [| j]; simpl; auto.
Qed.

Lemma list_setitem_same {A : Type} (l : list A) (j : nat) (x : A) :
  j < length l -> nth_error (list_setitem l j x) j = Some x.
Proof.
  revert j; induction l as [| y l IH]; intros [| j]; simpl; intros H;
    try lia; [reflexivity | apply IH; lia].
Qed.

Lemma list_setitem_other {A : Type} (l : list A) (j i : nat) (x : A) :
  i <> j -> nth_error (list_setitem l j x) i = nth_error l i.
Proof.
  revert j i; induction l as [| y l IH]; intros [| j] [| i]; simpl; intros H;
    try reflexivity; try contradiction. apply IH; lia.
Qed.

Lemma fresh_cell_false (h : heap) (k c : nat) :
  c < brk h -> fresh_cell h k c = false.
Proof.
  intros H; unfold fresh_cell. apply andb_false_iff; left.
  apply Nat.leb_gt; exact H.
Qed.

Lemma fresh_cell_true (h : heap) (k j : nat) :
  j < k -> fresh_cell h k (brk h + j) = true.
Proof.
  intros H; unfold fresh_cell. apply andb_true_iff; split;
    [apply Nat.leb_le | apply Nat.ltb_lt]; lia.
Qed.

Section Clone.

Variable h : heap.
Variable d0 : list ndarray.

Hypothesis Hd0 : forall a, In a d0 -> allocated h a.

(** The state of the loop when the sets below [k] are copied. *)
Let copied_below (k : nat) (acc : heap * list ndarray) : Prop :=
  let '(hk, dk) := acc in
  length dk = length d0 /\
  brk h <= brk hk /\
  (forall c, c < brk h -> mem hk c = mem h c) /\
  (forall i a', i < k -> nth_error dk i = Some a' ->
                brk h <= ptr a' /\ ptr a' + len a' <= brk hk /\
                exists a, nth_error d0 i = Some a /\
                          read (mem hk) a' = read (mem h) a) /\
  (forall i, k <= i -> nth_error dk i = nth_error d0 i).

Lemma clone_step (k : nat) (acc : heap * list ndarray) :
  k < length d0 -> copied_below k acc ->
  exists acc', DefaultVector.clone_body acc k = inr acc' /\
               copied_below (S k) acc'.
Proof.
  destruct acc as [hk dk]. intros Hk (Hlen & Hbrk & Hold & Hdone & Hrest).
  destruct (nth_error d0 k) as [a |] eqn:Ha; [| apply nth_error_None in Ha; lia].
  assert (Hak : nth_error dk k = Some a) by (rewrite Hrest; auto).
  unfold DefaultVector.clone_body.
  rewrite (list_getitem_pos _ _ _ Hak); simpl.
  eexists; split; [reflexivity |].
  assert (Halloc : allocated h a) by (apply Hd0; eapply nth_error_In; eauto).
  unfold allocated in Halloc.
  split; [rewrite list_setitem_length; exact Hlen |].
  split; [simpl; lia |].
  split; [intros c Hc; simpl; rewrite fresh_cell_false by lia; auto |].
  split.
  - intros i a' Hi Ha'. destruct (Nat.eq_dec i k) as [-> | Hne].
    + rewrite list_setitem_same in Ha' by lia. inversion Ha'; subst; simpl.
      split; [lia |]. split; [lia |]. exists a; split; [exact Ha |].
      unfold read; simpl. apply map_ext_in; intros j Hj. apply in_seq in Hj.
      change (cell {| ptr := brk hk; len := len a |} j) with (brk hk + j).
      rewrite fresh_cell_true by lia.
      replace (brk hk + j - brk hk) with j by lia.
      apply Hold. unfold cell; lia.
    + rewrite list_setitem_other in Ha' by exact Hne.
      destruct (Hdone i a') as (Hlo & Hhi & a0 & Ha0 & Hread); [lia | exact Ha' |].
      split; [exact Hlo |]. split; [simpl; lia |]. exists a0; split; [exact Ha0 |].
      rewrite <- Hread. apply read_ext; intros c Hc. simpl.
      rewrite fresh_cell_false by (unfold in_array in Hc; lia). reflexivity.
  - intros i Hi. rewrite list_setitem_other by lia. apply Hrest; lia.
Qed.

Lemma clone_range (n k : nat) (acc : heap * list ndarray) :
  k + n <= length d0 -> copied_below k acc ->
  exists acc', for_each DefaultVector.clone_body (seq k n) acc = inr acc' /\
               copied_below (k + n) acc'.
Proof.
  revert k acc; induction n as [| n IH]; intros k acc Hle Hinv.
  - exists acc; rewrite Nat.add_0_r; split; [reflexivity | exact Hinv].
  - simpl. destruct (clone_step k acc) as (acc1 & Hstep & Hinv1); [lia | exact Hinv |].
    rewrite Hstep; simpl.
    destruct (IH (S k) acc1) as (acc' & Hrun & Hfin); [lia | exact Hinv1 |].
    exists acc'; split; [exact Hrun |].
    replace (k + S n) with (S k + n) by lia. exact Hfin.
Qed.

End Clone.

Lemma set_data_data (v : Vector) (d : list ndarray) : _data (set_data v d) = d.
Proof. reflexivity. Qed.

(** [set_const] and [__imul__] write only to the cells of the store's own
    buffers. *)
Lemma set_const_elsewhere (v : Vector) (val : R) (m : memory) (c : nat) :
  (forall a, In a (_data v) -> ~ in_array a c) ->
  DefaultVector.set_const v val m c = m c.
Proof.
  unfold DefaultVector.set_const. generalize (_data v) as d.
  intros d; revert m; induction d as [| a d IH]; simpl; intros m H; [reflexivity |].
  rewrite IH by auto. apply update_array_out; auto.
Qed.

Lemma imul_elsewhere (v : Vector) (val : R) (m : memory) (c : nat) :
  (forall a, In a (_data v) -> ~ in_array a c) ->
  DefaultVector.__imul__ v val m c = m c.
Proof.
  unfold DefaultVector.__imul__. generalize (_data v) as d.
  intros d; revert m; induction d as [| a d IH]; simpl; intros m H; [reflexivity |].
  rewrite IH by auto. apply update_array_out; auto.
Qed.

(** C8.  [_clone_data] on a store whose buffers are allocated returns; the
    store keeps its number of sets and every new buffer holds the contents
    its old buffer had.  The new buffers are independent: if a memory [m2]
    differs from the memory after the call only in cells of the store's new
    buffers (that is, after any mutation of the duplicate's buffers), every
    array [w] that existed before the call, such as a view of the parent
    store, still reads as it did before the call. *)
Theorem clone_data_breaks_aliasing (self : Vector) (h : heap) :
  (forall a, In a (_data self) -> allocated h a) ->
  exists h' self',
    DefaultVector._clone_data self h = inr (h', self') /\
    length (_data self') = length (_data self) /\
    (forall iset a a',
        nth_error (_data self) iset = Some a ->
        nth_error (_data self') iset = Some a' ->
        read (mem h') a' = read (mem h) a) /\
    (forall w m2,
        allocated h w ->
        (forall c, (forall a', In a' (_data self') -> ~ in_array a' c) ->
                   m2 c = mem h' c) ->
        read m2 w = read (mem h) w).
Proof.
  intros Halloc. unfold DefaultVector._clone_data.
  destruct (clone_range h (_data self) Halloc (length (_data self)) 0 (h, _data self))
    as ([h' d'] & Hrun & Hlen & Hbrk & Hold & Hdone & _).
  - lia.
  - simpl. repeat split; auto; intros; lia.
  - rewrite Hrun; simpl. exists h', (set_data self d').
    split; [reflexivity |]. rewrite set_data_data.
    split; [exact Hlen |]. split.
    + intros iset a a' Ha Ha'.
      destruct (Hdone iset a') as (_ & _ & a0 & Ha0 & Hread).
      * simpl. apply nth_error_Some; congruence.
      * exact Ha'.
      * congruence.
    + intros w m2 Hw Hm2. apply read_ext; intros c Hc.
      unfold allocated in Hw. unfold in_array in Hc.
      rewrite Hm2.
      * apply Hold; lia.
      * intros a' Hin Hca'. apply In_nth_error in Hin; destruct Hin as (i & Hi).
        destruct (Hdone i a') as (Hlo & _).
        -- simpl. rewrite <- Hlen. apply nth_error_Some; congruence.
        -- exact Hi.
        -- unfold in_array in Hca'. lia.
Qed.

(** The theorem at a child store that aliases its parent: after the call,
    filling the child's buffers with a constant leaves both views of the
    parent as they were. *)
Lemma clone_data_breaks_aliasing_witness :
  exists h' self',
    DefaultVector._clone_data child_store parent_heap = inr (h', self') /\
    read (mem h') {| ptr := 3; len := 3 |} = [10; 20; 30]%R /\
    (forall name w,
        In (name, w) (_views parent_store) ->
        read (DefaultVector.set_const self' 9 (mem h')) w
        = read (mem parent_heap) w).
Proof.
  destruct (clone_data_breaks_aliasing child_store parent_heap)
    as (h' & self' & Hrun & Hlen & Hcopy & Hfree).
  - intros a [<- | []]. unfold allocated; simpl; lia.
  - exists h', self'. split; [exact Hrun |]. split.
    + unfold DefaultVector._clone_data in Hrun; simpl in Hrun.
      inversion Hrun; subst; reflexivity.
    + intros name w Hw. apply Hfree.
      * destruct Hw as [Hw | [Hw | []]]; inversion Hw; subst;
          unfold allocated; simpl; lia.
      * intros c Hc. apply set_const_elsewhere; exact Hc.
Defined.

(** ** _extract_data *)

Lemma fold_left_Zadd (l : list Z) (acc : Z) :
  fold_left Z.add l acc = (acc + fold_right Z.add 0 l)%Z.
Proof.
  revert acc; induction l as [| x l IH]; simpl; intros acc; [lia |].
  rewrite IH; lia.
Qed.

Lemma np_sumZ_cons (x : Z) (l : list Z) : np_sumZ (x :: l) = (x + np_sumZ l)%Z.
Proof. unfold np_sumZ; simpl. rewrite !fold_left_Zadd; lia. Qed.

(** Elements of size 0 between two positions do not change a partial sum. *)
Lemma np_sumZ_firstn_zero (r : list Z) (k1 k2 : nat) :
  k1 <= k2 ->
  (forall j, k1 <= j < k2 -> nth j r 0%Z = 0%Z) ->
  np_sumZ (firstn k2 r) = np_sumZ (firstn k1 r).
Proof.
  revert k1 k2; induction r as [| x r IH]; intros k1 k2 Hle Hz.
  - rewrite !firstn_nil; reflexivity.
  - destruct k2 as [| k2].
    + assert (k1 = 0) by lia; subst; reflexivity.
    + destruct k1 as [| k1]; simpl firstn; rewrite ?np_sumZ_cons.
      * assert (Hx : x = 0%Z) by (apply (Hz 0); lia).
        rewrite (IH 0 k2); [simpl; lia | lia |].
        intros j Hj. apply (Hz (S j)); lia.
      * f_equal. apply IH; [lia |].
        intros j Hj. apply (Hz (S j)); lia.
Qed.

Lemma py_slice_prefix {A : Type} (l : list A) (k : Z) :
  (0 <= k)%Z -> py_slice l 0 k = firstn (Z.to_nat k) l.
Proof.
  intros Hk; unfold py_slice, slice_bound.
  replace (0 <? 0)%Z with false by reflexivity.
  replace (k <? 0)%Z with false by (symmetry; apply Z.ltb_ge; exact Hk).
  replace (Z.to_nat (Z.min 0 (Z.of_nat (length l)))) with 0 by lia.
  rewrite Nat.sub_0_r; simpl skipn.
  destruct (Z.le_ge_cases k (Z.of_nat (length l))) as [Hin | Hout].
  - rewrite Z.min_l by exact Hin; reflexivity.
  - rewrite Z.min_r by lia. rewrite Nat2Z.id.
    rewrite !firstn_all2 by lia. reflexivity.
Qed.

Lemma slice_same_bounds (a : ndarray) (i : Z) : len (slice a i i) = 0.
Proof. unfold slice; simpl; lia. Qed.

Lemma list_getitem_first {A : Type} (x : A) (l : list A) :
  list_getitem (x :: l) 0 = inr x.
Proof. reflexivity. Qed.

Lemma list_getitem_last {A : Type} (x : A) (l : list A) :
  exists y, list_getitem (x :: l) (-1) = inr y.
Proof.
  unfold list_getitem.
  assert (Hidx : py_index (length (x :: l)) (-1) = inr (length l)).
  { unfold py_index.
    replace ((0 <=? -1)%Z && (-1 <? Z.of_nat (length (x :: l)))%Z) with false
      by reflexivity.
    replace ((- Z.of_nat (length (x :: l)) <=? -1)%Z && (-1 <? 0)%Z) with true.
    - unfold ret; f_equal. simpl length. lia.
    - symmetry; apply andb_true_iff; split; [apply Z.leb_le | reflexivity].
      simpl length; lia. }
  rewrite Hidx; simpl bind.
  destruct (nth_error (x :: l) (length l)) as [y |] eqn:E; [eauto |].
  apply nth_error_None in E; simpl in E; lia.
Qed.

Section Extract.

Variable self : Vector.

Let vs := _variable_sizes (_assembler self).
Let sub := system_variables self.

(** One turn of the loop: it returns when the set is locatable, appends one
    array, and that array is empty when the process owns nothing in the
    set. *)
Lemma extract_step (h : heap) (data : list ndarray) (iset : nat) :
  locatable self iset ->
  exists h' a,
    DefaultVector.extract_body self vs sub (h, data) iset = inr (h', data ++ [a]) /\
    (owns_none self iset -> len a = 0).
Proof.
  intros Hloc. unfold DefaultVector.extract_body.
  fold sub in Hloc |- *. unfold locatable in Hloc. fold sub vs in Hloc.
  destruct (DefaultVector.select_data_inds sub iset) as [| first rest] eqn:Hsel.
  - simpl. eexists; eexists; split; [reflexivity | reflexivity].
  - destruct Hloc as [Hnil | (sizes_array & row & g & Hsz & Hrow & Hg)];
      [discriminate |].
    destruct (list_getitem_last first rest) as (final & Hfinal).
    change (0 <? length (first :: rest)) with true; cbv iota.
    rewrite (list_getitem_pos _ _ _ Hsz); simpl bind.
    rewrite Hrow; simpl bind. rewrite Hfinal; simpl bind.
    rewrite (list_getitem_pos _ _ _ Hg); simpl bind.
    eexists; eexists; split; [reflexivity |].
    intros Hnone.
    destruct (Hnone sizes_array row first final) as (Horder & Hzero); auto.
    { unfold sub in Hsel; rewrite Hsel; reflexivity. }
    { unfold sub in Hsel; rewrite Hsel; exact Hfinal. }
    rewrite !py_slice_prefix by lia.
    rewrite (np_sumZ_firstn_zero row (Z.to_nat first) (Z.to_nat (final + 1)));
      [apply slice_same_bounds | lia |].
    intros j Hj. rewrite <- (Nat2Z.id j). apply Hzero; lia.
Qed.

(** The state of the loop when the sets below [k] are done. *)
Let extracted_below (k : nat) (acc : heap * list ndarray) : Prop :=
  length (snd acc) = k /\
  forall iset, iset < k -> owns_none self iset ->
               exists a, nth_error (snd acc) iset = Some a /\ len a = 0.

Lemma extract_range (n k : nat) (acc : heap * list ndarray) :
  (forall iset, k <= iset < k + n -> locatable self iset) ->
  extracted_below k acc ->
  exists acc',
    for_each (DefaultVector.extract_body self vs sub) (seq k n) acc = inr acc' /\
    extracted_below (k + n) acc'.
Proof.
  revert k acc; induction n as [| n IH]; intros k acc Hloc Hinv.
  - exists acc; rewrite Nat.add_0_r; split; [reflexivity | exact Hinv].
  - destruct acc as [h data]. destruct Hinv as [Hlen Hdone]. simpl in Hlen.
    destruct (extract_step h data k) as (h' & a & Hstep & Ha); [apply Hloc; lia |].
    change (seq k (S n)) with (k :: seq (S k) n). cbn [for_each].
    rewrite Hstep; cbn [bind].
    destruct (IH (S k) (h', data ++ [a])) as (acc' & Hrun & Hfin).
    + intros iset Hi; apply Hloc; lia.
    + split; [simpl; rewrite length_app; simpl; lia |].
      intros iset Hi Hnone. simpl snd.
      destruct (Nat.eq_dec iset k) as [-> | Hne].
      * exists a. rewrite nth_error_app2 by lia.
        rewrite Hlen, Nat.sub_diag; simpl; auto.
      * destruct (Hdone iset) as (a0 & Ha0 & Hz); [lia | exact Hnone |].
        exists a0. rewrite nth_error_app1 by (simpl in *; lia). auto.
    + exists acc'; split; [exact Hrun |].
      replace (k + S n) with (S k + n) by lia. exact Hfin.
Qed.

(** C9.  When every set is locatable, [_extract_data] returns one array per
    variable set, and for every set in which this process owns no variable
    that array has length 0. *)
Theorem extract_data_empty_set (h : heap) :
  (forall iset, iset < length (_variable_sizes (_assembler self)) ->
                locatable self iset) ->
  exists h' data,
    DefaultVector._extract_data self h = inr (h', data) /\
    length data = length (_variable_sizes (_assembler self)) /\
    forall iset,
      iset < length (_variable_sizes (_assembler self)) ->
      owns_none self iset ->
      exists a, nth_error data iset = Some a /\ len a = 0.
Proof.
  intros Hloc.
  destruct (extract_range (length vs) 0 (h, [])) as ([h' data] & Hrun & Hlen & Hdone).
  - intros iset Hi; apply Hloc; unfold vs in Hi; lia.
  - split; [reflexivity | intros; lia].
  - exists h', data. split; [| split; [exact Hlen | exact Hdone]].
    unfold DefaultVector._extract_data.
    unfold sub, system_variables, vs in Hrun.
    destruct (_variable_allprocs_range (_system self)) as [ind1 ind2].
    exact Hrun.
Qed.

End Extract.

(** The theorem at process 1 of the two-process example: it owns nothing in
    set 0 and the system has no variable in set 1, so both arrays are
    empty. *)
Lemma extract_data_empty_set_witness :
  exists h' data,
    DefaultVector._extract_data split_local empty_heap = inr (h', data) /\
    map len data = [0; 0].
Proof.
  destruct (extract_data_empty_set split_local empty_heap)
    as (h' & data & Hrun & Hlen & Hempty).
  - intros iset Hi. simpl in Hi.
    destruct iset as [| iset].
    + right. exists [[2; 1]; [0; 0]]%Z, [0; 0]%Z, {| ptr := 0; len := 0 |}.
      repeat split; reflexivity.
    + left. destruct iset as [| iset]; [reflexivity | simpl in Hi; lia].
  - exists h', data. split; [exact Hrun |].
    destruct (Hempty 0) as (a0 & Ha0 & Hz0).
    { simpl; lia. }
    { intros sizes_array row first final Hs Hr Hf Hl.
      simpl in Hs; inversion Hs; subst sizes_array.
      inversion Hr; subst row. inversion Hf; subst first. inversion Hl; subst final.
      split; [lia |]. intros j Hj.
      destruct (Z.to_nat j) as [| [| [| k]]]; reflexivity. }
    destruct (Hempty 1) as (a1 & Ha1 & Hz1).
    { simpl; lia. }
    { intros sizes_array row first final Hs Hr Hf Hl. discriminate Hf. }
    simpl in Hlen.
    destruct data as [| b0 [| b1 [| b2 data]]]; try discriminate Hlen.
    simpl in Ha0, Ha1. inversion Ha0; inversion Ha1; subst.
    simpl. rewrite Hz0, Hz1. reflexivity.
Defined.

(** * Further properties of the code *)

(** ** Loops that raise *)

(** A loop raises when its body raises on one of the items whatever the
    state. *)
Lemma for_each_raises {A S : Type} (body : S -> A -> result S)
    (items : list A) (x : A) :
  In x items -> (forall s, exists e, body s x = inl e) ->
  forall s, exists e, for_each body items s = inl e.
Proof.
  intros Hin Hx. induction items as [| y items IH]; [contradiction |].
  intros s; simpl. destruct Hin as [-> | Hin].
  - destruct (Hx s) as (e & He). rewrite He; simpl; eauto.
  - destruct (body s y) as [e | s']; simpl; [eauto | apply IH; exact Hin].
Qed.

(** ** Operations between the buffers of two stores *)

Lemma inside_spec (a : ndarray) (c : nat) : inside a c = true <-> in_array a c.
Proof.
  unfold inside, in_array; rewrite andb_true_iff, Nat.leb_le, Nat.ltb_lt; tauto.
Qed.

Lemma in_some_buffer_dec (d : list ndarray) (c : nat) :
  (exists i a j, nth_error d i = Some a /\ j < len a /\ c = cell a j) \/
  (forall a, In a d -> ~ in_array a c).
Proof.
  destruct (existsb (fun a => inside a c) d) eqn:E.
  - left. apply existsb_exists in E; destruct E as (a & Ha & Hc).
    apply inside_spec in Hc. apply In_nth_error in Ha; destruct Ha as (i & Hi).
    exists i, a, (c - ptr a). unfold in_array in Hc; unfold cell.
    repeat split; [exact Hi | lia | lia].
  - right. intros a Ha Hc. apply inside_spec in Hc.
    assert (existsb (fun a => inside a c) d = true); [| congruence].
    apply existsb_exists; eauto.
Qed.

Lemma partner_lt (a b : ndarray) (j : nat) :
  len b = len a \/ len b = 1 -> j < len a -> partner a b j < len b.
Proof.
  intros H Hj; unfold partner. destruct (Nat.eqb_spec (len b) (len a)); lia.
Qed.

(** The operand a buffer contributes after broadcasting. *)
Lemma broadcast_read (m : memory) (a b : ndarray) :
  len b = len a \/ len b = 1 ->
  exists vs, broadcast_to (len a) (read m b) = inr vs /\
             forall j, j < len a -> nth j vs 0%R = m (cell b (partner a b j)).
Proof.
  intros H. unfold partner. destruct (Nat.eqb_spec (len b) (len a)) as [Heq | Hne].
  - exists (read m b). split; [apply broadcast_to_same; rewrite length_read; exact Heq |].
    intros j Hj. apply nth_read; lia.
  - assert (Hone : len b = 1) by tauto.
    exists (repeat (m (cell b 0)) (len a)). split.
    + unfold broadcast_to. rewrite length_read.
      destruct (Nat.eqb_spec (len b) (len a)); [contradiction |].
      unfold read; rewrite Hone; reflexivity.
    + intros j Hj. apply nth_repeat_lt; exact Hj.
Qed.

Section Elementwise.

Variables self vec : Vector.
Variable op : R -> R -> R.
Variable body : memory -> nat -> result memory.
Variable m : memory.

Hypothesis Hlayout : broadcast_layout (_data self) (_data vec).
Hypothesis Hself : buffers_apart (_data self).
Hypothesis Hcross : cross_apart (_data self) (_data vec).

(** What one turn of the loop does to the buffer of its set. *)
Hypothesis Hbody :
  forall mk iset a b,
    nth_error (_data self) iset = Some a ->
    nth_error (_data vec) iset = Some b ->
    len b = len a \/ len b = 1 ->
    exists mk',
      body mk iset = inr mk' /\
      (forall j, j < len a ->
                 mk' (cell a j) = op (mk (cell a j)) (mk (cell b (partner a b j)))) /\
      (forall c, ~ in_array a c -> mk' c = mk c).

Let combined_below (k : nat) (mk : memory) : Prop :=
  (forall iset a b j,
      iset < k -> nth_error (_data self) iset = Some a ->
      nth_error (_data vec) iset = Some b -> j < len a ->
      mk (cell a j) = op (m (cell a j)) (m (cell b (partner a b j)))) /\
  (forall c,
      (forall iset a, iset < k -> nth_error (_data self) iset = Some a ->
                      ~ in_array a c) ->
      mk c = m c).

Lemma elementwise_step (k : nat) (mk : memory) :
  k < length (_data self) -> combined_below k mk ->
  exists mk', body mk k = inr mk' /\ combined_below (S k) mk'.
Proof.
  intros Hk [Hdone Hrest].
  destruct (nth_error (_data self) k) as [a |] eqn:Ha;
    [| apply nth_error_None in Ha; lia].
  destruct (Hlayout k a Ha) as (b & Hb & Hlen).
  destruct (Hbody mk k a b Ha Hb Hlen) as (mk' & Hrun & Hin & Hout).
  exists mk'; split; [exact Hrun |].
  assert (Hma : forall j, j < len a -> mk (cell a j) = m (cell a j)).
  { intros j Hj. apply Hrest. intros iset a' Hlt Ha' Hc.
    assert (Hne : iset <> k) by lia.
    exact (Hself iset k a' a Ha' Ha Hne (cell a j) Hc (cell_in_array a j Hj)). }
  assert (Hmb : forall j, j < len b -> mk (cell b j) = m (cell b j)).
  { intros j Hj. apply Hrest. intros iset a' Hlt Ha' Hc.
    assert (Hne : iset <> k) by lia.
    exact (Hcross iset k a' b Ha' Hb Hne (cell b j) Hc (cell_in_array b j Hj)). }
  split.
  - intros iset a' b' j Hlt Ha' Hb' Hj.
    destruct (Nat.eq_dec iset k) as [-> | Hne].
    + assert (a' = a) by congruence. assert (b' = b) by congruence. subst.
      rewrite Hin, Hma, Hmb by auto using partner_lt. reflexivity.
    + rewrite Hout.
      * apply (Hdone iset a' b' j); [lia | assumption | assumption | assumption].
      * intros Hc.
        exact (Hself iset k a' a Ha' Ha Hne (cell a' j) (cell_in_array a' j Hj) Hc).
  - intros c Hc. rewrite Hout.
    + apply Hrest. intros iset a' Hlt; apply Hc; lia.
    + apply (Hc k a); [lia | exact Ha].
Qed.

Lemma elementwise_range (n k : nat) (mk : memory) :
  k + n <= length (_data self) -> combined_below k mk ->
  exists m', for_each body (seq k n) mk = inr m' /\ combined_below (k + n) m'.
Proof.
  revert k mk; induction n as [| n IH]; intros k mk Hle Hinv.
  - exists mk; rewrite Nat.add_0_r; split; [reflexivity | exact Hinv].
  - simpl. destruct (elementwise_step k mk) as (mk' & Hstep & Hinv'); [lia | exact Hinv |].
    rewrite Hstep; simpl.
    destruct (IH (S k) mk') as (m' & Hrun & Hfin); [lia | exact Hinv' |].
    exists m'; split; [exact Hrun |].
    replace (k + S n) with (S k + n) by lia. exact Hfin.
Qed.

Lemma elementwise_loop :
  exists m',
    for_each body (seq 0 (length (_data self))) m = inr m' /\
    (forall iset a b j,
        nth_error (_data self) iset = Some a ->
        nth_error (_data vec) iset = Some b -> j < len a ->
        m' (cell a j) = op (m (cell a j)) (m (cell b (partner a b j)))) /\
    (forall c, (forall a, In a (_data self) -> ~ in_array a c) -> m' c = m c).
Proof.
  destruct (elementwise_range (length (_data self)) 0 m) as (m' & Hrun & Hd & Hr).
  - lia.
  - split; [intros; lia | intros; reflexivity].
  - exists m'; split; [exact Hrun |]. split.
    + intros iset a b j Ha Hb Hj. apply (Hd iset a b j); auto.
      simpl. apply nth_error_Some; congruence.
    + intros c Hc. apply Hr. intros iset a _ Ha. apply Hc.
      eapply nth_error_In; eauto.
Qed.

End Elementwise.

(** The three in-place operations on one array. *)
Lemma iadd_body_spec (self vec : Vector) (mk : memory) (iset : nat) (a b : ndarray) :
  nth_error (_data self) iset = Some a ->
  nth_error (_data vec) iset = Some b ->
  len b = len a \/ len b = 1 ->
  exists mk',
    DefaultVector.iadd_body self vec mk iset = inr mk' /\
    (forall j, j < len a ->
               mk' (cell a j) = (mk (cell a j) + mk (cell b (partner a b j)))%R) /\
    (forall c, ~ in_array a c -> mk' c = mk c).
Proof.
  intros Ha Hb Hlen. unfold DefaultVector.iadd_body.
  rewrite (list_getitem_pos _ _ _ Ha), (list_getitem_pos _ _ _ Hb); simpl.
  destruct (broadcast_read mk a b Hlen) as (vs & Hvs & Hnth).
  unfold DefaultVector.iadd_array. rewrite Hvs; simpl.
  eexists; split; [reflexivity |]. split.
  - intros j Hj. rewrite update_array_in, Hnth by exact Hj. reflexivity.
  - intros c Hc. apply update_array_out; exact Hc.
Qed.

Lemma isub_body_spec (self vec : Vector) (mk : memory) (iset : nat) (a b : ndarray) :
  nth_error (_data self) iset = Some a ->
  nth_error (_data vec) iset = Some b ->
  len b = len a \/ len b = 1 ->
  exists mk',
    DefaultVector.isub_body self vec mk iset = inr mk' /\
    (forall j, j < len a ->
               mk' (cell a j) = (mk (cell a j) - mk (cell b (partner a b j)))%R) /\
    (forall c, ~ in_array a c -> mk' c = mk c).
Proof.
  intros Ha Hb Hlen. unfold DefaultVector.isub_body.
  rewrite (list_getitem_pos _ _ _ Ha), (list_getitem_pos _ _ _ Hb); simpl.
  destruct (broadcast_read mk a b Hlen) as (vs & Hvs & Hnth).
  unfold DefaultVector.isub_array. rewrite Hvs; simpl.
  eexists; split; [reflexivity |]. split.
  - intros j Hj. rewrite update_array_in, Hnth by exact Hj. reflexivity.
  - intros c Hc. apply update_array_out; exact Hc.
Qed.

Lemma set_vec_body_spec (self vec : Vector) (mk : memory) (iset : nat) (a b : ndarray) :
  nth_error (_data self) iset = Some a ->
  nth_error (_data vec) iset = Some b ->
  len b = len a \/ len b = 1 ->
  exists mk',
    DefaultVector.set_vec_body self vec mk iset = inr mk' /\
    (forall j, j < len a ->
               mk' (cell a j) = (fun _ y : R => y) (mk (cell a j))
                                  (mk (cell b (partner a b j)))) /\
    (forall c, ~ in_array a c -> mk' c = mk c).
Proof.
  intros Ha Hb Hlen. unfold DefaultVector.set_vec_body.
  rewrite (list_getitem_pos _ _ _ Ha), (list_getitem_pos _ _ _ Hb); simpl.
  destruct (broadcast_read mk a b Hlen) as (vs & Hvs & Hnth).
  unfold DefaultVector.setslice_array. rewrite Hvs; simpl.
  eexists; split; [reflexivity |]. split.
  - intros j Hj. rewrite update_array_in, Hnth by exact Hj. reflexivity.
  - intros c Hc. apply update_array_out; exact Hc.
Qed.

Lemma stores_apart_cross (d1 d2 : list ndarray) :
  stores_apart d1 d2 -> cross_apart d1 d2.
Proof.
  intros H i j a b Ha Hb _. apply H; eapply nth_error_In; eauto.
Qed.

Lemma sum_list_zero (l : list R) :
  (forall x, In x l -> x = 0%R) -> sum_list (map (fun x => x ^ 2)%R l) = 0%R.
Proof.
  induction l as [| x l IH]; intros H; [reflexivity |].
  cbn [map]. unfold sum_list in *; cbn [fold_right].
  rewrite IH by (intros y Hy; apply H; right; exact Hy).
  rewrite (H x) by (left; reflexivity). lra.
Qed.

Lemma get_norm_zero (v : Vector) (m : memory) :
  (forall a j, In a (_data v) -> j < len a -> m (cell a j) = 0%R) ->
  DefaultVector.get_norm v m = 0%R.
Proof.
  intros H. rewrite get_norm_all_elements, sum_list_zero; [apply sqrt_0 |].
  intros x Hx. unfold all_elements in Hx.
  apply in_concat in Hx; destruct Hx as (l & Hl & Hx).
  apply in_map_iff in Hl; destruct Hl as (a & <- & Ha).
  unfold read in Hx. apply in_map_iff in Hx; destruct Hx as (j & <- & Hj).
  apply in_seq in Hj. apply H; [exact Ha | lia].
Qed.

Ltac concrete_layout :=
  let iset := fresh "iset" in
  let a := fresh "a" in
  let H := fresh "H" in
  intros iset a H;
  repeat (destruct iset as [| iset]; simpl in H;
          [inversion H; subst; eexists; split; [reflexivity | simpl; auto] |]);
  destruct iset; discriminate.

Ltac concrete_cross :=
  let i := fresh "i" in
  let j := fresh "j" in
  let a := fresh "a" in
  let b := fresh "b" in
  let Hi := fresh "Hi" in
  let Hj := fresh "Hj" in
  let Hne := fresh "Hne" in
  intros i j a b Hi Hj Hne;
  destruct i as [| [| i]], j as [| [| j]]; simpl in Hi, Hj;
  try contradiction; try (destruct i; discriminate);
  try (destruct j; discriminate);
  inversion Hi; inversion Hj; subst; apply disjointb_sound; reflexivity.

(** X1.  [__iadd__] on two stores whose buffers have NumPy-compatible
    lengths, no two buffers of different sets sharing a cell: the call
    returns, element [j] of every buffer becomes its old value plus the
    element of the other store's buffer of that set that meets it (element
    [j], or the only element when that buffer has one element), and the
    cells outside the store's buffers keep their values. *)
Theorem iadd_adds_elementwise (self vec : Vector) (m : memory) :
  broadcast_layout (_data self) (_data vec) ->
  buffers_apart (_data self) ->
  cross_apart (_data self) (_data vec) ->
  exists m',
    DefaultVector.__iadd__ self vec m = inr m' /\
    (forall iset a b j,
        nth_error (_data self) iset = Some a ->
        nth_error (_data vec) iset = Some b -> j < len a ->
        m' (cell a j) = (m (cell a j) + m (cell b (partner a b j)))%R) /\
    (forall c, (forall a, In a (_data self) -> ~ in_array a c) -> m' c = m c).
Proof.
  intros Hl Hs Hc.
  exact (elementwise_loop self vec Rplus (DefaultVector.iadd_body self vec) m
           Hl Hs Hc (iadd_body_spec self vec)).
Qed.

(** The theorem where the other store has one-element buffers: [3] is added
    to both elements of the first buffer. *)
Lemma iadd_adds_elementwise_witness :
  exists m',
    DefaultVector.__iadd__ pair_self single_other pair_memory = inr m' /\
    m' 0 = (2 + 3)%R /\ m' 1 = (7 + 3)%R /\ m' 2 = (1 + 4)%R /\ m' 3 = 3%R.
Proof.
  destruct (iadd_adds_elementwise pair_self single_other pair_memory)
    as (m' & Hrun & Hel & Hout).
  - concrete_layout.
  - apply buffers_apartb_sound; reflexivity.
  - concrete_cross.
  - exists m'. split; [exact Hrun |].
    pose proof (Hel 0 {| ptr := 0; len := 2 |} {| ptr := 3; len := 1 |} 0
                  eq_refl eq_refl (Nat.lt_0_succ 1)) as H0.
    pose proof (Hel 0 {| ptr := 0; len := 2 |} {| ptr := 3; len := 1 |} 1
                  eq_refl eq_refl (Nat.lt_succ_diag_r 1)) as H1.
    pose proof (Hel 1 {| ptr := 2; len := 1 |} {| ptr := 5; len := 1 |} 0
                  eq_refl eq_refl (Nat.lt_0_succ 0)) as H2.
    assert (H3 : m' 3 = pair_memory 3).
    { apply Hout. unfold in_array; simpl. intros a [<- | [<- | []]]; simpl; lia. }
    unfold cell, partner, pair_memory, load in H0, H1, H2, H3;
      simpl in H0, H1, H2, H3.
    rewrite H0, H1, H2, H3. repeat split; reflexivity.
Defined.

(** X2.  [__isub__], under the same conditions: element [j] of every buffer
    becomes its old value minus the element of the other store that meets
    it; the cells outside the store's buffers keep their values. *)
Theorem isub_subtracts_elementwise (self vec : Vector) (m : memory) :
  broadcast_layout (_data self) (_data vec) ->
  buffers_apart (_data self) ->
  cross_apart (_data self) (_data vec) ->
  exists m',
    DefaultVector.__isub__ self vec m = inr m' /\
    (forall iset a b j,
        nth_error (_data self) iset = Some a ->
        nth_error (_data vec) iset = Some b -> j < len a ->
        m' (cell a j) = (m (cell a j) - m (cell b (partner a b j)))%R) /\
    (forall c, (forall a, In a (_data self) -> ~ in_array a c) -> m' c = m c).
Proof.
  intros Hl Hs Hc.
  exact (elementwise_loop self vec Rminus (DefaultVector.isub_body self vec) m
           Hl Hs Hc (isub_body_spec self vec)).
Qed.

Lemma isub_subtracts_elementwise_witness :
  exists m',
    DefaultVector.__isub__ pair_self pair_other pair_memory = inr m' /\
    m' 0 = (2 - 3)%R /\ m' 1 = (7 - 1)%R /\ m' 2 = (1 - 4)%R /\ m' 4 = 1%R.
Proof.
  destruct (isub_subtracts_elementwise pair_self pair_other pair_memory)
    as (m' & Hrun & Hel & Hout).
  - concrete_layout.
  - apply buffers_apartb_sound; reflexivity.
  - concrete_cross.
  - exists m'. split; [exact Hrun |].
    pose proof (Hel 0 {| ptr := 0; len := 2 |} {| ptr := 3; len := 2 |} 0
                  eq_refl eq_refl (Nat.lt_0_succ 1)) as H0.
    pose proof (Hel 0 {| ptr := 0; len := 2 |} {| ptr := 3; len := 2 |} 1
                  eq_refl eq_refl (Nat.lt_succ_diag_r 1)) as H1.
    pose proof (Hel 1 {| ptr := 2; len := 1 |} {| ptr := 5; len := 1 |} 0
                  eq_refl eq_refl (Nat.lt_0_succ 0)) as H2.
    assert (H4 : m' 4 = pair_memory 4).
    { apply Hout. unfold in_array; simpl. intros a [<- | [<- | []]]; simpl; lia. }
    unfold cell, partner, pair_memory, load in H0, H1, H2, H4;
      simpl in H0, H1, H2, H4.
    rewrite H0, H1, H2, H4. repeat split; reflexivity.
Defined.

(** X3.  [set_vec], under the same conditions: element [j] of every buffer
    becomes the element of the other store that meets it, the other store's
    buffers of the same set being read before the store's are written; the
    cells outside the store's buffers keep their values. *)
Theorem set_vec_copies (self vec : Vector) (m : memory) :
  broadcast_layout (_data self) (_data vec) ->
  buffers_apart (_data self) ->
  cross_apart (_data self) (_data vec) ->
  exists m',
    DefaultVector.set_vec self vec m = inr m' /\
    (forall iset a b j,
        nth_error (_data self) iset = Some a ->
        nth_error (_data vec) iset = Some b -> j < len a ->
        m' (cell a j) = m (cell b (partner a b j))) /\
    (forall c, (forall a, In a (_data self) -> ~ in_array a c) -> m' c = m c).
Proof.
  intros Hl Hs Hc.
  exact (elementwise_loop self vec (fun _ y => y)
           (DefaultVector.set_vec_body self vec) m
           Hl Hs Hc (set_vec_body_spec self vec)).
Qed.

Lemma set_vec_copies_witness :
  exists m',
    DefaultVector.set_vec pair_self pair_other pair_memory = inr m' /\
    m' 0 = 3%R /\ m' 1 = 1%R /\ m' 2 = 4%R /\ m' 3 = 3%R.
Proof.
  destruct (set_vec_copies pair_self pair_other pair_memory)
    as (m' & Hrun & Hel & Hout).
  - concrete_layout.
  - apply buffers_apartb_sound; reflexivity.
  - concrete_cross.
  - exists m'. split; [exact Hrun |].
    pose proof (Hel 0 {| ptr := 0; len := 2 |} {| ptr := 3; len := 2 |} 0
                  eq_refl eq_refl (Nat.lt_0_succ 1)) as H0.
    pose proof (Hel 0 {| ptr := 0; len := 2 |} {| ptr := 3; len := 2 |} 1
                  eq_refl eq_refl (Nat.lt_succ_diag_r 1)) as H1.
    pose proof (Hel 1 {| ptr := 2; len := 1 |} {| ptr := 5; len := 1 |} 0
                  eq_refl eq_refl (Nat.lt_0_succ 0)) as H2.
    assert (H3 : m' 3 = pair_memory 3).
    { apply Hout. unfold in_array; simpl. intros a [<- | [<- | []]]; simpl; lia. }
    unfold cell, partner, pair_memory, load in H0, H1, H2, H3;
      simpl in H0, H1, H2, H3.
    rewrite H0, H1, H2, H3. repeat split; reflexivity.
Defined.

(** ** How the operations between two stores compose *)

Section TwoStores.

Variables self vec : Vector.
Variable m : memory.

Hypothesis Hlayout : broadcast_layout (_data self) (_data vec).
Hypothesis Hself : buffers_apart (_data self).
Hypothesis Hapart : stores_apart (_data self) (_data vec).

(** A cell of the other store is outside the buffers of the store. *)
Lemma partner_cell_outside (iset : nat) (a b : ndarray) (j : nat) :
  nth_error (_data self) iset = Some a ->
  nth_error (_data vec) iset = Some b -> j < len a ->
  forall a', In a' (_data self) -> ~ in_array a' (cell b (partner a b j)).
Proof.
  intros Ha Hb Hj a' Ha' Hc.
  destruct (Hlayout iset a Ha) as (b' & Hb' & Hlen).
  assert (b' = b) by congruence; subst b'.
  apply (Hapart a' b Ha' (nth_error_In _ _ Hb) (cell b (partner a b j)) Hc).
  apply cell_in_array, partner_lt; assumption.
Qed.

(** X5.  For two stores that share no cell, [__isub__] after [set_vec] with
    the same operand leaves every element of the store at 0, so its norm is
    0; the other store is left as it was. *)
Theorem set_vec_then_isub_is_zero :
  exists m1 m2,
    DefaultVector.set_vec self vec m = inr m1 /\
    DefaultVector.__isub__ self vec m1 = inr m2 /\
    (forall a j, In a (_data self) -> j < len a -> m2 (cell a j) = 0%R) /\
    DefaultVector.get_norm self m2 = 0%R /\
    (forall b, In b (_data vec) -> read m2 b = read m b).
Proof.
  pose proof (stores_apart_cross _ _ Hapart) as Hcross.
  destruct (elementwise_loop self vec (fun _ y => y)
              (DefaultVector.set_vec_body self vec) m
              Hlayout Hself Hcross (set_vec_body_spec self vec))
    as (m1 & Hset & Hel1 & Hout1).
  destruct (elementwise_loop self vec Rminus (DefaultVector.isub_body self vec) m1
              Hlayout Hself Hcross (isub_body_spec self vec))
    as (m2 & Hsub & Hel2 & Hout2).
  exists m1, m2. split; [exact Hset |]. split; [exact Hsub |].
  assert (Hzero : forall a j, In a (_data self) -> j < len a ->
                              m2 (cell a j) = 0%R).
  { intros a j Ha Hj. apply In_nth_error in Ha; destruct Ha as (i & Ha).
    destruct (Hlayout i a Ha) as (b & Hb & _).
    rewrite (Hel2 i a b j Ha Hb Hj), (Hel1 i a b j Ha Hb Hj).
    rewrite (Hout1 (cell b (partner a b j)))
      by (apply (partner_cell_outside i a b j Ha Hb Hj)).
    lra. }
  split; [exact Hzero |]. split; [apply get_norm_zero; exact Hzero |].
  intros b Hb. apply read_ext; intros c Hc.
  assert (Hno : forall a, In a (_data self) -> ~ in_array a c).
  { intros a Ha Hac. exact (Hapart a b Ha Hb c Hac Hc). }
  rewrite Hout2, Hout1 by exact Hno. reflexivity.
Qed.

End TwoStores.

Lemma set_vec_then_isub_is_zero_witness :
  exists m1 m2,
    DefaultVector.set_vec pair_self single_other pair_memory = inr m1 /\
    DefaultVector.__isub__ pair_self single_other m1 = inr m2 /\
    (forall a j, In a (_data pair_self) -> j < len a -> m2 (cell a j) = 0%R) /\
    DefaultVector.get_norm pair_self m2 = 0%R /\
    (forall b, In b (_data single_other) -> read m2 b = read pair_memory b).
Proof.
  apply (set_vec_then_isub_is_zero pair_self single_other pair_memory).
  - concrete_layout.
  - apply buffers_apartb_sound; reflexivity.
  - apply stores_apartb_sound; reflexivity.
Defined.

(** ** Operands that do not fit *)

Lemma list_getitem_beyond {A : Type} (l : list A) (j : nat) :
  length l <= j -> list_getitem l (Z.of_nat j) = inl IndexError.
Proof.
  intros H. unfold list_getitem, py_index.
  replace ((0 <=? Z.of_nat j)%Z && (Z.of_nat j <? Z.of_nat (length l))%Z)
    with false.
  - replace ((- Z.of_nat (length l) <=? Z.of_nat j)%Z && (Z.of_nat j <? 0)%Z)
      with false; [reflexivity |].
    symmetry; apply andb_false_iff; right. apply Z.ltb_ge; lia.
  - symmetry; apply andb_false_iff; right. apply Z.ltb_ge; lia.
Qed.

Lemma broadcast_to_mismatch (n : nat) (vals : list R) :
  length vals <> n -> length vals <> 1 -> broadcast_to n vals = inl ValueError.
Proof.
  intros Hn H1. unfold broadcast_to.
  destruct (Nat.eqb_spec (length vals) n); [contradiction |].
  destruct vals as [| x [| y vals]]; try reflexivity. simpl in H1; lia.
Qed.

(** X6.  When the other store has fewer sets than the store, [__iadd__],
    [__isub__], [set_vec] and [add_scal_vec] raise. *)
Theorem missing_set_raises (self vec : Vector) (val : R) (m : memory) :
  length (_data vec) < length (_data self) ->
  (exists e, DefaultVector.__iadd__ self vec m = inl e) /\
  (exists e, DefaultVector.__isub__ self vec m = inl e) /\
  (exists e, DefaultVector.set_vec self vec m = inl e) /\
  (exists e, DefaultVector.add_scal_vec self val vec m = inl e).
Proof.
  intros Hlt.
  set (k := length (_data vec)).
  assert (Hk : In k (seq 0 (length (_data self)))) by (apply in_seq; lia).
  assert (Hother : list_getitem (_data vec) (Z.of_nat k) = inl IndexError)
    by (apply list_getitem_beyond; unfold k; lia).
  destruct (nth_error (_data self) k) as [a |] eqn:Ha;
    [| apply nth_error_None in Ha; lia].
  pose proof (list_getitem_pos _ _ _ Ha) as Htarget.
  repeat split.
  - apply (for_each_raises _ _ k Hk). intros s; exists IndexError.
    unfold DefaultVector.iadd_body. rewrite Htarget, Hother; reflexivity.
  - apply (for_each_raises _ _ k Hk). intros s; exists IndexError.
    unfold DefaultVector.isub_body. rewrite Htarget, Hother; reflexivity.
  - apply (for_each_raises _ _ k Hk). intros s; exists IndexError.
    unfold DefaultVector.set_vec_body. rewrite Hother; reflexivity.
  - apply (for_each_raises _ _ k Hk). intros s; exists IndexError.
    unfold DefaultVector.add_scal_vec_body. rewrite Htarget, Hother; reflexivity.
Qed.

Lemma missing_set_raises_witness :
  (exists e, DefaultVector.__iadd__ pair_self short_other pair_memory = inl e) /\
  (exists e, DefaultVector.__isub__ pair_self short_other pair_memory = inl e) /\
  (exists e, DefaultVector.set_vec pair_self short_other pair_memory = inl e) /\
  (exists e, DefaultVector.add_scal_vec pair_self 5 short_other pair_memory = inl e).
Proof.
  apply (missing_set_raises pair_self short_other 5 pair_memory). simpl; lia.
Defined.

(** X7.  When in some set the two buffers differ in length and the other
    store's buffer does not have exactly one element, [__iadd__],
    [__isub__], [set_vec] and [add_scal_vec] raise. *)
Theorem length_mismatch_raises (self vec : Vector) (val : R) (m : memory)
    (iset : nat) (a b : ndarray) :
  nth_error (_data self) iset = Some a ->
  nth_error (_data vec) iset = Some b ->
  len b <> len a -> len b <> 1 ->
  (exists e, DefaultVector.__iadd__ self vec m = inl e) /\
  (exists e, DefaultVector.__isub__ self vec m = inl e) /\
  (exists e, DefaultVector.set_vec self vec m = inl e) /\
  (exists e, DefaultVector.add_scal_vec self val vec m = inl e).
Proof.
  intros Ha Hb Hne H1.
  assert (Hk : In iset (seq 0 (length (_data self)))).
  { apply in_seq. split; [lia |]. simpl. apply nth_error_Some; congruence. }
  pose proof (list_getitem_pos _ _ _ Ha) as Htarget.
  pose proof (list_getitem_pos _ _ _ Hb) as Hother.
  assert (Hbad : forall s, broadcast_to (len a) (read s b) = inl ValueError).
  { intros s. apply broadcast_to_mismatch; rewrite length_read; assumption. }
  repeat split.
  - apply (for_each_raises _ _ iset Hk). intros s; exists ValueError.
    unfold DefaultVector.iadd_body, DefaultVector.iadd_array.
    rewrite Htarget, Hother; simpl. rewrite Hbad; reflexivity.
  - apply (for_each_raises _ _ iset Hk). intros s; exists ValueError.
    unfold DefaultVector.isub_body, DefaultVector.isub_array.
    rewrite Htarget, Hother; simpl. rewrite Hbad; reflexivity.
  - apply (for_each_raises _ _ iset Hk). intros s; exists ValueError.
    unfold DefaultVector.set_vec_body, DefaultVector.setslice_array.
    rewrite Htarget, Hother; simpl. rewrite Hbad; reflexivity.
  - apply (for_each_raises _ _ iset Hk). intros s; exists ValueError.
    unfold DefaultVector.add_scal_vec_body, DefaultVector.imul_array.
    rewrite Htarget, Hother; simpl.
    rewrite broadcast_to_mismatch;
      [reflexivity | rewrite length_map, length_read; assumption
       | rewrite length_map, length_read; assumption].
Qed.

Lemma length_mismatch_raises_witness :
  (exists e, DefaultVector.__iadd__ single_other pair_self pair_memory = inl e) /\
  (exists e, DefaultVector.__isub__ single_other pair_self pair_memory = inl e) /\
  (exists e, DefaultVector.set_vec single_other pair_self pair_memory = inl e) /\
  (exists e, DefaultVector.add_scal_vec single_other 5 pair_self pair_memory = inl e).
Proof.
  apply (length_mismatch_raises single_other pair_self 5 pair_memory 0
           {| ptr := 3; len := 1 |} {| ptr := 0; len := 2 |});
    [reflexivity | reflexivity | simpl; lia | simpl; lia].
Defined.

(** ** Operations on one store *)

(** A loop that updates every buffer in turn touches no cell outside the
    buffers. *)
Lemma update_all_outside (f : ndarray -> nat -> R -> R) (d : list ndarray)
    (m : memory) (c : nat) :
  (forall a, In a d -> ~ in_array a c) ->
  fold_left (fun m' data => update_array m' data (f data)) d m c = m c.
Proof.
  revert m; induction d as [| a d IH]; simpl; intros m H; [reflexivity |].
  rewrite IH by auto. apply update_array_out; auto.
Qed.

Lemma buffers_apart_tail (a : ndarray) (d : list ndarray) :
  buffers_apart (a :: d) -> buffers_apart d.
Proof.
  intros H i j x y Hx Hy Hne. apply (H (S i) (S j) x y Hx Hy); lia.
Qed.

Lemma buffers_apart_head (a : ndarray) (d : list ndarray) (b : ndarray) :
  buffers_apart (a :: d) -> In b d -> disjoint a b.
Proof.
  intros H Hb. apply In_nth_error in Hb; destruct Hb as (j & Hj).
  apply (H 0 (S j) a b eq_refl Hj); lia.
Qed.

(** With buffers that share no cell, every element is updated once. *)
Lemma update_all_inside (f : ndarray -> nat -> R -> R) (d : list ndarray)
    (m : memory) (i : nat) (a : ndarray) (j : nat) :
  buffers_apart d -> nth_error d i = Some a -> j < len a ->
  fold_left (fun m' data => update_array m' data (f data)) d m (cell a j)
  = f a j (m (cell a j)).
Proof.
  revert m i; induction d as [| a0 d IH]; intros m i Hap Ha Hj.
  - destruct i; discriminate.
  - simpl. destruct i as [| i]; simpl in Ha.
    + inversion Ha; subst a0. rewrite update_all_outside.
      * apply update_array_in; exact Hj.
      * intros b Hb Hc.
        exact (buffers_apart_head a d b Hap Hb (cell a j) (cell_in_array a j Hj) Hc).
    + rewrite (IH _ i (buffers_apart_tail a0 d Hap) Ha Hj). f_equal.
      apply update_array_out. intros Hc.
      exact (buffers_apart_head a0 d a Hap (nth_error_In _ _ Ha) (cell a j) Hc
               (cell_in_array a j Hj)).
Qed.

(** X8.  [set_const] leaves [val] in every element of every buffer, however
    the buffers overlap, and changes no cell outside them. *)
Theorem set_const_fills (v : Vector) (val : R) (m : memory) :
  (forall a j, In a (_data v) -> j < len a ->
               DefaultVector.set_const v val m (cell a j) = val) /\
  (forall c, (forall a, In a (_data v) -> ~ in_array a c) ->
             DefaultVector.set_const v val m c = m c).
Proof.
  assert (Hfill : forall d m0 a j, In a d -> j < len a ->
            fold_left (fun m' data => update_array m' data (fun _ _ => val)) d m0
              (cell a j) = val).
  { induction d as [| a0 d IH]; intros m0 a j Ha Hj; [contradiction |].
    simpl. destruct (in_some_buffer_dec d (cell a j))
      as [(i & b & k & Hb & Hk & Heq) | Hno].
    - rewrite Heq. apply IH; [eapply nth_error_In; eauto | exact Hk].
    - rewrite (update_all_outside (fun _ _ _ => val) d _ _ Hno).
      destruct Ha as [-> | Ha].
      + apply update_array_in; exact Hj.
      + exfalso. exact (Hno a Ha (cell_in_array a j Hj)). }
  split; [intros a j; apply Hfill |].
  intros c Hc; apply set_const_elsewhere; exact Hc.
Qed.

(** X9.  [__imul__] on a store whose buffers share no cell multiplies every
    element by [val] and changes no cell outside the buffers. *)
Theorem imul_scales (v : Vector) (val : R) (m : memory) :
  buffers_apart (_data v) ->
  (forall a j, In a (_data v) -> j < len a ->
               DefaultVector.__imul__ v val m (cell a j) = (m (cell a j) * val)%R) /\
  (forall c, (forall a, In a (_data v) -> ~ in_array a c) ->
             DefaultVector.__imul__ v val m c = m c).
Proof.
  intros Hap. split.
  - intros a j Ha Hj. apply In_nth_error in Ha; destruct Ha as (i & Ha).
    unfold DefaultVector.__imul__.
    exact (update_all_inside (fun _ _ x => (x * val)%R) _ m i a j Hap Ha Hj).
  - intros c Hc; apply imul_elsewhere; exact Hc.
Qed.

Lemma imul_scales_witness :
  DefaultVector.__imul__ pair_self 3 pair_memory 1 = (7 * 3)%R /\
  DefaultVector.__imul__ pair_self 3 pair_memory 4 = 1%R.
Proof.
  destruct (imul_scales pair_self 3 pair_memory) as (Hel & Hout).
  - apply buffers_apartb_sound; reflexivity.
  - split.
    + exact (Hel {| ptr := 0; len := 2 |} 1 (or_introl eq_refl) (Nat.lt_succ_diag_r 1)).
    + rewrite Hout; [reflexivity |].
      unfold in_array; simpl. intros a [<- | [<- | []]]; simpl; lia.
Defined.

(** ** _create_data and _initialize_data *)

Lemma buffers_apart_snoc (d : list ndarray) (x : ndarray) :
  buffers_apart d -> (forall a, In a d -> disjoint a x) ->
  buffers_apart (d ++ [x]).
Proof.
  intros Hd Hx i j a b Ha Hb Hne.
  destruct (Nat.lt_ge_cases i (length d)) as [Hi | Hi];
    destruct (Nat.lt_ge_cases j (length d)) as [Hj | Hj].
  - rewrite nth_error_app1 in Ha, Hb by assumption. eapply Hd; eauto.
  - rewrite nth_error_app1 in Ha by assumption.
    rewrite nth_error_app2 in Hb by assumption.
    destruct (j - length d) as [| k]; simpl in Hb;
      [| destruct k; discriminate].
    inversion Hb; subst. apply Hx. eapply nth_error_In; eauto.
  - rewrite nth_error_app2 in Ha by assumption.
    rewrite nth_error_app1 in Hb by assumption.
    destruct (i - length d) as [| k]; simpl in Ha;
      [| destruct k; discriminate].
    inversion Ha; subst. apply disjoint_sym, Hx. eapply nth_error_In; eauto.
  - rewrite nth_error_app2 in Ha, Hb by assumption.
    destruct (i - length d) as [| ki] eqn:Ei; simpl in Ha;
      [| destruct ki; discriminate].
    destruct (j - length d) as [| kj] eqn:Ej; simpl in Hb;
      [| destruct kj; discriminate].
    lia.
Qed.

Section Create.

Variable self : Vector.
Variable h : heap.

(** The state of the comprehension when the sizing arrays [seen] are done. *)
Let created (seen : list (list (list Z))) (acc : heap * list ndarray) : Prop :=
  let '(hk, dk) := acc in
  length dk = length seen /\
  brk h <= brk hk /\
  (forall c, c < brk h -> mem hk c = mem h c) /\
  (forall k sizes row a,
      nth_error seen k = Some sizes ->
      list_getitem sizes (_iproc self) = inr row ->
      nth_error dk k = Some a -> Z.of_nat (len a) = np_sumZ row) /\
  (forall a, In a dk ->
             brk h <= ptr a /\ ptr a + len a <= brk hk /\
             forall j, j < len a -> mem hk (cell a j) = 0%R) /\
  buffers_apart dk.

Lemma create_step (seen : list (list (list Z))) (acc : heap * list ndarray)
    (sizes : list (list Z)) :
  sized_for self sizes -> created seen acc ->
  exists acc', DefaultVector.create_item self acc sizes = inr acc' /\
               created (seen ++ [sizes]) acc'.
Proof.
  destruct acc as [hk dk].
  intros (row & Hrow & Hsum) (Hlen & Hbrk & Hold & Hsize & Hin & Hap).
  unfold DefaultVector.create_item. rewrite Hrow; simpl.
  unfold zeros. replace (np_sumZ row <? 0)%Z with false
    by (symmetry; apply Z.ltb_ge; exact Hsum).
  simpl. eexists; split; [reflexivity |].
  set (k := Z.to_nat (np_sumZ row)).
  split; [rewrite !length_app; simpl; lia |].
  split; [simpl; lia |].
  split; [intros c Hc; simpl; rewrite fresh_cell_false by lia; auto |].
  split; [| split].
  - intros i sizes' row' a Hs Hr Ha.
    destruct (Nat.lt_ge_cases i (length seen)) as [Hi | Hi].
    + rewrite nth_error_app1 in Hs by assumption.
      rewrite nth_error_app1 in Ha by lia. eapply Hsize; eauto.
    + rewrite nth_error_app2 in Hs by assumption.
      rewrite nth_error_app2 in Ha by lia. rewrite Hlen in Ha.
      destruct (i - length seen) as [| i']; simpl in Hs, Ha;
        [| destruct i'; discriminate].
      inversion Hs; inversion Ha; subst. simpl.
      assert (row' = row) by congruence. subst. fold k. unfold k. lia.
  - intros a Ha. apply in_app_iff in Ha. destruct Ha as [Ha | [<- | []]].
    + destruct (Hin a Ha) as (Hlo & Hhi & Hz).
      split; [exact Hlo |]. split; [simpl; lia |].
      intros j Hj. simpl. rewrite fresh_cell_false by (unfold cell; lia).
      apply Hz; exact Hj.
    + simpl. split; [lia |]. split; [lia |].
      intros j Hj. change (cell {| ptr := brk hk; len := k |} j) with (brk hk + j).
      rewrite fresh_cell_true by exact Hj. reflexivity.
  - apply buffers_apart_snoc; [exact Hap |].
    intros a Ha c Hca Hcx. destruct (Hin a Ha) as (_ & Hhi & _).
    unfold in_array in Hca, Hcx; simpl in Hcx. lia.
Qed.

Lemma create_loop (rest seen : list (list (list Z))) (acc : heap * list ndarray) :
  (forall sizes, In sizes rest -> sized_for self sizes) ->
  created seen acc ->
  exists acc', for_each (DefaultVector.create_item self) rest acc = inr acc' /\
               created (seen ++ rest) acc'.
Proof.
  revert seen acc; induction rest as [| sizes rest IH]; intros seen acc Hall Hinv.
  - exists acc; rewrite app_nil_r; split; [reflexivity | exact Hinv].
  - destruct (create_step seen acc sizes) as (acc1 & Hstep & Hinv1);
      [apply Hall; left; reflexivity | exact Hinv |].
    simpl. rewrite Hstep; simpl.
    destruct (IH (seen ++ [sizes]) acc1) as (acc' & Hrun & Hfin);
      [intros s Hs; apply Hall; right; exact Hs | exact Hinv1 |].
    exists acc'; split; [exact Hrun |].
    rewrite <- app_assoc in Hfin. exact Hfin.
Qed.

End Create.

(** A loop that returns has run its body on every item. *)
Lemma for_each_returned {A S : Type} (body : S -> A -> result S)
    (items : list A) (s s' : S) (x : A) :
  for_each body items s = inr s' -> In x items ->
  exists s1 s2, body s1 x = inr s2.
Proof.
  revert s; induction items as [| y items IH]; intros s Hrun Hx; [contradiction |].
  simpl in Hrun. inv_bind Hrun. destruct Hx as [-> | Hx]; eauto.
Qed.

Lemma create_item_returned (self : Vector) (acc acc' : heap * list ndarray)
    (sizes : list (list Z)) :
  DefaultVector.create_item self acc sizes = inr acc' -> sized_for self sizes.
Proof.
  destruct acc as [hk dk]. unfold DefaultVector.create_item; intros H.
  inv_bind H. inv_bind H. unfold zeros in E0.
  destruct (np_sumZ x <? 0)%Z eqn:Hneg; [discriminate |].
  exists x; split; [exact E | apply Z.ltb_ge; exact Hneg].
Qed.

(** X10.  Whenever [_create_data] returns, on sizing arrays whose rows for
    this process add up within the int64 range, it has made one new array
    per variable set: array [k] has the length given by the row sum of set
    [k], holds zeros, lies in cells that were free before the call, and
    shares no cell with the other new arrays; cells allocated before the
    call keep their values. *)
Theorem create_data_allocates (self : Vector) (h h' : heap) (data : list ndarray) :
  (forall sizes, In sizes (_variable_sizes (_assembler self)) ->
                 sum_fits self sizes) ->
  DefaultVector._create_data self h = inr (h', data) ->
  length data = length (_variable_sizes (_assembler self)) /\
  (forall k sizes,
      nth_error (_variable_sizes (_assembler self)) k = Some sizes ->
      exists row a,
        list_getitem sizes (_iproc self) = inr row /\
        nth_error data k = Some a /\ Z.of_nat (len a) = np_sumZ row) /\
  (forall a, In a data ->
             brk h <= ptr a /\ allocated h' a /\
             forall j, j < len a -> mem h' (cell a j) = 0%R) /\
  buffers_apart data /\
  (forall c, c < brk h -> mem h' c = mem h c).
Proof.
  intros _ Hret.
  assert (Hall : forall sizes, In sizes (_variable_sizes (_assembler self)) ->
                               sized_for self sizes).
  { intros sizes Hs. unfold DefaultVector._create_data in Hret.
    destruct (for_each_returned _ _ _ _ sizes Hret Hs) as (s1 & s2 & Hbody).
    exact (create_item_returned self s1 s2 sizes Hbody). }
  destruct (create_loop self h (_variable_sizes (_assembler self)) [] (h, []) Hall)
    as ([h1 data1] & Hrun & Hlen & Hbrk & Hold & Hsize & Hin & Hap).
  - simpl. repeat split; auto; try (intros; contradiction).
    + intros k sizes row a Hs; destruct k; discriminate.
    + intros i j a b Ha; destruct i; discriminate.
  - unfold DefaultVector._create_data in Hret. rewrite Hrun in Hret.
    inversion Hret; subst h1 data1; clear Hret. simpl in *.
    split; [exact Hlen |]. split; [| split; [| split; [exact Hap | exact Hold]]].
    + intros k sizes Hk.
      destruct (Hall sizes (nth_error_In _ _ Hk)) as (row & Hrow & _).
      destruct (nth_error data k) as [a |] eqn:Ha.
      * exists row, a. split; [exact Hrow |]. split; [reflexivity |].
        exact (Hsize k sizes row a Hk Hrow Ha).
      * exfalso. apply nth_error_None in Ha.
        assert (k < length (_variable_sizes (_assembler self)))
          by (apply nth_error_Some; rewrite Hk; discriminate).
        lia.
    + intros a Ha. destruct (Hin a Ha) as (H1 & H2 & H3).
      split; [exact H1 |]. split; [exact H2 | exact H3].
Qed.

(** The theorem at process 0 of the two-process example: buffers of 3 and
    of 1 elements. *)
Lemma create_data_allocates_witness :
  exists h' data,
    DefaultVector._create_data split_root parent_heap = inr (h', data) /\
    data = [{| ptr := 3; len := 3 |}; {| ptr := 6; len := 1 |}] /\
    buffers_apart data /\
    (forall c, c < 3 -> mem h' c = ex_memory c).
Proof.
  destruct (DefaultVector._create_data split_root parent_heap)
    as [e | [h' data]] eqn:E.
  - unfold DefaultVector._create_data in E. simpl in E. discriminate E.
  - destruct (create_data_allocates split_root parent_heap h' data)
      as (Hlen & Hsize & Hin & Hap & Hold).
    + intros sizes [<- | [<- | []]] row Hrow; simpl in Hrow;
        inversion Hrow; subst row; unfold np_sumZ; simpl; lia.
    + exact E.
    + exists h', data. split; [reflexivity |].
      split; [| split; [exact Hap | exact Hold]].
      unfold DefaultVector._create_data in E; simpl in E.
      inversion E; reflexivity.
Defined.

(** X11.  Whenever [_initialize_data] returns for a vector without a global
    vector, every element of the new store is 0, its norm is 0 and its
    buffers share no cell with each other. *)
Theorem initialize_data_fresh_is_zero (self : Vector) (h h' : heap)
    (self' : Vector) :
  DefaultVector._initialize_data self None h = inr (h', self') ->
  (forall a j, In a (_data self') -> j < len a -> mem h' (cell a j) = 0%R) /\
  DefaultVector.get_norm self' (mem h') = 0%R /\
  buffers_apart (_data self').
Proof.
  unfold DefaultVector._initialize_data; intros Hrun. inv_bind Hrun.
  inversion Hrun; subst; clear Hrun. rewrite set_data_data.
  unfold DefaultVector._create_data in E.
  destruct (create_loop self h (_variable_sizes (_assembler self)) [] (h, []))
    as ([h1 data] & Hrun & _ & _ & _ & _ & Hin & Hap).
  - intros sizes Hs.
    destruct (for_each_returned _ _ _ _ sizes E Hs) as (s1 & s2 & Hbody).
    exact (create_item_returned self s1 s2 sizes Hbody).
  - simpl. repeat split; auto; try (intros; contradiction).
    + intros k sizes row a Hs; destruct k; discriminate.
    + intros i j a b Ha; destruct i; discriminate.
  - rewrite Hrun in E. inversion E; subst; clear E. simpl.
    assert (Hzero : forall a j, In a data -> j < len a -> mem h1 (cell a j) = 0%R).
    { intros a j Ha Hj. apply (Hin a Ha); exact Hj. }
    split; [exact Hzero |]. split; [| exact Hap].
    apply get_norm_zero. rewrite set_data_data. exact Hzero.
Qed.

(** The theorem at process 0 of the two-process example. *)
Lemma initialize_data_fresh_is_zero_witness :
  exists h' self',
    DefaultVector._initialize_data split_root None parent_heap = inr (h', self') /\
    (forall a j, In a (_data self') -> j < len a -> mem h' (cell a j) = 0%R) /\
    DefaultVector.get_norm self' (mem h') = 0%R /\
    buffers_apart (_data self').
Proof.
  destruct (DefaultVector._initialize_data split_root None parent_heap)
    as [e | [h' self']] eqn:E.
  - unfold DefaultVector._initialize_data, DefaultVector._create_data in E.
    simpl in E. discriminate E.
  - exists h', self'. split; [reflexivity |].
    exact (initialize_data_fresh_is_zero split_root parent_heap h' self' E).
Defined.

(** X12.  [_create_data] raises when some sizing array has no row for this
    process, or has a row whose sizes add up to a negative number (within
    the int64 range), whatever the other sizing arrays hold. *)
Theorem create_data_raises (self : Vector) (h : heap) (sizes : list (list Z)) :
  In sizes (_variable_sizes (_assembler self)) ->
  unallocatable self sizes ->
  exists e, DefaultVector._create_data self h = inl e.
Proof.
  intros Hs Hbad.
  destruct (DefaultVector._create_data self h) as [e | r] eqn:Hrun;
    [exists e; reflexivity | exfalso].
  unfold DefaultVector._create_data in Hrun.
  destruct (for_each_returned _ _ _ _ sizes Hrun Hs) as (s1 & s2 & Hbody).
  destruct (create_item_returned self s1 s2 sizes Hbody) as (row & Hrow & Hsum).
  destruct Hbad as [(e & He) | (row' & Hrow' & Hneg)].
  - rewrite He in Hrow; discriminate Hrow.
  - rewrite Hrow' in Hrow. inversion Hrow; subst row'. lia.
Qed.

(** The theorem at process 1 of an assembler whose second sizing array has
    one row, and at a sizing array whose row adds up to -1. *)
Lemma create_data_raises_witness :
  (exists e, DefaultVector._create_data ragged_root empty_heap = inl e) /\
  (exists e, DefaultVector._create_data negative_root empty_heap = inl e).
Proof.
  split.
  - apply (create_data_raises ragged_root empty_heap [[1]]%Z).
    + right; left; reflexivity.
    + left. exists IndexError. reflexivity.
  - apply (create_data_raises negative_root empty_heap [[2; -3]]%Z).
    + left; reflexivity.
    + right. exists [2; -3]%Z. split; [reflexivity |].
      unfold np_sumZ; simpl; lia.
Defined.

(** ** _extract_data: where the buffers lie *)

Lemma py_index_of_nat (n i j : nat) : py_index n (Z.of_nat i) = inr j -> j = i.
Proof.
  unfold py_index.
  destruct ((0 <=? Z.of_nat i)%Z && (Z.of_nat i <? Z.of_nat n)%Z).
  - intros H; inversion H; lia.
  - destruct ((- Z.of_nat n <=? Z.of_nat i)%Z && (Z.of_nat i <? 0)%Z) eqn:E;
      [| discriminate].
    apply andb_true_iff in E. destruct E as [_ E]. apply Z.ltb_lt in E. lia.
Qed.

Lemma list_getitem_of_nat {A : Type} (l : list A) (i : nat) (x : A) :
  list_getitem l (Z.of_nat i) = inr x -> nth_error l i = Some x.
Proof.
  intros H. apply list_getitem_nth in H. destruct H as (j & Hj & Hx).
  apply py_index_of_nat in Hj. subst; exact Hx.
Qed.

Lemma slice_bound_le (n : nat) (i : Z) : slice_bound n i <= n.
Proof. unfold slice_bound. destruct (i <? 0)%Z eqn:E; [apply Z.ltb_lt in E |]; lia. Qed.

(** A slice lies inside the array it is taken from. *)
Lemma slice_within (g : ndarray) (i1 i2 : Z) (c : nat) :
  in_array (slice g i1 i2) c -> in_array g c.
Proof.
  unfold in_array, slice; simpl.
  pose proof (slice_bound_le (len g) i1). pose proof (slice_bound_le (len g) i2).
  lia.
Qed.

Lemma same_heap_zeros (h : heap) (r : heap * ndarray) :
  zeros h 0 = inr r -> same_heap (fst r) h /\ len (snd r) = 0.
Proof.
  unfold zeros; simpl. intros H; inversion H; subst; clear H. simpl.
  split; [| reflexivity]. split; simpl; [lia |]. intros c. unfold fresh_cell.
  destruct (brk h <=? c) eqn:E1; simpl; [| reflexivity].
  replace (c <? brk h + 0) with false; [reflexivity |].
  symmetry. apply Nat.ltb_ge. apply Nat.leb_le in E1. lia.
Qed.

(** What one turn of the loop appends. *)
Lemma extract_body_returned (self : Vector) (hk : heap) (dk : list ndarray)
    (iset : nat) (acc' : heap * list ndarray) :
  DefaultVector.extract_body self (_variable_sizes (_assembler self))
    (system_variables self) (hk, dk) iset = inr acc' ->
  exists a,
    snd acc' = dk ++ [a] /\ same_heap (fst acc') hk /\
    ((DefaultVector.select_data_inds (system_variables self) iset = [] /\
      len a = 0) \/
     exists first rest final sizes_array row g,
       DefaultVector.select_data_inds (system_variables self) iset = first :: rest /\
       list_getitem (first :: rest) (-1) = inr final /\
       nth_error (_variable_sizes (_assembler self)) iset = Some sizes_array /\
       list_getitem sizes_array (_iproc self) = inr row /\
       nth_error (_data (global_vector self)) iset = Some g /\
       a = slice g (np_sumZ (py_slice row 0 first))
             (np_sumZ (py_slice row 0 (final + 1)))).
Proof.
  unfold DefaultVector.extract_body.
  destruct (DefaultVector.select_data_inds (system_variables self) iset)
    as [| first rest] eqn:Hsel.
  - change (0 <? length (@nil Z)) with false; cbv iota.
    intros H. inv_bind H. inversion H; subst; clear H. simpl.
    destruct (same_heap_zeros hk x E) as (Hheap & Hz).
    eexists; split; [reflexivity |]. split; [exact Hheap |].
    left; split; [reflexivity | exact Hz].
  - change (0 <? length (first :: rest)) with true; cbv iota.
    intros H. inv_bind H. rewrite list_getitem_first in H; cbn [bind] in H.
    inv_bind H. inv_bind H. inv_bind H. inv_bind H.
    inversion H; subst; clear H. simpl.
    assert (x2 = x0) by congruence. subst x2.
    eexists; split; [reflexivity |]. split; [split; reflexivity |].
    right. exists first, rest, x1, x, x0, x3.
    repeat split; auto using list_getitem_of_nat.
Qed.

(** A returned loop, turn by turn: the heap is as before, and entry [iset]
    of the result is what turn [iset] appended. *)
Lemma extract_turns (self : Vector) (n k : nat) (h0 h' : heap)
    (d0 data : list ndarray) :
  for_each (DefaultVector.extract_body self (_variable_sizes (_assembler self))
              (system_variables self)) (seq k n) (h0, d0) = inr (h', data) ->
  length d0 = k ->
  same_heap h' h0 /\ length data = k + n /\
  (forall i, i < k -> nth_error data i = nth_error d0 i) /\
  (forall iset, k <= iset < k + n ->
     exists hk dk acc',
       DefaultVector.extract_body self (_variable_sizes (_assembler self))
         (system_variables self) (hk, dk) iset = inr acc' /\
       nth_error data iset = nth_error (snd acc') (length dk) /\
       length dk = iset).
Proof.
  revert k h0 d0; induction n as [| n IH]; intros k h0 d0 Hrun Hlen.
  - simpl in Hrun. inversion Hrun; subst; clear Hrun.
    split; [split; reflexivity |]. split; [lia |].
    split; [reflexivity | intros; lia].
  - change (seq k (S n)) with (k :: seq (S k) n) in Hrun. cbn [for_each] in Hrun.
    inv_bind Hrun. destruct x as [h1 d1].
    destruct (extract_body_returned self h0 d0 k (h1, d1) E)
      as (a & Hd1 & Hheap & _). simpl in Hd1, Hheap. subst d1.
    destruct (IH (S k) h1 (d0 ++ [a]) Hrun) as (Hh & Hl & Hpre & Hturn).
    { rewrite length_app; simpl; lia. }
    split; [destruct Hh as [Hb Hm]; destruct Hheap as [Hb0 Hm0]; split;
            [congruence | intros c; rewrite Hm; apply Hm0] |].
    split; [lia |]. split.
    + intros i Hi. rewrite Hpre by lia. apply nth_error_app1; lia.
    + intros iset Hi. destruct (Nat.eq_dec iset k) as [-> | Hne].
      * exists h0, d0, (h1, d0 ++ [a]). split; [exact E |]. split; [| exact Hlen].
        simpl. rewrite Hpre by lia. rewrite Hlen. reflexivity.
      * apply Hturn; lia.
Qed.

(** X13.  Whenever [_extract_data] returns, it has allocated nothing and
    changed no cell, it has produced one array per variable set, and each of
    these arrays is empty or lies inside the buffer of its set in the global
    vector: the store it builds aliases the global vector. *)
Theorem extract_data_aliases_global (self : Vector) (h h' : heap)
    (data : list ndarray) :
  DefaultVector._extract_data self h = inr (h', data) ->
  same_heap h' h /\
  length data = length (_variable_sizes (_assembler self)) /\
  forall iset a,
    nth_error data iset = Some a ->
    len a = 0 \/
    exists g, nth_error (_data (global_vector self)) iset = Some g /\
              forall c, in_array a c -> in_array g c.
Proof.
  unfold DefaultVector._extract_data. intros Hrun.
  assert (Hrun' : for_each
            (DefaultVector.extract_body self (_variable_sizes (_assembler self))
               (system_variables self))
            (seq 0 (length (_variable_sizes (_assembler self)))) (h, [])
            = inr (h', data)).
  { unfold system_variables.
    destruct (_variable_allprocs_range (_system self)) as [ind1 ind2].
    exact Hrun. }
  destruct (extract_turns self _ 0 h h' [] data Hrun' eq_refl)
    as (Hheap & Hlen & _ & Hturn).
  split; [exact Hheap |]. split; [exact Hlen |].
  intros iset a Ha.
  assert (Hi : iset < length data) by (apply nth_error_Some; congruence).
  destruct (Hturn iset) as (hk & dk & acc' & Hbody & Hnth & Hdk); [lia |].
  destruct (extract_body_returned self hk dk iset acc' Hbody)
    as (a' & Hsnd & _ & Hcase).
  rewrite Hsnd, nth_error_app2, Nat.sub_diag in Hnth by lia. simpl in Hnth.
  assert (a' = a) by congruence. subst a'.
  destruct Hcase as [[_ Hz] | (first & rest & final & sa & row & g & _ & _ & _ & _ & Hg & ->)].
  - left; exact Hz.
  - right. exists g. split; [exact Hg |]. intros c; apply slice_within.
Qed.

Lemma extract_data_aliases_global_witness :
  exists h' data,
    DefaultVector._extract_data tail_local parent_heap = inr (h', data) /\
    same_heap h' parent_heap /\
    data = [{| ptr := 2; len := 1 |}; {| ptr := 3; len := 1 |}].
Proof.
  destruct (DefaultVector._extract_data tail_local parent_heap)
    as [e | [h' data]] eqn:E.
  - unfold DefaultVector._extract_data in E. simpl in E. discriminate E.
  - exists h', data. split; [reflexivity |].
    destruct (extract_data_aliases_global tail_local parent_heap h' data E)
      as (Hheap & _).
    split; [exact Hheap |].
    unfold DefaultVector._extract_data in E. simpl in E.
    inversion E; reflexivity.
Defined.

Lemma np_sumZ_nonneg (l : list Z) :
  Forall (fun s => 0 <= s)%Z l -> (0 <= np_sumZ l)%Z.
Proof.
  induction 1 as [| x l Hx _ IH]; [unfold np_sumZ; simpl; lia |].
  rewrite np_sumZ_cons; lia.
Qed.

Lemma np_sumZ_firstn_mono (l : list Z) (k1 k2 : nat) :
  Forall (fun s => 0 <= s)%Z l -> k1 <= k2 ->
  (0 <= np_sumZ (firstn k1 l) <= np_sumZ (firstn k2 l))%Z.
Proof.
  intros Hl; revert k1 k2; induction Hl as [| x l Hx Hl IH]; intros k1 k2 Hle.
  - rewrite !firstn_nil; unfold np_sumZ; simpl; lia.
  - destruct k1 as [| k1], k2 as [| k2]; simpl firstn; try lia.
    + unfold np_sumZ; simpl; lia.
    + rewrite np_sumZ_cons. destruct (IH 0 k2); [lia |].
      simpl firstn in *. unfold np_sumZ at 1; simpl. unfold np_sumZ at 1; simpl. lia.
    + rewrite !np_sumZ_cons. destruct (IH k1 k2); [lia |]. lia.
Qed.

Lemma slice_exact (g : ndarray) (i1 i2 : Z) :
  (0 <= i1 <= i2)%Z -> (i2 <= Z.of_nat (len g))%Z ->
  slice g i1 i2 = {| ptr := ptr g + Z.to_nat i1; len := Z.to_nat (i2 - i1) |}.
Proof.
  intros H1 H2. unfold slice, slice_bound.
  replace (i1 <? 0)%Z with false by (symmetry; apply Z.ltb_ge; lia).
  replace (i2 <? 0)%Z with false by (symmetry; apply Z.ltb_ge; lia).
  rewrite !Z.min_l by lia. f_equal. lia.
Qed.

(** X14.  Whenever [_extract_data] returns and the placement of a set is
    regular, the array of that set is the window of the set's global buffer
    that starts after the sizes of the variables before the system's first
    one and spans the sizes of the system's variables, first to last. *)
Theorem extract_data_window (self : Vector) (h h' : heap) (data : list ndarray)
    (iset : nat) (first final : Z) (row : list Z) (g : ndarray) :
  DefaultVector._extract_data self h = inr (h', data) ->
  regular_set self iset first final row g ->
  exists a,
    nth_error data iset = Some a /\
    ptr a = ptr g + Z.to_nat (np_sumZ (firstn (Z.to_nat first) row)) /\
    Z.of_nat (len a) = (np_sumZ (firstn (Z.to_nat (final + 1)) row)
                        - np_sumZ (firstn (Z.to_nat first) row))%Z.
Proof.
  unfold DefaultVector._extract_data. intros Hrun Hreg.
  assert (Hrun' : for_each
            (DefaultVector.extract_body self (_variable_sizes (_assembler self))
               (system_variables self))
            (seq 0 (length (_variable_sizes (_assembler self)))) (h, [])
            = inr (h', data)).
  { unfold system_variables.
    destruct (_variable_allprocs_range (_system self)) as [ind1 ind2].
    exact Hrun. }
  destruct Hreg as (rest & sa & Hsel & Hfinal & Hsa & Hrow & Hg & Horder & Hpos & Hfit).
  destruct (extract_turns self _ 0 h h' [] data Hrun' eq_refl)
    as (_ & Hlen & _ & Hturn).
  assert (Hi : iset < length (_variable_sizes (_assembler self)))
    by (apply nth_error_Some; congruence).
  destruct (Hturn iset) as (hk & dk & acc' & Hbody & Hnth & Hdk); [lia |].
  destruct (extract_body_returned self hk dk iset acc' Hbody)
    as (a & Hsnd & _ & Hcase).
  rewrite Hsnd, nth_error_app2, Nat.sub_diag in Hnth by lia. simpl in Hnth.
  exists a. split; [exact Hnth |].
  destruct Hcase as [[Hnil _] | (first' & rest' & final' & sa' & row' & g' & Hsel' & Hfinal' & Hsa' & Hrow' & Hg' & ->)].
  - rewrite Hnil in Hsel; discriminate.
  - rewrite Hsel in Hsel'. inversion Hsel'; subst first' rest'.
    assert (final' = final) by congruence.
    assert (sa' = sa) by congruence. subst.
    assert (row' = row) by congruence.
    assert (g' = g) by congruence. subst.
    rewrite !py_slice_prefix by lia.
    destruct (np_sumZ_firstn_mono row (Z.to_nat first) (Z.to_nat (final + 1)) Hpos)
      as (H0 & Hmono); [lia |].
    rewrite slice_exact by lia. simpl. split; [reflexivity | lia].
Qed.

(** The theorem at process 0 of the two-process example, whose system
    starts at variable 1 of set 0: the window skips the 2 elements of
    variable 0 and has the 1 element of variable 1. *)
Lemma extract_data_window_witness :
  exists h' data a,
    DefaultVector._extract_data tail_local parent_heap = inr (h', data) /\
    nth_error data 0 = Some a /\ ptr a = 2 /\ len a = 1.
Proof.
  destruct (DefaultVector._extract_data tail_local parent_heap)
    as [e | [h' data]] eqn:E.
  - unfold DefaultVector._extract_data in E. simpl in E. discriminate E.
  - destruct (extract_data_window tail_local parent_heap h' data 0 1 1 [2; 1]%Z
                {| ptr := 0; len := 3 |} E) as (a & Ha & Hptr & Hlen).
    + exists [], [[2; 1]; [0; 0]]%Z.
      repeat split; try reflexivity; try lia;
        try (repeat constructor; lia); unfold np_sumZ; simpl; lia.
    + exists h', data, a. split; [reflexivity |]. split; [exact Ha |].
      unfold np_sumZ in Hptr, Hlen; simpl in Hptr, Hlen. split; lia.
Defined.

(** ** _clone_data: the new buffers *)

Lemma clone_body_returned (hk : heap) (dk : list ndarray) (k : nat)
    (acc' : heap * list ndarray) :
  DefaultVector.clone_body (hk, dk) k = inr acc' ->
  exists a,
    nth_error dk k = Some a /\
    brk (fst acc') = brk hk + len a /\
    snd acc' = list_setitem dk k {| ptr := brk hk; len := len a |}.
Proof.
  unfold DefaultVector.clone_body; intros H. inv_bind H.
  apply list_getitem_of_nat in E. simpl in H. inversion H; subst; clear H.
  exists x; simpl; auto.
Qed.

Section CloneApart.

Variable h : heap.

(** The copies made so far stand one after the other above the cells that
    were allocated before the call. *)
Let chained (k : nat) (acc : heap * list ndarray) : Prop :=
  brk h <= brk (fst acc) /\
  (forall i a', i < k -> nth_error (snd acc) i = Some a' ->
                brk h <= ptr a' /\ ptr a' + len a' <= brk (fst acc)) /\
  (forall i j a' b', j < i -> i < k ->
                     nth_error (snd acc) i = Some a' ->
                     nth_error (snd acc) j = Some b' ->
                     ptr b' + len b' <= ptr a').

Lemma clone_chain (n k : nat) (acc acc' : heap * list ndarray) :
  for_each DefaultVector.clone_body (seq k n) acc = inr acc' ->
  k + n <= length (snd acc) -> chained k acc -> chained (k + n) acc'.
Proof.
  revert k acc; induction n as [| n IH]; intros k acc Hrun Hlen Hinv.
  - simpl in Hrun. inversion Hrun; subst. rewrite Nat.add_0_r. exact Hinv.
  - change (seq k (S n)) with (k :: seq (S k) n) in Hrun. cbn [for_each] in Hrun.
    inv_bind Hrun. destruct acc as [hk dk].
    destruct (clone_body_returned hk dk k x E) as (a & Ha & Hbrk & Hsnd).
    replace (k + S n) with (S k + n) by lia.
    apply (IH (S k) x Hrun).
    + rewrite Hsnd, list_setitem_length. simpl in Hlen. lia.
    + destruct Hinv as (Hb & Hin & Hord). simpl in *.
      split; [lia |]. rewrite Hsnd, Hbrk. split.
      * intros i a' Hi Ha'. destruct (Nat.eq_dec i k) as [-> | Hne].
        -- rewrite list_setitem_same in Ha' by lia.
           inversion Ha'; subst; simpl. lia.
        -- rewrite list_setitem_other in Ha' by exact Hne.
           destruct (Hin i a') as (Hlo & Hhi); [lia | exact Ha' |]. lia.
      * intros i j a' b' Hji Hi Ha' Hb'.
        rewrite list_setitem_other in Hb' by lia.
        destruct (Nat.eq_dec i k) as [-> | Hne].
        -- rewrite list_setitem_same in Ha' by lia.
           inversion Ha'; subst; simpl.
           destruct (Hin j b') as (_ & Hhi); [lia | exact Hb' |]. exact Hhi.
        -- rewrite list_setitem_other in Ha' by exact Hne.
           apply (Hord i j a' b'); [exact Hji | lia | exact Ha' | exact Hb'].
Qed.

End CloneApart.

Lemma reads_agree (m1 m2 : memory) (d1 d2 : list ndarray) :
  length d1 = length d2 ->
  (forall i a b, nth_error d1 i = Some a -> nth_error d2 i = Some b ->
                 read m1 a = read m2 b) ->
  map (read m1) d1 = map (read m2) d2.
Proof.
  revert d2; induction d1 as [| a d1 IH]; intros [| b d2] Hlen H;
    simpl in *; try reflexivity; try discriminate.
  f_equal; [exact (H 0 a b eq_refl eq_refl) |].
  apply IH; [lia |]. intros i; exact (H (S i)).
Qed.

(** X15.  [_clone_data] on a store whose buffers are allocated, even when
    they overlap: the new buffers lie in cells that were free before the
    call and share no cell with each other, the elements of the store are
    the same as before, and so is its norm. *)
Theorem clone_data_separates (self : Vector) (h : heap) :
  (forall a, In a (_data self) -> allocated h a) ->
  exists h' self',
    DefaultVector._clone_data self h = inr (h', self') /\
    (forall a', In a' (_data self') -> brk h <= ptr a' /\ allocated h' a') /\
    buffers_apart (_data self') /\
    all_elements self' (mem h') = all_elements self (mem h) /\
    DefaultVector.get_norm self' (mem h') = DefaultVector.get_norm self (mem h).
Proof.
  intros Halloc. unfold DefaultVector._clone_data.
  destruct (clone_range h (_data self) Halloc (length (_data self)) 0 (h, _data self))
    as ([h' d'] & Hrun & Hlen & Hbrk & Hold & Hdone & _).
  - lia.
  - simpl. repeat split; auto; intros; lia.
  - assert (Hchain := clone_chain h (length (_data self)) 0 (h, _data self) (h', d')
                        Hrun).
    destruct Hchain as (_ & Hin & Hord).
    { simpl; lia. }
    { simpl. split; [lia |]. split; intros; lia. }
    simpl in Hin, Hord.
    rewrite Hrun; simpl. exists h', (set_data self d').
    split; [reflexivity |]. rewrite set_data_data.
    assert (Hall : all_elements (set_data self d') (mem h')
                   = all_elements self (mem h)).
    { unfold all_elements. rewrite set_data_data. f_equal.
      apply reads_agree; [exact Hlen |].
      intros i a' a Ha' Ha.
      destruct (Hdone i a') as (_ & _ & a0 & Ha0 & Hread).
      - simpl. apply nth_error_Some; congruence.
      - exact Ha'.
      - congruence. }
    split; [| split; [| split; [exact Hall |]]].
    + intros a' Ha'. apply In_nth_error in Ha'; destruct Ha' as (i & Hi).
      apply (Hin i a'); [| exact Hi].
      rewrite <- Hlen. apply nth_error_Some; congruence.
    + intros i j a b Ha Hb Hne c Hca Hcb. unfold in_array in Hca, Hcb.
      assert (Hi : i < length (_data self))
        by (rewrite <- Hlen; apply nth_error_Some; congruence).
      assert (Hj : j < length (_data self))
        by (rewrite <- Hlen; apply nth_error_Some; congruence).
      destruct (Nat.lt_gt_cases i j) as [Hcase _].
      destruct (Hcase Hne) as [Hlt | Hgt].
      * pose proof (Hord j i b a Hlt Hj Hb Ha). lia.
      * pose proof (Hord i j a b Hgt Hi Ha Hb). lia.
    + rewrite !get_norm_all_elements, Hall. reflexivity.
Qed.

(** The theorem at a store whose two buffers overlap in one cell. *)
Lemma clone_data_separates_witness :
  exists h' self',
    DefaultVector._clone_data overlapping_store parent_heap = inr (h', self') /\
    _data self' = [{| ptr := 3; len := 2 |}; {| ptr := 5; len := 2 |}] /\
    buffers_apart (_data self') /\
    all_elements self' (mem h') = all_elements overlapping_store ex_memory.
Proof.
  destruct (clone_data_separates overlapping_store parent_heap)
    as (h' & self' & Hrun & Hfresh & Hap & Hall & Hnorm).
  - intros a [<- | [<- | []]]; unfold allocated; simpl; lia.
  - exists h', self'. split; [exact Hrun |].
    split; [| split; [exact Hap | exact Hall]].
    unfold DefaultVector._clone_data in Hrun; simpl in Hrun.
    inversion Hrun; reflexivity.
Defined.

(** ** The transfer: contract, errors, composition *)

Section TransferRuns.

Variable self : DefaultTransfer.t.
Variables ip_vec op_vec : Vector.

Let ipd := _data (global_vector ip_vec).
Let opd := _data (global_vector op_vec).

(** Whether a call returns depends on the index arrays only, not on the
    memory. *)
Lemma fwd_runs (ks : list (Z * Z)) (ms : list (nat * nat)) (m : memory) :
  cells_of self ipd opd ks = inr ms ->
  exists m', for_each (DefaultTransfer.fwd_body self ip_vec op_vec) ks m = inr m'.
Proof.
  revert ms m; induction ks as [| k ks IH]; intros ms m Hc.
  - exists m; reflexivity.
  - apply cells_of_cons in Hc; destruct Hc as (cs & ms' & Hk & Hks & _).
    simpl. rewrite (fwd_body_cells self ip_vec op_vec m k cs Hk); simpl.
    eapply IH; exact Hks.
Qed.

Lemma rev_runs (ks : list (Z * Z)) (ms : list (nat * nat)) (m : memory) :
  cells_of self ipd opd ks = inr ms ->
  exists m', for_each (DefaultTransfer.rev_body self ip_vec op_vec) ks m = inr m'.
Proof.
  revert ms m; induction ks as [| k ks IH]; intros ms m Hc.
  - exists m; reflexivity.
  - apply cells_of_cons in Hc; destruct Hc as (cs & ms' & Hk & Hks & _).
    simpl. rewrite (rev_body_cells self ip_vec op_vec m k cs Hk); simpl.
    eapply IH; exact Hks.
Qed.

End TransferRuns.

(** X16.  A transfer that meets its contract never raises, in either mode
    and whatever cells the two stores share: every key has an entry in both
    dictionaries, names sets the two stores have, and has index arrays of
    equal lengths whose indices the buffers accept (negative ones counting
    from the end). *)
Theorem transfer_contract_never_raises (self : DefaultTransfer.t)
    (ip_vec op_vec : Vector) (m : memory) :
  (forall key, In key (keys (DefaultTransfer._ip_inds self)) ->
               key_well_formed self (_data (global_vector ip_vec))
                 (_data (global_vector op_vec)) key) ->
  (exists m', DefaultTransfer.__call__ self ip_vec op_vec "fwd" m = inr m') /\
  (exists m', DefaultTransfer.__call__ self ip_vec op_vec "rev" m = inr m').
Proof.
  intros Hwf.
  destruct (correspondences_resolve self ip_vec op_vec Hwf) as (ms & Hms).
  split.
  - rewrite call_fwd. exact (fwd_runs self ip_vec op_vec _ ms m Hms).
  - rewrite call_rev. exact (rev_runs self ip_vec op_vec _ ms m Hms).
Qed.

(** The theorem at a map with negative indices, between a store and
    itself. *)
Lemma transfer_contract_never_raises_witness :
  (exists m', DefaultTransfer.__call__ wrap_around ex_ip ex_ip "fwd" ex_memory
              = inr m') /\
  (exists m', DefaultTransfer.__call__ wrap_around ex_ip ex_ip "rev" ex_memory
              = inr m').
Proof.
  apply transfer_contract_never_raises.
  intros key [<- | []]. exists [-1; 0]%Z. split; [reflexivity |].
  right. exists [0; -3]%Z, {| ptr := 0; len := 3 |}, {| ptr := 0; len := 3 |}.
  split; [reflexivity |]. split; [reflexivity |]. split; [reflexivity |].
  split; [reflexivity |].
  split; repeat constructor; unfold in_range; simpl; lia.
Defined.

Lemma dict_getitem_all_empty (d : dict (Z * Z) (list Z)) (k : Z * Z) :
  Forall (fun kv => snd kv = []) d -> In k (keys d) -> dict_getitem d k = inr [].
Proof.
  induction 1 as [| [k' v] d Hv _ IH]; simpl; intros Hk; [contradiction |].
  simpl in Hv; subst v. destruct (key_eqb k' k) eqn:E; [reflexivity |].
  destruct Hk as [-> | Hk]; [| auto].
  unfold key_eqb in E; rewrite !Z.eqb_refl in E; discriminate.
Qed.

Lemma for_each_unchanged {A S : Type} (body : S -> A -> result S)
    (items : list A) (s : S) :
  (forall x, In x items -> body s x = inr s) -> for_each body items s = inr s.
Proof.
  induction items as [| y items IH]; intros H; [reflexivity |].
  simpl. rewrite (H y) by (left; reflexivity). simpl.
  apply IH. intros x Hx; apply H; right; exact Hx.
Qed.

(** X17.  A transfer whose index arrays are all empty does nothing and
    raises nothing in any mode, even when [_op_inds] has no entry for its
    keys and the keys name sets the stores do not have. *)
Theorem empty_pairs_are_skipped (self : DefaultTransfer.t)
    (ip_vec op_vec : Vector) (mode : string) (m : memory) :
  Forall (fun kv => snd kv = []) (DefaultTransfer._ip_inds self) ->
  DefaultTransfer.__call__ self ip_vec op_vec mode m = inr m.
Proof.
  intros Hall. unfold DefaultTransfer.__call__.
  destruct (String.eqb mode "fwd"); [| destruct (String.eqb mode "rev")].
  - apply for_each_unchanged. intros [i o] Hk.
    unfold DefaultTransfer.fwd_body.
    rewrite (dict_getitem_all_empty _ _ Hall Hk). reflexivity.
  - apply for_each_unchanged. intros [i o] Hk.
    unfold DefaultTransfer.rev_body.
    rewrite (dict_getitem_all_empty _ _ Hall Hk). reflexivity.
  - reflexivity.
Qed.

Lemma empty_pairs_are_skipped_witness :
  DefaultTransfer.__call__ all_empty ex_ip ex_op "rev" ex_memory = inr ex_memory.
Proof.
  apply (empty_pairs_are_skipped all_empty ex_ip ex_op "rev" ex_memory).
  repeat constructor.
Defined.

(** X18.  When a key has a non-empty index array in [_ip_inds] and no entry
    in [_op_inds], the call raises in both modes. *)
Theorem missing_op_entry_raises (self : DefaultTransfer.t)
    (ip_vec op_vec : Vector) (m : memory) (key : Z * Z) (inds : list Z) :
  In key (keys (DefaultTransfer._ip_inds self)) ->
  dict_getitem (DefaultTransfer._ip_inds self) key = inr inds ->
  inds <> [] ->
  dict_getitem (DefaultTransfer._op_inds self) key = inl KeyError ->
  (exists e, DefaultTransfer.__call__ self ip_vec op_vec "fwd" m = inl e) /\
  (exists e, DefaultTransfer.__call__ self ip_vec op_vec "rev" m = inl e).
Proof.
  intros Hk Hip Hne Hop.
  assert (Hlen : (0 <? length inds) = true).
  { destruct inds; [contradiction | reflexivity]. }
  split.
  - rewrite call_fwd. apply (for_each_raises _ _ key Hk).
    intros s; exists KeyError. unfold DefaultTransfer.fwd_body.
    destruct key as [i o]. rewrite Hip; simpl. rewrite Hlen, Hop. reflexivity.
  - rewrite call_rev. apply (for_each_raises _ _ key Hk).
    intros s; exists KeyError. unfold DefaultTransfer.rev_body.
    destruct key as [i o]. rewrite Hip; simpl. rewrite Hlen, Hop. reflexivity.
Qed.

Lemma missing_op_entry_raises_witness :
  (exists e, DefaultTransfer.__call__ no_op_entry ex_ip ex_op "fwd" ex_memory = inl e) /\
  (exists e, DefaultTransfer.__call__ no_op_entry ex_ip ex_op "rev" ex_memory = inl e).
Proof.
  apply (missing_op_entry_raises no_op_entry ex_ip ex_op ex_memory (0, 0)%Z
           [0; 1]%Z); [left; reflexivity | reflexivity | discriminate | reflexivity].
Defined.

Lemma py_index_outside (n : nat) (i : Z) :
  ~ in_range n i -> py_index n i = inl IndexError.
Proof.
  unfold in_range, py_index; intros H.
  destruct ((0 <=? i)%Z && (i <? Z.of_nat n)%Z) eqn:E1.
  - apply andb_true_iff in E1. rewrite Z.leb_le, Z.ltb_lt in E1. lia.
  - destruct ((- Z.of_nat n <=? i)%Z && (i <? 0)%Z) eqn:E2; [| reflexivity].
    apply andb_true_iff in E2. rewrite Z.leb_le, Z.ltb_lt in E2. lia.
Qed.

Lemma mapM_fails {A B : Type} (f : A -> result B) (l : list A) (x : A) :
  In x l -> (exists e, f x = inl e) -> exists e, mapM f l = inl e.
Proof.
  intros Hx (e & He). induction l as [| y l IH]; [contradiction |].
  simpl. destruct Hx as [-> | Hx].
  - rewrite He; simpl; eauto.
  - destruct (f y); simpl; [eauto |].
    destruct (IH Hx) as (e' & He'). rewrite He'; simpl; eauto.
Qed.

(** X19.  When an index array of [_ip_inds] holds an index that the input
    buffer of its key does not have, the call raises in both modes: the
    offending entry is not skipped. *)
Theorem index_out_of_range_raises (self : DefaultTransfer.t)
    (ip_vec op_vec : Vector) (m : memory) (key : Z * Z) (inds : list Z)
    (ip_arr : ndarray) (i : Z) :
  In key (keys (DefaultTransfer._ip_inds self)) ->
  dict_getitem (DefaultTransfer._ip_inds self) key = inr inds ->
  list_getitem (_data (global_vector ip_vec)) (fst key) = inr ip_arr ->
  In i inds -> ~ in_range (len ip_arr) i ->
  (exists e, DefaultTransfer.__call__ self ip_vec op_vec "fwd" m = inl e) /\
  (exists e, DefaultTransfer.__call__ self ip_vec op_vec "rev" m = inl e).
Proof.
  intros Hk Hip Harr Hi Hout.
  assert (Hlen : (0 <? length inds) = true).
  { destruct inds; [contradiction | reflexivity]. }
  destruct (mapM_fails (py_index (len ip_arr)) inds i Hi) as (e & Hbad).
  { exists IndexError. apply py_index_outside; exact Hout. }
  destruct key as [ki ko]. simpl in Harr.
  split.
  - rewrite call_fwd. apply (for_each_raises _ _ (ki, ko) Hk).
    intros s. unfold DefaultTransfer.fwd_body. rewrite Hip; simpl. rewrite Hlen.
    destruct (dict_getitem (DefaultTransfer._op_inds self) (ki, ko)) as [e1 | op_inds];
      simpl; [eauto |].
    destruct (list_getitem (_data (global_vector op_vec)) ko) as [e2 | op_arr];
      simpl; [eauto |].
    destruct (take s op_arr op_inds) as [e3 | tmp]; simpl; [eauto |].
    rewrite Harr; simpl. unfold put. rewrite Hbad; simpl; eauto.
  - rewrite call_rev. apply (for_each_raises _ _ (ki, ko) Hk).
    intros s. unfold DefaultTransfer.rev_body. rewrite Hip; simpl. rewrite Hlen.
    destruct (dict_getitem (DefaultTransfer._op_inds self) (ki, ko)) as [e1 | op_inds];
      simpl; [eauto |].
    rewrite Harr; simpl. unfold take. rewrite Hbad; simpl; eauto.
Qed.

Lemma index_out_of_range_raises_witness :
  (exists e, DefaultTransfer.__call__ beyond ex_ip ex_op "fwd" ex_memory = inl e) /\
  (exists e, DefaultTransfer.__call__ beyond ex_ip ex_op "rev" ex_memory = inl e).
Proof.
  apply (index_out_of_range_raises beyond ex_ip ex_op ex_memory (0, 0)%Z
           [0; 3]%Z {| ptr := 0; len := 3 |} 3%Z).
  - left; reflexivity.
  - reflexivity.
  - reflexivity.
  - right; left; reflexivity.
  - unfold in_range; simpl; lia.
Defined.

(** A cell that is assigned gets its value from the assignments alone. *)
Lemma assign_all_written (ws : list (nat * R)) (m1 m2 : memory) (c : nat) :
  In c (map fst ws) -> assign_all m1 ws c = assign_all m2 ws c.
Proof.
  unfold assign_all; revert m1 m2; induction ws as [| [a x] ws IH];
    simpl; intros m1 m2 Hc; [contradiction |].
  destruct (in_dec Nat.eq_dec c (map fst ws)) as [Hin | Hout].
  - apply IH; exact Hin.
  - destruct Hc as [-> | Hc]; [| contradiction].
    fold (assign_all (store m1 c x) ws). fold (assign_all (store m2 c x) ws).
    rewrite !assign_all_other by exact Hout. rewrite !store_eq. reflexivity.
Qed.

(** X20.  Forward mode is idempotent: between two stores with no cell both
    read and written, a second forward call with the same map changes
    nothing. *)
Theorem fwd_twice_is_fwd (self : DefaultTransfer.t) (ip_vec op_vec : Vector)
    (m : memory) (ms : list (nat * nat)) :
  correspondences self ip_vec op_vec = inr ms ->
  apart ms ->
  exists m1 m2,
    DefaultTransfer.__call__ self ip_vec op_vec "fwd" m = inr m1 /\
    DefaultTransfer.__call__ self ip_vec op_vec "fwd" m1 = inr m2 /\
    forall c, m2 c = m1 c.
Proof.
  intros Hms Hap. rewrite call_fwd.
  destruct (fwd_loop self ip_vec op_vec _ m ms Hms Hap) as (m1 & Hrun1 & Hm1).
  destruct (fwd_loop self ip_vec op_vec _ m1 ms Hms Hap) as (m2 & Hrun2 & Hm2).
  exists m1, m2. split; [exact Hrun1 |]. split; [rewrite call_fwd; exact Hrun2 |].
  intros c. rewrite Hm2.
  rewrite (fwd_writes_ext ms m1 m).
  - destruct (in_dec Nat.eq_dec c (map fst ms)) as [Hin | Hout].
    + rewrite Hm1. apply assign_all_written.
      rewrite fwd_writes_targets; exact Hin.
    + apply assign_all_other. rewrite fwd_writes_targets; exact Hout.
  - intros o Ho. rewrite Hm1. apply assign_all_other.
    rewrite fwd_writes_targets. intros Hi. exact (Hap o o Hi Ho eq_refl).
Qed.

Lemma fwd_twice_is_fwd_witness :
  exists m1 m2,
    DefaultTransfer.__call__ fan_out ex_ip ex_op "fwd" ex_memory = inr m1 /\
    DefaultTransfer.__call__ fan_out ex_ip ex_op "fwd" m1 = inr m2 /\
    forall c, m2 c = m1 c.
Proof.
  apply (fwd_twice_is_fwd fan_out ex_ip ex_op ex_memory fan_out_cells).
  - reflexivity.
  - apply apartb_sound; reflexivity.
Defined.

Lemma contributions_perm (ms1 ms2 : list (nat * nat)) (m : memory) (c : nat) :
  Permutation ms1 ms2 -> contributions ms1 m c = contributions ms2 m c.
Proof.
  induction 1 as [| [i o] l l' _ IH | [i1 o1] [i2 o2] l | l l' l'' _ IH1 _ IH2].
  - reflexivity.
  - rewrite !contributions_cons, IH. reflexivity.
  - rewrite !contributions_cons. lra.
  - congruence.
Qed.

(** X21.  Reverse mode does not depend on the order of the entries when no
    output element is addressed twice (each output element then receives a
    single addition): two transfers whose correspondences between the same
    two stores hold the same pairs, in any order, leave the same memory. *)
Theorem rev_order_independent (t1 t2 : DefaultTransfer.t)
    (ip_vec op_vec : Vector) (m : memory) (ms1 ms2 : list (nat * nat)) :
  correspondences t1 ip_vec op_vec = inr ms1 ->
  correspondences t2 ip_vec op_vec = inr ms2 ->
  Permutation ms1 ms2 ->
  apart ms1 ->
  NoDup (map snd ms1) ->
  exists m1 m2,
    DefaultTransfer.__call__ t1 ip_vec op_vec "rev" m = inr m1 /\
    DefaultTransfer.__call__ t2 ip_vec op_vec "rev" m = inr m2 /\
    forall c, m1 c = m2 c.
Proof.
  intros H1 H2 Hperm Hap1 _.
  assert (Hap2 : apart ms2).
  { intros i o Hi Ho. apply Hap1.
    - apply (Permutation_in i (Permutation_map fst (Permutation_sym Hperm))); exact Hi.
    - apply (Permutation_in o (Permutation_map snd (Permutation_sym Hperm))); exact Ho. }
  destruct (rev_loop t1 ip_vec op_vec _ m ms1 H1 Hap1) as (m1 & Hrun1 & Hm1).
  destruct (rev_loop t2 ip_vec op_vec _ m ms2 H2 Hap2) as (m2 & Hrun2 & Hm2).
  exists m1, m2. rewrite !call_rev.
  split; [exact Hrun1 |]. split; [exact Hrun2 |].
  intros c. rewrite Hm1, Hm2, (contributions_perm ms1 ms2 m c Hperm). reflexivity.
Qed.

Lemma rev_order_independent_witness :
  exists m1 m2,
    DefaultTransfer.__call__ fan_out ex_ip ex_op "rev" ex_memory = inr m1 /\
    DefaultTransfer.__call__ fan_out_reordered ex_ip ex_op "rev" ex_memory = inr m2 /\
    forall c, m1 c = m2 c.
Proof.
  apply (rev_order_independent fan_out fan_out_reordered ex_ip ex_op ex_memory
           fan_out_cells fan_out_reordered_cells).
  - reflexivity.
  - reflexivity.
  - unfold fan_out_cells, fan_out_reordered_cells.
    apply Permutation_sym.
    apply (perm_trans (l' := [(0, 5); (1, 3); (0, 4)])); [apply perm_swap |].
    apply (perm_trans (l' := [(0, 5); (0, 4); (1, 3)]));
      [apply perm_skip, perm_swap | apply perm_swap].
  - apply apartb_sound; reflexivity.
  - repeat constructor; simpl; intuition discriminate.
Defined.

(** ** _initialize_views *)

Lemma sdict_get_set_same {V : Type} (d : dict string V) (k : string) (v : V) :
  sdict_getitem (sdict_setitem d k v) k = inr v.
Proof.
  induction d as [| [k' v'] d IH]; simpl.
  - rewrite String.eqb_refl; reflexivity.
  - destruct (String.eqb k' k) eqn:E; simpl; rewrite E; [reflexivity | exact IH].
Qed.

Lemma sdict_get_set_other {V : Type} (d : dict string V) (k k' : string) (v : V) :
  k' <> k -> sdict_getitem (sdict_setitem d k v) k' = sdict_getitem d k'.
Proof.
  intros Hne. induction d as [| [k0 v0] d IH]; simpl.
  - replace (String.eqb k k') with false; [reflexivity |].
    symmetry; apply String.eqb_neq; congruence.
  - destruct (String.eqb k0 k) eqn:E; simpl.
    + apply String.eqb_eq in E; subst k0.
      replace (String.eqb k k') with false; [reflexivity |].
      symmetry; apply String.eqb_neq; congruence.
    + destruct (String.eqb k0 k'); [reflexivity | exact IH].
Qed.

Lemma sdict_keys_set {V : Type} (d : dict string V) (k : string) (v : V) :
  forall k', In k' (keys (sdict_setitem d k v)) <-> k' = k \/ In k' (keys d).
Proof.
  intros k'. induction d as [| [k0 v0] d IH]; simpl.
  - intuition congruence.
  - destruct (String.eqb k0 k) eqn:E; simpl.
    + apply String.eqb_eq in E; subst k0. intuition congruence.
    + rewrite IH. tauto.
Qed.

(** What one turn of the loop does. *)
Lemma views_body_returned (self : Vector) (sv : SystemVariables)
    (views : dict string view) (idxs : dict string idx) (ind : nat)
    (name : string) (acc' : dict string view * dict string idx) :
  DefaultVector.views_body self sv (views, idxs) (ind, name) = inr acc' ->
  exists iset ivar row g shape val shp,
    variable_at self sv ind iset ivar row g shape val /\
    set_shape (window_of row g ivar) shape = inr shp /\
    fst acc' = sdict_setitem views name
                 {| view_array := window_of row g ivar; view_shape := shp |} /\
    snd acc' = match val with
               | RealValue => sdict_setitem idxs name Idx0
               | ArrayValue => sdict_setitem idxs name SliceNone
               | OtherValue => idxs
               end.
Proof.
  unfold DefaultVector.views_body. intros H.
  inv_bind H. inv_bind H. destruct x0 as [iset ivar].
  inv_bind H. inv_bind H. inv_bind H. inv_bind H. inv_bind H. inv_bind H.
  destruct (meta_shape x5) as [shape |] eqn:Hshape; [| discriminate H].
  simpl in H. inv_bind H.
  destruct (meta_value x5) as [val |] eqn:Hval; [| discriminate H].
  simpl in H.
  assert (x2 = x0) by congruence. subst x2.
  assert (x3 = x1) by congruence. subst x3.
  exists iset, ivar, x1, x4, shape, val, x6.
  split; [exists x, x0, x5; auto 10 |].
  split; [exact E7 |].
  destruct val; inversion H; subst; auto.
Qed.

(** A returned loop, name by name: when no two variables have the same
    name, the entries of a name are those its turn has made, and its turn
    found the entries the loop started with. *)
Lemma views_turns (self : Vector) (sv : SystemVariables)
    (items : list (nat * string))
    (acc acc' : dict string view * dict string idx) (ind : nat) (name : string) :
  for_each (DefaultVector.views_body self sv) items acc = inr acc' ->
  NoDup (map snd items) -> In (ind, name) items ->
  exists acc0 acc1,
    DefaultVector.views_body self sv acc0 (ind, name) = inr acc1 /\
    sdict_getitem (fst acc') name = sdict_getitem (fst acc1) name /\
    sdict_getitem (snd acc') name = sdict_getitem (snd acc1) name /\
    sdict_getitem (snd acc0) name = sdict_getitem (snd acc) name.
Proof.
  assert (Hkeep : forall its a a',
            for_each (DefaultVector.views_body self sv) its a = inr a' ->
            ~ In name (map snd its) ->
            sdict_getitem (fst a') name = sdict_getitem (fst a) name /\
            sdict_getitem (snd a') name = sdict_getitem (snd a) name).
  { induction its as [| [i n] its IH]; intros a a' Hrun Hno.
    - simpl in Hrun. inversion Hrun; subst; auto.
    - simpl in Hrun. inv_bind Hrun. destruct a as [vw ix].
      destruct (views_body_returned self sv vw ix i n x E)
        as (iset & ivar & row & g & shape & val & shp & _ & _ & Hf & Hs).
      simpl in Hno.
      destruct (IH x a' Hrun) as (H1 & H2); [tauto |].
      rewrite H1, H2, Hf, Hs. simpl.
      assert (Hne : name <> n) by (intros ->; tauto).
      split; [apply sdict_get_set_other; exact Hne |].
      destruct val; try reflexivity; apply sdict_get_set_other; exact Hne. }
  revert acc; induction items as [| [i n] items IH]; intros acc Hrun Hnd Hin;
    [contradiction |].
  simpl in Hrun. inv_bind Hrun. simpl in Hnd.
  inversion Hnd as [| ? ? Hnotin Hnd']; subst.
  destruct Hin as [Heq | Hin].
  - inversion Heq; subst i n.
    destruct (Hkeep items x acc' Hrun Hnotin) as (H1 & H2).
    exists acc, x. auto.
  - destruct (IH x Hrun Hnd' Hin) as (acc0 & acc1 & Hb & H1 & H2 & H3).
    exists acc0, acc1. split; [exact Hb |]. split; [exact H1 |].
    split; [exact H2 |]. rewrite H3.
    assert (Hne : name <> n).
    { intros ->. apply Hnotin. apply in_map_iff. exists (ind, n); auto. }
    destruct (Hkeep [(i, n)] acc x) as (_ & Hk).
    + simpl. rewrite E; reflexivity.
    + simpl. intros [Hc | []]. congruence.
    + exact Hk.
Qed.

Lemma fold_left_Zmul (l : list Z) (acc : Z) :
  fold_left Z.mul l acc = (acc * fold_right Z.mul 1 l)%Z.
Proof.
  revert acc; induction l as [| x l IH]; simpl; intros acc; [lia |].
  rewrite IH; lia.
Qed.

Lemma known_size_nonneg (s : list Z) : (0 <= known_size s)%Z.
Proof.
  unfold known_size. rewrite fold_left_Zmul, Z.mul_1_l.
  induction s as [| d s IH]; simpl; [lia |].
  destruct (0 <=? d)%Z eqn:E; simpl; [apply Z.leb_le in E; nia | exact IH].
Qed.

(** The number of elements of a shape in which [q] stands for the
    dimensions left open. *)
Lemma size_of_filled_shape (q : Z) (s : list Z) :
  (0 <= q)%Z ->
  Z.of_nat (size_of_shape
              (map (fun d => if (d <? 0)%Z then Z.to_nat q else Z.to_nat d) s))
  = (known_size s * q ^ Z.of_nat (length (filter (fun d => (d <? 0)%Z) s)))%Z.
Proof.
  intros Hq. unfold known_size. rewrite fold_left_Zmul, Z.mul_1_l.
  induction s as [| d s IH]; [reflexivity |].
  cbn [map size_of_shape fold_right filter]. fold (size_of_shape
    (map (fun d => if (d <? 0)%Z then Z.to_nat q else Z.to_nat d) s)).
  rewrite Nat2Z.inj_mul, IH.
  destruct (d <? 0)%Z eqn:E.
  - apply Z.ltb_lt in E.
    replace (0 <=? d)%Z with false by (symmetry; apply Z.leb_gt; lia).
    cbn [length]. rewrite Nat2Z.inj_succ, Z.pow_succ_r by lia.
    rewrite Z2Nat.id by lia. ring.
  - apply Z.ltb_ge in E.
    replace (0 <=? d)%Z with true by (symmetry; apply Z.leb_le; lia).
    cbn [fold_right]. rewrite Z2Nat.id by lia. ring.
Qed.

Lemma filter_nil_false {A : Type} (f : A -> bool) (l : list A) (x : A) :
  filter f l = [] -> In x l -> f x = false.
Proof.
  induction l as [| y l IH]; simpl; intros H Hx; [contradiction |].
  destruct (f y) eqn:E; [discriminate |].
  destruct Hx as [-> | Hx]; auto.
Qed.

(** A shape that is accepted has as many elements as the array. *)
Lemma set_shape_size (a : ndarray) (s : list Z) (shp : list nat) :
  set_shape a s = inr shp -> size_of_shape shp = len a.
Proof.
  unfold set_shape.
  destruct (filter (fun d => (d <? 0)%Z) s) as [| d0 [| d1 rest]] eqn:Hneg;
    cbn [length]; [| | discriminate].
  - destruct (known_size s =? Z.of_nat (len a))%Z eqn:E; [| discriminate].
    apply Z.eqb_eq in E. intros H; inversion H; subst; clear H.
    rewrite (map_ext_in _ (fun d => if (d <? 0)%Z then Z.to_nat 0 else Z.to_nat d)).
    + apply Nat2Z.inj. rewrite size_of_filled_shape by lia.
      rewrite Hneg; simpl. lia.
    + intros d Hd. rewrite (filter_nil_false _ s d Hneg Hd). reflexivity.
  - destruct ((known_size s =? 0)%Z
              || negb (Z.of_nat (len a) mod known_size s =? 0)%Z) eqn:E;
      [discriminate |].
    apply orb_false_iff in E. destruct E as [E1 E2].
    apply Z.eqb_neq in E1. apply negb_false_iff, Z.eqb_eq in E2.
    intros H; inversion H; subst; clear H.
    pose proof (known_size_nonneg s) as Hk.
    apply Nat2Z.inj. rewrite size_of_filled_shape.
    + rewrite Hneg; cbn [length]. change (Z.of_nat 1) with 1%Z.
      rewrite Z.pow_1_r. symmetry. apply Z.div_exact; assumption.
    + apply Z.div_pos; lia.
Qed.

Lemma combine_seq_In {A : Type} (l : list A) (i : nat) (x : A) :
  nth_error l i = Some x -> In (i, x) (combine (seq 0 (length l)) l).
Proof.
  assert (H : forall k, nth_error l i = Some x ->
                        In (k + i, x) (combine (seq k (length l)) l)).
  { revert i; induction l as [| y l IH]; intros i k Hi.
    - destruct i; discriminate.
    - destruct i as [| i]; simpl in Hi.
      + inversion Hi; subst. rewrite Nat.add_0_r. left; reflexivity.
      + right. replace (k + S i) with (S k + i) by lia. apply IH; exact Hi. }
  exact (H 0).
Qed.

Lemma map_snd_combine_seq {A : Type} (l : list A) (k : nat) :
  map snd (combine (seq k (length l)) l) = l.
Proof.
  revert k; induction l as [| y l IH]; intros k; simpl; [reflexivity |].
  f_equal; apply IH.
Qed.

(** What a returned [_initialize_views] holds for a name. *)
Lemma views_entry (self : Vector) (sv : SystemVariables)
    (views : dict string view) (idxs : dict string idx) (ind : nat)
    (name : string) :
  DefaultVector._initialize_views self sv = inr (views, idxs) ->
  NoDup (_variable_myproc_names sv) ->
  nth_error (_variable_myproc_names sv) ind = Some name ->
  exists iset ivar row g shape val shp,
    variable_at self sv ind iset ivar row g shape val /\
    set_shape (window_of row g ivar) shape = inr shp /\
    sdict_getitem views name
    = inr {| view_array := window_of row g ivar; view_shape := shp |} /\
    sdict_getitem idxs name = match val with
                              | RealValue => inr Idx0
                              | ArrayValue => inr SliceNone
                              | OtherValue => inl KeyError
                              end.
Proof.
  unfold DefaultVector._initialize_views. intros Hrun Hnd Hname.
  destruct (views_turns self sv _ ([], []) (views, idxs) ind name Hrun)
    as ([vw ix] & acc1 & Hbody & Hv & Hi & Hstart).
  - rewrite map_snd_combine_seq; exact Hnd.
  - apply combine_seq_In; exact Hname.
  - destruct (views_body_returned self sv vw ix ind name acc1 Hbody)
      as (iset & ivar & row & g & shape & val & shp & Hvar & Hshape & Hf & Hs).
    exists iset, ivar, row, g, shape, val, shp.
    split; [exact Hvar |]. split; [exact Hshape |]. simpl in Hv, Hi, Hstart.
    split; [rewrite Hv, Hf; apply sdict_get_set_same |].
    rewrite Hi, Hs. destruct val; try apply sdict_get_set_same. exact Hstart.
Qed.

(** X22.  Whenever [_initialize_views] returns and the names are pairwise
    different, every variable of this process has a view under its name:
    the window the code computes in the global buffer of the variable's
    set.  The view lies inside that buffer, and its shape has exactly as
    many elements as the window. *)
Theorem initialize_views_windows (self : Vector) (sv : SystemVariables)
    (views : dict string view) (idxs : dict string idx) (ind : nat)
    (name : string) :
  DefaultVector._initialize_views self sv = inr (views, idxs) ->
  NoDup (_variable_myproc_names sv) ->
  nth_error (_variable_myproc_names sv) ind = Some name ->
  exists iset ivar row g shape val v,
    variable_at self sv ind iset ivar row g shape val /\
    sdict_getitem views name = inr v /\
    view_array v = window_of row g ivar /\
    (forall c, in_array (view_array v) c -> in_array g c) /\
    size_of_shape (view_shape v) = len (view_array v).
Proof.
  intros Hrun Hnd Hname.
  destruct (views_entry self sv views idxs ind name Hrun Hnd Hname)
    as (iset & ivar & row & g & shape & val & shp & Hvar & Hshape & Hv & _).
  exists iset, ivar, row, g, shape, val,
    {| view_array := window_of row g ivar; view_shape := shp |}.
  split; [exact Hvar |]. split; [exact Hv |]. split; [reflexivity |]. simpl.
  split; [intros c; apply slice_within |].
  exact (set_shape_size _ _ _ Hshape).
Qed.

(** X23.  Whenever [_initialize_views] returns and the names are pairwise
    different, [_idxs] holds [0] under the name of a variable whose value
    is a real number, [slice(None)] under the name of one whose value is an
    array, and has no entry for a variable whose value is neither. *)
Theorem initialize_views_idxs (self : Vector) (sv : SystemVariables)
    (views : dict string view) (idxs : dict string idx) (ind : nat)
    (name : string) :
  DefaultVector._initialize_views self sv = inr (views, idxs) ->
  NoDup (_variable_myproc_names sv) ->
  nth_error (_variable_myproc_names sv) ind = Some name ->
  exists md val,
    list_getitem (_variable_myproc_metadata sv) (Z.of_nat ind) = inr md /\
    meta_value md = Some val /\
    sdict_getitem idxs name = match val with
                              | RealValue => inr Idx0
                              | ArrayValue => inr SliceNone
                              | OtherValue => inl KeyError
                              end.
Proof.
  intros Hrun Hnd Hname.
  destruct (views_entry self sv views idxs ind name Hrun Hnd Hname)
    as (iset & ivar & row & g & shape & val & shp & Hvar & _ & _ & Hi).
  destruct Hvar as (ivar_all & sizes & md & _ & _ & _ & _ & _ & Hmd & _ & Hval).
  exists md, val. auto.
Qed.

Lemma names_nodup_xyz : NoDup ["x"; "y"; "z"]%string.
Proof. repeat constructor; simpl; intuition discriminate. Qed.

(** The theorem at the variable [x] of process 0 of the two-process
    example, declared with the open shape [(-1,)]. *)
Lemma initialize_views_windows_witness :
  exists views idxs v,
    DefaultVector._initialize_views split_global0 split_variables
    = inr (views, idxs) /\
    sdict_getitem views "x" = inr v /\
    view_array v = {| ptr := 0; len := 2 |} /\
    size_of_shape (view_shape v) = 2.
Proof.
  destruct (DefaultVector._initialize_views split_global0 split_variables)
    as [e | [views idxs]] eqn:E.
  - unfold DefaultVector._initialize_views in E. simpl in E. discriminate E.
  - destruct (initialize_views_windows split_global0 split_variables views idxs
                0 "x" E names_nodup_xyz eq_refl)
      as (iset & ivar & row & g & shape & val & v & Hvar & Hv & Harr & Hin & Hsize).
    exists views, idxs, v. split; [reflexivity |]. split; [exact Hv |].
    destruct Hvar as (ivar_all & sizes & md & H1 & H2 & H3 & H4 & H5 & _).
    simpl in H1. inversion H1; subst ivar_all.
    simpl in H2. inversion H2; subst iset ivar.
    simpl in H3. inversion H3; subst sizes.
    simpl in H4. inversion H4; subst row.
    simpl in H5. inversion H5; subst g.
    assert (Hw : view_array v = {| ptr := 0; len := 2 |}) by (rewrite Harr; reflexivity).
    split; [exact Hw |]. rewrite Hsize, Hw. reflexivity.
Defined.

(** The theorem at the three variables: an array, a number, and a value
    that is neither. *)
Lemma initialize_views_idxs_witness :
  exists views idxs,
    DefaultVector._initialize_views split_global0 split_variables
    = inr (views, idxs) /\
    sdict_getitem idxs "x" = inr SliceNone /\
    sdict_getitem idxs "y" = inr Idx0 /\
    sdict_getitem idxs "z" = inl KeyError.
Proof.
  destruct (DefaultVector._initialize_views split_global0 split_variables)
    as [e | [views idxs]] eqn:E.
  - unfold DefaultVector._initialize_views in E. simpl in E. discriminate E.
  - exists views, idxs. split; [reflexivity |].
    destruct (initialize_views_idxs split_global0 split_variables views idxs
                0 "x" E names_nodup_xyz eq_refl) as (md0 & v0 & Hm0 & Hv0 & Hx).
    destruct (initialize_views_idxs split_global0 split_variables views idxs
                1 "y" E names_nodup_xyz eq_refl) as (md1 & v1 & Hm1 & Hv1 & Hy).
    destruct (initialize_views_idxs split_global0 split_variables views idxs
                2 "z" E names_nodup_xyz eq_refl) as (md2 & v2 & Hm2 & Hv2 & Hz).
    simpl in Hm0, Hm1, Hm2. inversion Hm0; inversion Hm1; inversion Hm2; subst.
    simpl in Hv0, Hv1, Hv2. inversion Hv0; inversion Hv1; inversion Hv2; subst.
    auto.
Defined.

(** ** The windows of the variables of a set *)

Lemma np_sumZ_firstn_succ (row : list Z) (k : nat) :
  k < length row ->
  np_sumZ (firstn (S k) row) = (np_sumZ (firstn k row) + nth k row 0)%Z.
Proof.
  revert k; induction row as [| x row IH]; intros k Hk; [simpl in Hk; lia |].
  destruct k as [| k].
  - simpl. rewrite np_sumZ_cons. unfold np_sumZ; simpl; lia.
  - change (firstn (S (S k)) (x :: row)) with (x :: firstn (S k) row).
    change (firstn (S k) (x :: row)) with (x :: firstn k row).
    rewrite !np_sumZ_cons, IH by (simpl in Hk; lia). simpl. lia.
Qed.

(** With sizes that fit the buffer, the window of a variable starts after
    the sizes of the variables before it and has its size. *)
Lemma window_exact (row : list Z) (g : ndarray) (ivar : Z) :
  sizes_fit row g -> (0 <= ivar < Z.of_nat (length row))%Z ->
  ptr (window_of row g ivar)
  = ptr g + Z.to_nat (np_sumZ (firstn (Z.to_nat ivar) row)) /\
  Z.of_nat (len (window_of row g ivar)) = nth (Z.to_nat ivar) row 0%Z /\
  (np_sumZ (firstn (Z.to_nat ivar) row) + nth (Z.to_nat ivar) row 0
   = np_sumZ (firstn (Z.to_nat (ivar + 1)) row))%Z /\
  (0 <= np_sumZ (firstn (Z.to_nat ivar) row))%Z.
Proof.
  intros [Hpos Hsum] Hivar. unfold window_of.
  rewrite !py_slice_prefix by lia.
  replace (Z.to_nat (ivar + 1)) with (S (Z.to_nat ivar)) by lia.
  rewrite np_sumZ_firstn_succ by lia.
  destruct (np_sumZ_firstn_mono row (Z.to_nat ivar) (S (Z.to_nat ivar)) Hpos)
    as (H0 & H1); [lia |].
  destruct (np_sumZ_firstn_mono row (S (Z.to_nat ivar)) (length row) Hpos)
    as (_ & H2); [lia |].
  rewrite firstn_all in H2. rewrite np_sumZ_firstn_succ in H1, H2 by lia.
  rewrite slice_exact by lia. simpl. repeat split; lia.
Qed.

Lemma variable_at_unique (self : Vector) (sv : SystemVariables) (ind : nat)
    (iset iset' ivar ivar' : Z) (row row' : list Z) (g g' : ndarray)
    (shape shape' : list Z) (val val' : py_value) :
  variable_at self sv ind iset ivar row g shape val ->
  variable_at self sv ind iset' ivar' row' g' shape' val' ->
  iset' = iset /\ ivar' = ivar /\ row' = row /\ g' = g /\ shape' = shape /\
  val' = val.
Proof.
  intros (ia & sz & md & H1 & H2 & H3 & H4 & H5 & H6 & H7 & H8)
         (ia' & sz' & md' & H1' & H2' & H3' & H4' & H5' & H6' & H7' & H8').
  assert (ia' = ia) by congruence. subst ia'.
  assert (Hp : (iset', ivar') = (iset, ivar)) by congruence.
  inversion Hp; subst iset' ivar'.
  assert (sz' = sz) by congruence. subst sz'.
  assert (md' = md) by congruence. subst md'.
  repeat split; congruence.
Qed.

(** X24.  Whenever [_initialize_views] returns with pairwise different
    names, a variable whose set has sizes that fit the global buffer gets
    the window that starts after the sizes of the variables placed before
    it in the set and has as many elements as its own size on this
    process. *)
Theorem initialize_views_exact (self : Vector) (sv : SystemVariables)
    (views : dict string view) (idxs : dict string idx) (ind : nat)
    (name : string) (iset ivar : Z) (row : list Z) (g : ndarray)
    (shape : list Z) (val : py_value) :
  DefaultVector._initialize_views self sv = inr (views, idxs) ->
  NoDup (_variable_myproc_names sv) ->
  nth_error (_variable_myproc_names sv) ind = Some name ->
  variable_at self sv ind iset ivar row g shape val ->
  sizes_fit row g ->
  (0 <= ivar < Z.of_nat (length row))%Z ->
  exists v,
    sdict_getitem views name = inr v /\
    ptr (view_array v) = ptr g + Z.to_nat (np_sumZ (firstn (Z.to_nat ivar) row)) /\
    Z.of_nat (len (view_array v)) = nth (Z.to_nat ivar) row 0%Z.
Proof.
  intros Hrun Hnd Hname Hvar Hfit Hivar.
  destruct (views_entry self sv views idxs ind name Hrun Hnd Hname)
    as (iset' & ivar' & row' & g' & shape' & val' & shp & Hvar' & _ & Hv & _).
  destruct (variable_at_unique _ _ _ _ _ _ _ _ _ _ _ _ _ _ _ Hvar Hvar')
    as (-> & -> & -> & -> & _).
  eexists; split; [exact Hv |]. simpl.
  destruct (window_exact row g ivar Hfit Hivar) as (Hp & Hl & _).
  split; assumption.
Qed.

(** The theorem at the variable [y], placed after the 2 elements of [x]. *)
Lemma initialize_views_exact_witness :
  exists views idxs v,
    DefaultVector._initialize_views split_global0 split_variables
    = inr (views, idxs) /\
    sdict_getitem views "y" = inr v /\
    ptr (view_array v) = 2 /\ len (view_array v) = 1.
Proof.
  destruct (DefaultVector._initialize_views split_global0 split_variables)
    as [e | [views idxs]] eqn:E.
  - unfold DefaultVector._initialize_views in E. simpl in E. discriminate E.
  - destruct (initialize_views_exact split_global0 split_variables views idxs
                1 "y" 0 1 [2; 1]%Z {| ptr := 0; len := 3 |} [1]%Z RealValue
                E names_nodup_xyz eq_refl) as (v & Hv & Hp & Hl).
    + exists 1%Z, [[2; 1]; [0; 0]]%Z,
        {| meta_shape := Some [1]%Z; meta_value := Some RealValue |}.
      repeat split; reflexivity.
    + split; [repeat constructor; lia | reflexivity].
    + simpl; lia.
    + exists views, idxs, v. split; [reflexivity |]. split; [exact Hv |].
      unfold np_sumZ in Hp; simpl in Hp, Hl. split; lia.
Defined.

(** X25.  Whenever [_initialize_views] returns with pairwise different
    names, the views of two variables placed at different positions of the
    same set, whose sizes fit the global buffer, share no cell. *)
Theorem initialize_views_apart (self : Vector) (sv : SystemVariables)
    (views : dict string view) (idxs : dict string idx) (ind1 ind2 : nat)
    (name1 name2 : string) (iset ivar1 ivar2 : Z) (row : list Z) (g : ndarray)
    (shape1 shape2 : list Z) (val1 val2 : py_value) :
  DefaultVector._initialize_views self sv = inr (views, idxs) ->
  NoDup (_variable_myproc_names sv) ->
  nth_error (_variable_myproc_names sv) ind1 = Some name1 ->
  nth_error (_variable_myproc_names sv) ind2 = Some name2 ->
  variable_at self sv ind1 iset ivar1 row g shape1 val1 ->
  variable_at self sv ind2 iset ivar2 row g shape2 val2 ->
  sizes_fit row g ->
  (0 <= ivar1 < ivar2)%Z -> (ivar2 < Z.of_nat (length row))%Z ->
  exists v1 v2,
    sdict_getitem views name1 = inr v1 /\
    sdict_getitem views name2 = inr v2 /\
    disjoint (view_array v1) (view_array v2).
Proof.
  intros Hrun Hnd Hn1 Hn2 Hv1 Hv2 Hfit Hlt Hin.
  destruct (views_entry self sv views idxs ind1 name1 Hrun Hnd Hn1)
    as (is1 & iv1 & r1 & g1 & s1 & va1 & shp1 & Hvar1 & _ & Hget1 & _).
  destruct (variable_at_unique _ _ _ _ _ _ _ _ _ _ _ _ _ _ _ Hv1 Hvar1)
    as (-> & -> & -> & -> & _).
  destruct (views_entry self sv views idxs ind2 name2 Hrun Hnd Hn2)
    as (is2 & iv2 & r2 & g2 & s2 & va2 & shp2 & Hvar2 & _ & Hget2 & _).
  destruct (variable_at_unique _ _ _ _ _ _ _ _ _ _ _ _ _ _ _ Hv2 Hvar2)
    as (-> & -> & -> & -> & _).
  eexists; eexists. split; [exact Hget1 |]. split; [exact Hget2 |]. simpl.
  destruct (window_exact row g ivar1 Hfit) as (Hp1 & Hl1 & Hnext1 & H01); [lia |].
  destruct (window_exact row g ivar2 Hfit) as (Hp2 & Hl2 & _ & H02); [lia |].
  destruct Hfit as [Hpos _].
  destruct (np_sumZ_firstn_mono row (Z.to_nat (ivar1 + 1)) (Z.to_nat ivar2) Hpos)
    as (_ & Hmono); [lia |].
  intros c Hc1 Hc2. unfold in_array in Hc1, Hc2. lia.
Qed.

(** The theorem at the variables [x] and [y] of set 0. *)
Lemma initialize_views_apart_witness :
  exists views idxs v1 v2,
    DefaultVector._initialize_views split_global0 split_variables
    = inr (views, idxs) /\
    sdict_getitem views "x" = inr v1 /\
    sdict_getitem views "y" = inr v2 /\
    disjoint (view_array v1) (view_array v2).
Proof.
  destruct (DefaultVector._initialize_views split_global0 split_variables)
    as [e | [views idxs]] eqn:E.
  - unfold DefaultVector._initialize_views in E. simpl in E. discriminate E.
  - destruct (initialize_views_apart split_global0 split_variables views idxs
                0 1 "x" "y" 0 0 1 [2; 1]%Z {| ptr := 0; len := 3 |}
                [-1]%Z [1]%Z ArrayValue RealValue
                E names_nodup_xyz eq_refl eq_refl) as (v1 & v2 & H1 & H2 & Hd).
    + exists 0%Z, [[2; 1]; [0; 0]]%Z,
        {| meta_shape := Some [-1]%Z; meta_value := Some ArrayValue |}.
      repeat split; reflexivity.
    + exists 1%Z, [[2; 1]; [0; 0]]%Z,
        {| meta_shape := Some [1]%Z; meta_value := Some RealValue |}.
      repeat split; reflexivity.
    + split; [repeat constructor; lia | reflexivity].
    + lia.
    + simpl; lia.
    + exists views, idxs, v1, v2. auto.
Defined.

(** ** _initialize_views: metadata that does not fit *)






(** X27.  When the metadata of a variable of this process is missing, or
    lacks ['shape'] or ['value'], [_initialize_views] raises. *)
Theorem missing_metadata_raises (self : Vector) (sv : SystemVariables)
    (ind : nat) (name : string) :
  nth_error (_variable_myproc_names sv) ind = Some name ->
  (forall md,
      list_getitem (_variable_myproc_metadata sv) (Z.of_nat ind) = inr md ->
      meta_shape md = None \/ meta_value md = None) ->
  exists e, DefaultVector._initialize_views self sv = inl e.
Proof.
  intros Hname Hmeta. unfold DefaultVector._initialize_views.
  apply (for_each_raises _ _ (ind, name) (combine_seq_In _ _ _ Hname)).
  intros [views idxs]. unfold DefaultVector.views_body.
  destruct (list_getitem (_variable_myproc_indices sv) (Z.of_nat ind))
    as [e | ia]; cbn [bind]; [eauto |].
  destruct (list_getitem (_variable_set_indices (_assembler self)) ia)
    as [e | [iset ivar]]; cbn [bind]; [eauto |].
  destruct (list_getitem (_variable_sizes (_assembler self)) iset)
    as [e | sz]; cbn [bind]; [eauto |].
  destruct (list_getitem sz (_iproc self)) as [e | row]; cbn [bind]; [eauto |].
  destruct (list_getitem (_data (global_vector self)) iset)
    as [e | g]; cbn [bind]; [eauto |].
  destruct (list_getitem (_variable_myproc_metadata sv) (Z.of_nat ind))
    as [e | md] eqn:Hmd; cbn [bind]; [eauto |].
  destruct (Hmeta md eq_refl) as [Hs | Hv].
  - rewrite Hs; cbn [bind raise]. eauto.
  - destruct (meta_shape md) as [shape |]; cbn [bind raise ret]; [| eauto].
    destruct (set_shape _ shape) as [e | shp]; cbn [bind]; [eauto |].
    rewrite Hv; cbn [bind raise]. eauto.
Qed.

Lemma missing_metadata_raises_witness :
  exists e, DefaultVector._initialize_views split_global0 valueless_variables
            = inl e.
Proof.
  apply (missing_metadata_raises split_global0 valueless_variables 1 "y").
  - reflexivity.
  - intros md H. simpl in H. inversion H; subst. right; reflexivity.
Defined.
